(** * Verification of create.py (pandora-notes)

    A shallow embedding of the document-to-element pipeline of
    [create.py]: the regular expressions of [parse_latex] run on a small
    backtracking matcher with Python's priorities, the two passes of
    [parse_latex], and the dispatch loop of [main] over an explicit
    model of the external converters and of the bundle directory. *)

From Stdlib Require Import String Ascii NArith ZArith List Lia Sorted DecimalNat DecimalString.
From stdpp Require Import base list gmap.

Import ListNotations.
Local Open Scope nat_scope.

(** ** Python strings

    A Python [str] is a sequence of code points; a code point is an [N]. *)

Abbreviation text := (list N).

(** An ASCII literal as a text. *)
Definition py (s : string) : text :=
  map N_of_ascii (list_ascii_of_string s).

Definition NL : N := 10%N.

(** [str.isspace] on one code point ([Py_UNICODE_ISSPACE]); the regular
    expression class [\s] of a [str] pattern is the same set. *)
Definition isspace (c : N) : bool :=
  ((9 <=? c) && (c <=? 13) || (28 <=? c) && (c <=? 32)
   || (c =? 133) || (c =? 160) || (c =? 5760)
   || (8192 <=? c) && (c <=? 8202)
   || (c =? 8232) || (c =? 8233) || (c =? 8239) || (c =? 8287)
   || (c =? 12288))%N.

Fixpoint lstrip (t : text) : text :=
  match t with
  | c :: t' => if isspace c then lstrip t' else t
  | [] => []
  end.

Definition rstrip (t : text) : text := rev (lstrip (rev t)).

(** [t.strip()] *)
Definition strip (t : text) : text := rstrip (lstrip t).

(** Truth value of a [str]: non-empty. *)
Definition truthy (t : text) : bool :=
  match t with [] => false | _ :: _ => true end.

Fixpoint text_eqb (a b : text) : bool :=
  match a, b with
  | [], [] => true
  | x :: a', y :: b' => N.eqb x y && text_eqb a' b'
  | _, _ => false
  end.

Fixpoint starts_with (w t : text) : bool :=
  match w, t with
  | [], _ => true
  | x :: w', y :: t' => N.eqb x y && starts_with w' t'
  | _ :: _, [] => false
  end.

(** [t[a:b]] for [a <= b]. *)
Definition slice (a b : nat) (t : text) : text := take (b - a) (drop a t).

(** [t.replace(old, "")]: the non-overlapping occurrences of [old] are
    removed from left to right; [skip] counts the characters of the
    occurrence being removed that are still ahead. *)
Fixpoint remove_occ (old t : text) (skip : nat) : text :=
  match t with
  | [] => []
  | c :: t' =>
      match skip with
      | S k => remove_occ old t' k
      | O => if starts_with old t then remove_occ old t' (length old - 1)
             else c :: remove_occ old t' 0
      end
  end.

Definition replace_empty (old t : text) : text :=
  match old with
  | [] => t
  | _ :: _ => remove_occ old t 0
  end.

(** [f"{i}"] for a non-negative integer. *)
Definition str_of_nat (i : nat) : text :=
  py (NilEmpty.string_of_uint (Nat.to_uint i)).

(** [Path(p).name]: the last component of a POSIX path; empty and [.]
    components are dropped by [pathlib] when the path is parsed. *)
Fixpoint split_slash (t cur : text) : list text :=
  match t with
  | [] => [rev cur]
  | c :: t' => if N.eqb c 47 then rev cur :: split_slash t' []
               else split_slash t' (c :: cur)
  end.

Definition path_parts (p : text) : list text :=
  filter (fun w => negb (text_eqb w []) && negb (text_eqb w (py "."))) (split_slash p []).

Definition path_name (p : text) : text := List.last (path_parts p) [].

(** ** Regular expressions

    The constructs that occur in the patterns of [create.py].  Repetition
    only ever applies to a character class there. *)

Inductive regex :=
| Lit (w : text)
| Cls (p : N -> bool)
| Bol
| Seq (r1 r2 : regex)
| Alt (r1 r2 : regex)
| Opt (r : regex)
| Star (p : N -> bool)
| StarLazy (p : N -> bool)
| Plus (p : N -> bool)
| Group (n : nat) (r : regex).

Infix "@@" := Seq (at level 60, right associativity).

(** The matcher's position in the subject: the number of characters
    consumed since the anchor of the attempt, the previous character
    (for [^]), the text still ahead, and the groups captured so far. *)
Record cursor := Cursor {
  c_pos : nat;
  c_prev : option N;
  c_rest : text;
  c_caps : list (nat * text)
}.

Definition step (c : N) (s' : text) (a : cursor) : cursor :=
  Cursor (S (c_pos a)) (Some c) s' (c_caps a).

Definition set_cap (n : nat) (w : text) (a : cursor) : cursor :=
  Cursor (c_pos a) (c_prev a) (c_rest a) ((n, w) :: c_caps a).

Fixpoint lit (w : text) (a : cursor) : option cursor :=
  match w with
  | [] => Some a
  | x :: w' =>
      match c_rest a with
      | y :: s' => if N.eqb x y then lit w' (step y s' a) else None
      | [] => None
      end
  end.

(** Greedy [c*]: as many characters as possible first, one fewer on
    each backtrack. *)
Fixpoint star_greedy (p : N -> bool) (s : text) (pos : nat) (prev : option N)
    (caps : list (nat * text)) (k : cursor -> option cursor) : option cursor :=
  match s with
  | c :: s' =>
      if p c then
        match star_greedy p s' (S pos) (Some c) caps k with
        | Some b => Some b
        | None => k (Cursor pos prev s caps)
        end
      else k (Cursor pos prev s caps)
  | [] => k (Cursor pos prev [] caps)
  end.

(** Lazy [c*?]: as few characters as possible first. *)
Fixpoint star_lazy (p : N -> bool) (s : text) (pos : nat) (prev : option N)
    (caps : list (nat * text)) (k : cursor -> option cursor) : option cursor :=
  match k (Cursor pos prev s caps) with
  | Some b => Some b
  | None =>
      match s with
      | c :: s' => if p c then star_lazy p s' (S pos) (Some c) caps k else None
      | [] => None
      end
  end.

(** Backtracking matcher in continuation-passing style: [exec r a k]
    tries the ways [r] can match at [a] in Python's priority order and
    returns the first one the continuation [k] accepts. *)
Fixpoint exec (r : regex) (a : cursor) (k : cursor -> option cursor) : option cursor :=
  match r with
  | Lit w => match lit w a with Some b => k b | None => None end
  | Cls p =>
      match c_rest a with
      | c :: s' => if p c then k (step c s' a) else None
      | [] => None
      end
  | Bol =>
      match c_prev a with
      | None => k a
      | Some c => if N.eqb c NL then k a else None
      end
  | Seq r1 r2 => exec r1 a (fun b => exec r2 b k)
  | Alt r1 r2 =>
      match exec r1 a k with
      | Some b => Some b
      | None => exec r2 a k
      end
  | Opt r1 =>
      match exec r1 a k with
      | Some b => Some b
      | None => k a
      end
  | Star p => star_greedy p (c_rest a) (c_pos a) (c_prev a) (c_caps a) k
  | StarLazy p => star_lazy p (c_rest a) (c_pos a) (c_prev a) (c_caps a) k
  | Plus p =>
      match c_rest a with
      | c :: s' =>
          if p c then star_greedy p s' (S (c_pos a)) (Some c) (c_caps a) k
          else None
      | [] => None
      end
  | Group n r1 =>
      exec r1 a (fun b => k (set_cap n (take (c_pos b - c_pos a) (c_rest a)) b))
  end.

(** A match object: [m.start()], [m.end()], [m.group(0)] and the
    numbered groups. *)
Record mtch := Mtch {
  m_start : nat;
  m_end : nat;
  m_text : text;
  m_caps : list (nat * text)
}.

Fixpoint cap_lookup (n : nat) (caps : list (nat * text)) : text :=
  match caps with
  | [] => []
  | (i, w) :: caps' => if Nat.eqb i n then w else cap_lookup n caps'
  end.

(** [m.group(n)] *)
Definition group (m : mtch) (n : nat) : text :=
  match n with
  | O => m_text m
  | S _ => cap_lookup n (m_caps m)
  end.

(** One match attempt anchored at index [p], where [s] is the subject
    from [p] on and [prev] the character before it. *)
Definition match_at (r : regex) (prev : option N) (p : nat) (s : text) : option mtch :=
  match exec r (Cursor 0 prev s []) Some with
  | Some b => Some (Mtch p (p + c_pos b) (take (c_pos b) s) (c_caps b))
  | None => None
  end.

Fixpoint search_from (r : regex) (s : text) (prev : option N) (p : nat) : option mtch :=
  match match_at r prev p s with
  | Some m => Some m
  | None =>
      match s with
      | [] => None
      | c :: s' => search_from r s' (Some c) (S p)
      end
  end.

(** [re.search(r, s)] *)
Definition re_search (r : regex) (s : text) : option mtch := search_from r s None 0.

(** The left-to-right scan behind [re.finditer]: [skip] characters of
    the last match are still ahead; after a match the next attempt
    starts at its end. *)
Fixpoint scan (r : regex) (s : text) (skip : nat) (prev : option N) (p : nat) : list mtch :=
  match s with
  | [] =>
      match skip with
      | O => match match_at r prev p [] with Some m => [m] | None => [] end
      | S _ => []
      end
  | c :: s' =>
      match skip with
      | S k => scan r s' k (Some c) (S p)
      | O =>
          match match_at r prev p s with
          | Some m => m :: scan r s' (m_end m - S p) (Some c) (S p)
          | None => scan r s' 0 (Some c) (S p)
          end
      end
  end.

(** [re.finditer(r, s)] *)
Definition re_finditer (r : regex) (s : text) : list mtch := scan r s 0 None 0.

(** [re.sub(r, repl, t)] with a callable [repl] that may update a state
    (the closure of [repl_inline] in [parse_latex] appends to a list). *)
Fixpoint sub_loop {St : Type} (repl : mtch -> St -> text * St) (t : text)
    (ms : list mtch) (pos : nat) (acc : text) (st : St) : text * St :=
  match ms with
  | [] => (acc ++ drop pos t, st)
  | m :: ms' =>
      let '(rep, st') := repl m st in
      sub_loop repl t ms' (m_end m) (acc ++ slice pos (m_start m) t ++ rep) st'
  end.

Definition re_sub {St : Type} (r : regex) (repl : mtch -> St -> text * St)
    (t : text) (st : St) : text * St :=
  sub_loop repl t (re_finditer r t) 0 [] st.

(** [re.split(r, t)] for a pattern with one capturing group. *)
Fixpoint split_loop (t : text) (ms : list mtch) (pos : nat) : list text :=
  match ms with
  | [] => [drop pos t]
  | m :: ms' => slice pos (m_start m) t :: group m 1 :: split_loop t ms' (m_end m)
  end.

Definition re_split (r : regex) (t : text) : list text :=
  split_loop t (re_finditer r t) 0.

(** Character classes of the patterns. *)
Definition any_char (c : N) : bool := true.                 (* [\s\S] *)
Definition dot (c : N) : bool := negb (N.eqb c NL).         (* .      *)
Definition not_rbrace (c : N) : bool := negb (N.eqb c 125). (* [^}]   *)
Definition not_rbracket (c : N) : bool := negb (N.eqb c 93). (* [^\]] *)
Definition digit (c : N) : bool := ((48 <=? c) && (c <=? 57))%N. (* [0-9] *)
Definition digit_dot (c : N) : bool := digit c || N.eqb c 46.    (* [0-9.] *)

(** ** parse_latex *)

Inductive layout := SingleColumn | TwoColumn.

Inductive media_kind := Image | Video.

Definition kind_name (k : media_kind) : text :=
  match k with Image => py "image" | Video => py "video" end.

(** The dictionaries that [parse_latex] builds, by their ["type"]. *)
Inductive element :=
| ELatex (txt : text)
| EManim (code : text)
| EPagebreak
| EMedia (typ : media_kind) (file : text) (width height scale : option text).

(** Pattern "(?m)^(?:%%\s*twocolumn|\\twocolumn|\\document\[.*twocolumn.*\])" *)
Definition layout_re : regex :=
  Bol @@ Alt (Lit (py "%%") @@ Star isspace @@ Lit (py "twocolumn"))
        (Alt (Lit (py "\twocolumn"))
             (Lit (py "\document[") @@ Star dot @@ Lit (py "twocolumn")
                @@ Star dot @@ Lit (py "]"))).

Definition detect_layout (tex : text) : layout :=
  match re_search layout_re tex with
  | Some _ => TwoColumn
  | None => SingleColumn
  end.

(** Pattern "\\begin\{manim\}([\s\S]*?)\\end\{manim\}" *)
Definition block_re : regex :=
  Lit (py "\begin{manim}") @@ Group 1 (StarLazy any_char) @@ Lit (py "\end{manim}").

(** Pattern "\\manim\{( [^}]* )\}", the group shown with spaces around it. *)
Definition inline_re : regex :=
  Lit (py "\manim{") @@ Group 1 (Star not_rbrace) @@ Lit (py "}").

(** Pattern "(\\newpage|\\breakpage)" *)
Definition break_re : regex :=
  Group 1 (Alt (Lit (py "\newpage")) (Lit (py "\breakpage"))).

(** Pattern "\\{typ}\[?( [^\]]* )\]?\{( [^}]+ )\}" once the f-string is expanded,
    the groups shown with spaces around them. *)
Definition media_re (typ : media_kind) : regex :=
  Lit (py "\" ++ kind_name typ) @@ Opt (Lit (py "[")) @@ Group 1 (Star not_rbracket)
    @@ Opt (Lit (py "]")) @@ Lit (py "{") @@ Group 2 (Plus not_rbrace) @@ Lit (py "}").

(** Pattern "key\s*=\s*([0-9]+%|[0-9]+px)" for the keys width and height. *)
Definition size_re (key : text) : regex :=
  Lit key @@ Star isspace @@ Lit (py "=") @@ Star isspace
    @@ Group 1 (Alt (Plus digit @@ Lit (py "%")) (Plus digit @@ Lit (py "px"))).

(** Pattern "scale\s*=\s*([0-9.]+)" *)
Definition scale_re : regex :=
  Lit (py "scale") @@ Star isspace @@ Lit (py "=") @@ Star isspace
    @@ Group 1 (Plus digit_dot).

(** First pass: the [\begin{manim}...\end{manim}] regions and the text
    between them, with [pos] tracking the end of the last region. *)
Fixpoint first_pass_loop (tex : text) (ms : list mtch) (pos : nat)
    (elements : list element) : nat * list element :=
  match ms with
  | [] => (pos, elements)
  | m :: ms' =>
      let before := strip (slice pos (m_start m) tex) in
      let elements := if truthy before then elements ++ [ELatex before] else elements in
      let elements := elements ++ [EManim (strip (group m 1))] in
      first_pass_loop tex ms' (m_end m) elements
  end.

Definition first_pass (tex : text) : list element :=
  let '(pos, elements) := first_pass_loop tex (re_finditer block_re tex) 0 [] in
  let after := strip (drop pos tex) in
  if truthy after then elements ++ [ELatex after] else elements.

(** [repl_inline]: appends to [expanded], replaces the match with [""]. *)
Definition repl_inline (m : mtch) (expanded : list element) : text * list element :=
  ([], expanded ++ [EManim (group m 1)]).

Definition search_group1 (r : regex) (opt : text) : option text :=
  match re_search r opt with
  | Some m => Some (group m 1)
  | None => None
  end.

Definition parse_media (m : mtch) (typ : media_kind) : element :=
  let opt := group m 1 in
  let path := group m 2 in
  let width := if truthy opt then search_group1 (size_re (py "width")) opt else None in
  let height := if truthy opt then search_group1 (size_re (py "height")) opt else None in
  let scale := if truthy opt then search_group1 scale_re opt else None in
  EMedia typ (strip path) width height scale.

(** The body of [for m in re.finditer(..., part)]: the matches were
    found in the text [part] had when the loop started. *)
Fixpoint media_loop (typ : media_kind) (ms : list mtch)
    (expanded : list element) (part : text) : list element * text :=
  match ms with
  | [] => (expanded, part)
  | m :: ms' =>
      media_loop typ ms' (expanded ++ [parse_media m typ]) (replace_empty (group m 0) part)
  end.

Definition media_pass (typ : media_kind) (st : list element * text) : list element * text :=
  media_loop typ (re_finditer (media_re typ) (snd st)) (fst st) (snd st).

Definition is_break (t : text) : bool :=
  text_eqb t (py "\newpage") || text_eqb t (py "\breakpage").

(** The body of [for part in parts]. *)
Definition expand_part (expanded : list element) (part : text) : list element :=
  if negb (truthy (strip part)) then expanded
  else if is_break (strip part) then expanded ++ [EPagebreak]
  else
    let '(expanded, part) := media_pass Video (media_pass Image (expanded, part)) in
    if truthy (strip part) then expanded ++ [ELatex (strip part)] else expanded.

(** The body of [for el in elements]. *)
Definition expand_element (expanded : list element) (el : element) : list element :=
  match el with
  | ELatex t =>
      let '(t, expanded) := re_sub inline_re repl_inline t expanded in
      fold_left expand_part (re_split break_re t) expanded
  | _ => expanded ++ [el]
  end.

Definition parse_latex (tex : text) : list element * layout :=
  let layout := detect_layout tex in
  let elements := first_pass tex in
  (fold_left expand_element elements [], layout).

(** ** render_latex_to_svg and wrap_latex_snippet: the document given to latex *)

(** Pattern "\\documentclass.*|\\usepackage.*|\\begin\{document\}|\\end\{document\}" *)
Definition clean_re : regex :=
  Alt (Lit (py "\documentclass") @@ Star dot)
      (Alt (Lit (py "\usepackage") @@ Star dot)
           (Alt (Lit (py "\begin{document}")) (Lit (py "\end{document}")))).

(** [re.sub(pattern, "", t)] *)
Definition re_delete (r : regex) (t : text) : text :=
  fst (re_sub r (fun _ (st : unit) => ([], st)) t tt).

(** [clean_code] in [render_latex_to_svg]. *)
Definition clean_code (tex_code : text) : text := re_delete clean_re tex_code.

(** [LATEX_TEMPLATE] before and after its [%s], as [%]-formatting
    leaves them (each [%%] is one [%]). *)
Definition LATEX_TEMPLATE_head : text := py "
\documentclass[preview,12pt]{standalone}

% --- Math packages ---
\usepackage{amsmath,amssymb,amsthm,mathtools}
\usepackage{bm}
\usepackage{physics}

% --- Fonts & typography ---
\usepackage{newtxtext,newtxmath}
\usepackage{microtype}
\linespread{1.1}

% --- Colors & styling ---
\usepackage{xcolor}
\definecolor{PandoraBlue}{HTML}{1E90FF}
\definecolor{PandoraGray}{HTML}{555555}
\definecolor{PandoraAccent}{HTML}{007ACC}

% --- Boxes and emphasis ---
\usepackage[most]{tcolorbox}
\tcbset{
  enhanced,
  colframe=PandoraAccent!80!black,
  colback=PandoraAccent!5!white,
  boxrule=0.8pt,
  arc=2pt,
  outer arc=2pt,
  left=6pt,right=6pt,top=4pt,bottom=4pt
}

% --- Headings ---
\usepackage{titlesec}
\titleformat{\section}{\large\bfseries\color{PandoraAccent}}{}{0em}{}
\titleformat{\subsection}{\normalsize\bfseries\color{PandoraBlue}}{}{0em}{}

% --- Custom boxes ---
\newtcolorbox{definitionbox}{colback=PandoraAccent!5,colframe=PandoraAccent!60!black,title=\textbf{Definition}}
\newtcolorbox{examplebox}{colback=PandoraBlue!5,colframe=PandoraBlue!70!black,title=\textbf{Example}}
\newtcolorbox{questionbox}{colback=PandoraGray!5,colframe=PandoraGray!60!black,title=\textbf{Question}}
\newtcolorbox{answerbox}{colback=green!5!white,colframe=green!60!black,title=\textbf{Answer}}

% --- Page layout ---
\setlength{\parskip}{4pt}
\setlength{\parindent}{0pt}

% --- Symbols & utilities ---
\usepackage{siunitx}
\usepackage{cancel}
\usepackage{hyperref}
\hypersetup{colorlinks=true,linkcolor=PandoraAccent,urlcolor=PandoraAccent}

\begin{document}
".

Definition LATEX_TEMPLATE_tail : text := py "
\end{document}
".

Definition wrap_latex_snippet (snippet : text) : text :=
  LATEX_TEMPLATE_head ++ strip snippet ++ LATEX_TEMPLATE_tail.

(** What [render_latex_to_svg] writes to temp.tex. *)
Definition temp_tex (tex_code : text) : text := wrap_latex_snippet (clean_code tex_code).

(** ** run_manim: the scene file *)

(** The line boundaries of [str.splitlines]. *)
Definition is_linebreak (c : N) : bool :=
  ((10 <=? c) && (c <=? 13) || (28 <=? c) && (c <=? 30)
   || (c =? 133) || (c =? 8232) || (c =? 8233))%N.

(** [t.splitlines()]: a carriage return followed by a line feed is one
    boundary; no empty last line after a final boundary. *)
Fixpoint splitlines_from (t cur : text) : list text :=
  match t with
  | [] => match cur with [] => [] | _ :: _ => [rev cur] end
  | c :: t' =>
      if is_linebreak c then
        rev cur ::
          match t' with
          | c' :: t'' =>
              if N.eqb c 13 && N.eqb c' 10 then splitlines_from t'' []
              else splitlines_from t' []
          | [] => splitlines_from t' []
          end
      else splitlines_from t' (c :: cur)
  end.

Definition splitlines (t : text) : list text := splitlines_from t [].

(** [sep.join(ls)] *)
Fixpoint join (sep : text) (ls : list text) : text :=
  match ls with
  | [] => []
  | [l] => l
  | l :: ls' => l ++ sep ++ join sep ls'
  end.

Definition indent8 : text := py "        ".

Definition class_name (idx : nat) : text := py "PandoraScene_" ++ str_of_nat idx.

Definition indented_code (code : text) : text :=
  join [NL] (map (app indent8) (splitlines (strip code))).

Definition scene_code (idx : nat) (code : text) : text :=
  py "from manim import *" ++ [NL; NL]
  ++ py "class " ++ class_name idx ++ py "(Scene):" ++ [NL]
  ++ py "    def construct(self):" ++ [NL]
  ++ py "        self.camera.background_color = " ++ [34%N] ++ py "WHITE" ++ [34%N] ++ [NL]
  ++ indented_code code ++ [NL].

(** The scene file under the temporary directory, and the name that
    manim is told to give the clip. *)
Definition scene_file (idx : nat) : text :=
  py "scene_" ++ str_of_nat idx ++ py "/scene_" ++ str_of_nat idx ++ py ".py".

Definition scene_output (idx : nat) : text := py "scene_" ++ str_of_nat idx ++ py ".mp4".

(** ** main: the dispatch loop

    The world outside the program, as the program meets it.  Reading
    the input, testing a media path and copying a media file each have
    their own outcome, because [pathlib] and [shutil] treat one string
    differently ([Path(p)] normalises it, [shutil.copy] opens it as it
    is) and because a path that exists need not be a file that can be
    read: it may be a directory.  A converter is given a file that is a
    function of the block's text ([temp_tex]) or of the index and the
    code ([scene_code]), so its outcome is taken as a function of
    these; it is assumed to be installed and to end with an exit
    status.  What a converter leaves in its working directory is given
    by name within that directory.  The temporary directory is assumed
    writable and the standard output to accept what [main] prints. *)

Inductive exn :=
| CalledProcessError (stderr : text)
| FileNotFoundError
| IsADirectoryError
| PermissionError
| UnicodeDecodeError
| IndexError
| ValueError
| OtherError (name : text).

Inductive result (A : Type) :=
| Ok (a : A)
| Raise (e : exn).
Arguments Ok {A} a.
Arguments Raise {A} e.

Definition bind {A B : Type} (r : result A) (f : A -> result B) : result B :=
  match r with
  | Ok a => f a
  | Raise e => Raise e
  end.

Notation "x <- r ;; k" := (bind r (fun x => k))
  (at level 100, r at next level, k at level 200, right associativity).

Record World := {
  read_text : text -> result text;    (* Path(p).read_text(encoding="utf-8") *)
  path_exists : text -> bool;         (* Path(p).exists() *)
  copy_source : text -> result text;  (* what shutil.copy(p, dest) reads from p *)
  latex_run : text -> Z * text;       (* exit status and stderr of latex on a block *)
  latex_leaves : text -> gmap text text;  (* the files that run leaves beside temp.tex *)
  dvisvgm_run : text -> Z * text;     (* exit status and stderr of dvisvgm on its dvi *)
  dvisvgm_svg : text -> option text;  (* the file at outpath once dvisvgm has run *)
  manim_run : nat -> text -> Z * text; (* exit status and stderr of manim on scene idx *)
  manim_leaves : nat -> text -> gmap text text; (* the files that run leaves in the scene directory *)
  manim_mp4 : nat -> text -> option text; (* first *.mp4 under the scene directory *)
  archive_write : text -> option exn  (* the exception of zipfile.ZipFile(outfile, "w"), if any *)
}.

(** The content of a media source that exists and that [shutil.copy]
    can read. *)
Definition disk_read (w : World) (p : text) : option text :=
  if path_exists w p then
    match copy_source w p with
    | Ok content => Some content
    | Raise _ => None
    end
  else None.

(** The entries of the manifest's ["sequence"]. *)
Inductive entry :=
| SPagebreak
| SVideo (file : text)
| SError (msg : text)
| SMedia (typ : media_kind) (file : text) (width height scale : option text)
| SLatex (file : text).

(** [subprocess.run(..., check=True)] *)
Definition check_run (r : Z * text) : result unit :=
  if Z.eqb (fst r) 0 then Ok tt else Raise (CalledProcessError (snd r)).

(** The regular files of the temporary directory, by their path
    relative to it, are a map from path to content.  [left_in dir files
    tmp] is the directory once a converter working in [dir] has left
    [files] there. *)
Definition left_in (dir : text) (files tmp : gmap text text) : gmap text text :=
  kmap (app dir) files ∪ tmp.

(** [shutil.copy(src, tmpdir / rel)] *)
Definition shutil_copy (w : World) (src rel : text) (tmp : gmap text text)
    : result (gmap text text) :=
  match copy_source w src with
  | Ok content => Ok (<[rel := content]> tmp)
  | Raise e => Raise e
  end.

(** [render_latex_to_svg] for an [outpath] in [latex/]: the directory
    after the call, and whether the call returned or raised. *)
Definition render_latex_to_svg (w : World) (tex_code rel : text)
    (tmp : gmap text text) : gmap text text * result unit :=
  let tmp := <[py "latex/temp.tex" := temp_tex tex_code]> tmp in
  let tmp := left_in (py "latex/") (latex_leaves w tex_code) tmp in
  match check_run (latex_run w tex_code) with
  | Raise e => (tmp, Raise e)
  | Ok _ =>
      (match dvisvgm_svg w tex_code with
       | Some svg => <[rel := svg]> tmp
       | None => delete rel tmp
       end,
       check_run (dvisvgm_run w tex_code))
  end.

Definition scene_dir (idx : nat) : text := py "scene_" ++ str_of_nat idx ++ py "/".

(** What [run_manim] returns: the rendered clip, or [None] when manim
    fails (the exception is caught inside) or leaves no mp4. *)
Definition manim_clip (w : World) (idx : nat) (code : text) : option text :=
  match check_run (manim_run w idx code) with
  | Ok _ => manim_mp4 w idx code
  | Raise _ => None
  end.

(** [run_manim]: the directory after the call, and the clip. *)
Definition run_manim (w : World) (code : text) (idx : nat) (tmp : gmap text text)
    : gmap text text * option text :=
  let tmp := <[scene_file idx := scene_code idx code]> tmp in
  let tmp := left_in (scene_dir idx) (manim_leaves w idx code) tmp in
  (tmp, manim_clip w idx code).

Definition media_rel (typ : media_kind) (file : text) : text :=
  kind_name typ ++ py "s/" ++ path_name file.

Definition latex_rel (i : nat) : text := py "latex/block_" ++ str_of_nat i ++ py ".svg".
Definition scene_rel (i : nat) : text := py "videos/scene_" ++ str_of_nat i ++ py ".mp4".
Definition manim_error (i : nat) : text := py "Manim render failed snippet " ++ str_of_nat i.
Definition latex_error (i : nat) : text := py "LaTeX render failed for block " ++ str_of_nat i.

(** The body of [for i, el in enumerate(elements)]. *)
Definition dispatch_step (w : World) (i : nat) (el : element)
    (st : list entry * gmap text text) : result (list entry * gmap text text) :=
  let '(sequence, tmp) := st in
  match el with
  | EPagebreak => Ok (sequence ++ [SPagebreak], tmp)
  | EManim code =>
      let '(tmp, vpath) := run_manim w code i tmp in
      match vpath with
      | Some clip => Ok (sequence ++ [SVideo (scene_rel i)], <[scene_rel i := clip]> tmp)
      | None => Ok (sequence ++ [SError (manim_error i)], tmp)
      end
  | EMedia typ file width height scale =>
      let rel := media_rel typ file in
      tmp <- (if path_exists w file then shutil_copy w file rel tmp else Ok tmp) ;;
      Ok (sequence ++ [SMedia typ rel width height scale], tmp)
  | ELatex txt =>
      let '(tmp, r) := render_latex_to_svg w txt (latex_rel i) tmp in
      match r with
      | Ok _ => Ok (sequence ++ [SLatex (latex_rel i)], tmp)
      | Raise (CalledProcessError _) => Ok (sequence ++ [SError (latex_error i)], tmp)
      | Raise e => Raise e
      end
  end.

Fixpoint dispatch_loop (w : World) (i : nat) (elements : list element)
    (st : list entry * gmap text text) : result (list entry * gmap text text) :=
  match elements with
  | [] => Ok st
  | el :: elements' =>
      st' <- dispatch_step w i el st ;;
      dispatch_loop w (S i) elements' st'
  end.

Definition dispatch (w : World) (elements : list element)
    : result (list entry * gmap text text) :=
  dispatch_loop w 0 elements ([], ∅).

(** ** main: arguments and bundle *)

Record manifest := Manifest { mf_layout : layout; mf_sequence : list entry }.

Inductive outcome :=
| Usage                                   (* the usage line is printed, main returns *)
| Crashed (e : exn)                       (* an exception leaves main *)
| Built (outfile : text) (meta : manifest) (bundle : gmap text text)
                                          (* the archive is written: meta.json and the files *).

(** [argv.index(x)] *)
Fixpoint list_index (x : text) (l : list text) : option nat :=
  match l with
  | [] => None
  | y :: l' => if text_eqb y x then Some 0 else option_map S (list_index x l')
  end.

(** The part of [main] between [infile.read_text] and the archive:
    segmentation, dispatch, and the manifest written to [meta.json]. *)
Definition build (w : World) (tex : text) : result (manifest * gmap text text) :=
  let '(elements, layout) := parse_latex tex in
  st <- dispatch w elements ;;
  Ok (Manifest layout (fst st), snd st).

Definition main (w : World) (argv : list text) : outcome :=
  if length argv <? 3 then Usage
  else
    match list_index (py "-o") argv with
    | None => Crashed ValueError
    | Some j =>
        match nth_error argv (j + 1) with
        | None => Crashed IndexError
        | Some outfile =>
            match read_text w (nth 1 argv []) with
            | Raise e => Crashed e
            | Ok tex =>
                match build w tex with
                | Raise e => Crashed e
                | Ok (meta, bundle) =>
                    match archive_write w outfile with
                    | Some e => Crashed e
                    | None => Built outfile meta bundle
                    end
                end
            end
        end
    end.
(** ** Vocabulary of the properties *)

(** The entry that the loop body appends for element [el] at index [i]. *)
Definition entry_of (w : World) (i : nat) (el : element) : entry :=
  match el with
  | EPagebreak => SPagebreak
  | EManim code =>
      match manim_clip w i code with
      | Some _ => SVideo (scene_rel i)
      | None => SError (manim_error i)
      end
  | EMedia typ file width height scale =>
      SMedia typ (media_rel typ file) width height scale
  | ELatex txt =>
      if Z.eqb (fst (latex_run w txt)) 0 && Z.eqb (fst (dvisvgm_run w txt)) 0
      then SLatex (latex_rel i) else SError (latex_error i)
  end.

(** The converter of element [el] at index [i] exits with a non-zero
    status. *)
Definition converter_fails (w : World) (i : nat) (el : element) : Prop :=
  match el with
  | ELatex txt => fst (latex_run w txt) <> 0%Z \/ fst (dvisvgm_run w txt) <> 0%Z
  | EManim code => fst (manim_run w i code) <> 0%Z
  | _ => False
  end.

(** Two worlds give the converter of [el] at index [i] the same outcome. *)
Definition same_outcome (w w' : World) (i : nat) (el : element) : Prop :=
  match el with
  | ELatex t => latex_run w t = latex_run w' t /\ dvisvgm_run w t = dvisvgm_run w' t
  | EManim c => manim_clip w i c = manim_clip w' i c
  | _ => True
  end.

(** The media file of element [el], if it exists, can be copied. *)
Definition copyable (w : World) (el : element) : Prop :=
  match el with
  | EMedia _ file _ _ _ =>
      path_exists w file = true -> exists content, copy_source w file = Ok content
  | _ => True
  end.

(** The media file of element [el] exists and its copy raises [e]. *)
Definition copy_raises (w : World) (el : element) (e : exn) : Prop :=
  match el with
  | EMedia _ file _ _ _ => path_exists w file = true /\ copy_source w file = Raise e
  | _ => False
  end.

(** [name] is the last component of the path [file]: the path itself,
    or what follows its last slash. *)
Definition basename_of (file name : text) : Prop :=
  (file = name \/ exists dir, file = dir ++ py "/" ++ name)
  /\ (47%N ∉ name) /\ name <> [] /\ name <> py ".".

(** The directory of the bundle that holds the copies of a media kind. *)
Definition media_dir (typ : media_kind) : text :=
  match typ with Image => py "images/" | Video => py "videos/" end.


(** [m] occurs in [t] as a contiguous piece. *)
Definition occurs (m t : text) : Prop := exists pre post, t = pre ++ m ++ post.

(** ** What a pattern matches

    The declarative reading of a pattern, against which the matcher is
    proved sound and complete: [rm r a b] holds when [r] can take the
    matcher from cursor [a] to cursor [b]. *)

Definition last_or (prev : option N) (w : text) : option N :=
  match last w with
  | Some c => Some c
  | None => prev
  end.

(** Cursor [b] is cursor [a] moved over the word [w]. *)
Definition consumes (w : text) (a b : cursor) : Prop :=
  c_rest a = w ++ c_rest b
  /\ c_pos b = c_pos a + length w
  /\ c_prev b = last_or (c_prev a) w
  /\ c_caps b = c_caps a.

(** The same without the captured groups, which a group changes. *)
Definition moves (w : text) (a b : cursor) : Prop :=
  c_rest a = w ++ c_rest b
  /\ c_pos b = c_pos a + length w
  /\ c_prev b = last_or (c_prev a) w.

Definition all_in (p : N -> bool) (w : text) : Prop := Forall (fun c => p c = true) w.

Fixpoint rm (r : regex) (a b : cursor) : Prop :=
  match r with
  | Lit w => consumes w a b
  | Cls p => exists c, p c = true /\ consumes [c] a b
  | Bol => (c_prev a = None \/ c_prev a = Some NL) /\ b = a
  | Seq r1 r2 => exists m, rm r1 a m /\ rm r2 m b
  | Alt r1 r2 => rm r1 a b \/ rm r2 a b
  | Opt r1 => rm r1 a b \/ b = a
  | Star p => exists w, all_in p w /\ consumes w a b
  | StarLazy p => exists w, all_in p w /\ consumes w a b
  | Plus p => exists c w, p c = true /\ all_in p w /\ consumes (c :: w) a b
  | Group n r1 =>
      exists b0, rm r1 a b0 /\ b = set_cap n (take (c_pos b0 - c_pos a) (c_rest a)) b0
  end.

(** How the matches of a left-to-right scan lie in the subject [s]
    that starts at index [p]: each match follows a gap the scan stepped
    over, and the scan resumes where the match ends. *)
Inductive chain (r : regex) : nat -> text -> list mtch -> Prop :=
| chain_nil p s : chain r p s []
| chain_cons p s gap prev m s' ms :
    match_at r prev (p + length gap) (m_text m ++ s') = Some m ->
    s = gap ++ m_text m ++ s' ->
    chain r (p + length gap + length (m_text m)) s' ms ->
    chain r p s (m :: ms).

(** The word ends in a closing brace. *)
Definition ends_rbrace (w : text) : Prop := exists w0, w = w0 ++ [125%N].

(** A pattern whose last piece is a literal closing brace matches words
    that end in one. *)
Definition rm_ends (r : regex) : Prop :=
  forall a b, rm r a b -> exists w, moves w a b /\ ends_rbrace w.

(** Every word that the pattern matches starts with a backslash. *)
Definition starts_bs (r : regex) : Prop :=
  forall a b, rm r a b -> exists s', c_rest a = 92%N :: s'.

Definition is_manim (e : element) : Prop :=
  match e with EManim _ => True | _ => False end.

(** The pieces that the first pass cuts the source into: the text
    between two animation regions, and a region with the body between
    its delimiters. *)
Inductive segment :=
| TextSeg (raw : text)
| BlockSeg (body : text).

Definition seg_raw (sg : segment) : text :=
  match sg with
  | TextSeg raw => raw
  | BlockSeg body => py "\begin{manim}" ++ body ++ py "\end{manim}"
  end.

Definition seg_elements (sg : segment) : list element :=
  match sg with
  | TextSeg raw => if truthy (strip raw) then [ELatex (strip raw)] else []
  | BlockSeg body => [EManim (strip body)]
  end.

(** What an element carries from the source. *)
Definition payload (e : element) : text :=
  match e with
  | ELatex t => t
  | EManim code => code
  | EPagebreak => []
  | EMedia _ file _ _ _ => file
  end.

(** The elements can be given source spans [a, b) that hold their
    payloads, follow one another left to right and do not overlap. *)
Definition in_source_order (tex : text) (els : list element) : Prop :=
  exists spans : list (nat * nat),
    Forall2 (fun e sp => fst sp <= snd sp /\ snd sp <= length tex
                         /\ occurs (payload e) (slice (fst sp) (snd sp) tex)) els spans
    /\ StronglySorted (fun sp1 sp2 => snd sp1 <= fst sp2) spans.

(** The openings of the inline directives: the command with the brace
    of its argument, or with the bracket of its attribute list. *)
Definition opener (o : text) : Prop :=
  o = py "\manim{" \/ o = py "\image{" \/ o = py "\video{"
  \/ o = py "\image[" \/ o = py "\video[".

(** [t] holds the opening [o] with no closing brace anywhere after it. *)
Definition keeps (o t : text) : Prop :=
  exists a b, t = a ++ o ++ b /\ 125%N ∉ b.

(** The comment-style marker and the command, the two spellings of the
    two-column marker that are not in doubt. *)
Definition plain_marker (m : text) : Prop :=
  (exists ws, all_in isspace ws /\ m = py "%%" ++ ws ++ py "twocolumn")
  \/ m = py "\twocolumn".

(** All that [layout_re] accepts after its line anchor: the two above
    and its third alternative, as the pattern spells it. *)
Definition marker (m : text) : Prop :=
  plain_marker m
  \/ (exists x y, all_in dot x /\ all_in dot y
                  /\ m = py "\document[" ++ x ++ py "twocolumn" ++ y ++ py "]").

(** [pre] ends where a line starts: it is empty or ends in a newline. *)
Definition line_start (pre : text) : Prop :=
  pre = [] \/ exists pre', pre = pre' ++ [NL].

(** [m] stands at the start of a line of [tex]. *)
Definition begins_line (m tex : text) : Prop :=
  exists pre post, tex = pre ++ m ++ post /\ line_start pre.

(** The directive of the worked example. *)
Definition image_directive : text := py "\image[width=50%]{foo.png}".

(** ** Vocabulary of the further properties *)

(** The text element of a stretch of text, if it is not blank. *)
Definition text_block (t : text) : list element :=
  if truthy (strip t) then [ELatex (strip t)] else [].

(** The two page-break commands. *)
Definition page_break (brk : text) : Prop :=
  brk = py "\newpage" \/ brk = py "\breakpage".

(** The match object of an animation region with the given body,
    found at index [p]. *)
Definition region_matched (p : nat) (body : text) : mtch :=
  Mtch p (p + length (py "\begin{manim}" ++ body ++ py "\end{manim}"))
       (py "\begin{manim}" ++ body ++ py "\end{manim}") [(1, body)].

(** A recorded width or height: digits followed by a percent sign or
    by px. *)
Definition size_value (v : text) : Prop :=
  exists d ds, all_in digit (d :: ds) /\ (v = d :: ds ++ py "%" \/ v = d :: ds ++ py "px").

(** A recorded scale: a non-empty run of digits and dots. *)
Definition scale_value (v : text) : Prop := v <> [] /\ all_in digit_dot v.

Definition opt_holds (Q : text -> Prop) (o : option text) : Prop :=
  match o with Some v => Q v | None => True end.

(** What holds of every text block of the result. *)
Definition text_invariant (el : element) : Prop :=
  match el with
  | ELatex t => t <> [] /\ strip t = t
  | _ => True
  end.

(** What holds of every media element of the result. *)
Definition media_invariant (el : element) : Prop :=
  match el with
  | EMedia _ file width height scale =>
      strip file = file /\ (125%N ∉ file)
      /\ opt_holds size_value width /\ opt_holds size_value height
      /\ opt_holds scale_value scale
  | _ => True
  end.

(** The file that the loop body copies into videos/ or images/ for
    element [el] at index [i], with its content, if it copies one. *)
Definition copied (w : World) (i : nat) (el : element) : option (text * text) :=
  match el with
  | EManim code =>
      match manim_clip w i code with
      | Some clip => Some (scene_rel i, clip)
      | None => None
      end
  | EMedia typ file _ _ _ =>
      match disk_read w file with
      | Some content => Some (media_rel typ file, content)
      | None => None
      end
  | _ => None
  end.

Definition store (o : option (text * text)) (tmp : gmap text text) : gmap text text :=
  match o with
  | Some (rel, content) => <[rel := content]> tmp
  | None => tmp
  end.

(** The copies that a completed run over [els] from index [i] has
    made, on top of [tmp]. *)
Fixpoint copies_after (w : World) (i : nat) (els : list element)
    (tmp : gmap text text) : gmap text text :=
  match els with
  | [] => tmp
  | el :: els' => copies_after w (S i) els' (store (copied w i el) tmp)
  end.

(** Element [el] at index [i] copies a file to [rel]. *)
Definition copies_to (w : World) (i : nat) (el : element) (rel : text) : Prop :=
  exists content, copied w i el = Some (rel, content).

(** A path in one of the two directories of copies, videos/ and
    images/. *)
Definition copy_path (rel : text) : Prop := exists typ name, rel = media_dir typ ++ name.

(** A line holds no line boundary. *)
Definition one_line (l : text) : Prop := Forall (fun c => is_linebreak c = false) l.

(** A run of the class [p] ends where the subject ends or a character
    outside the class stands. *)
Definition run_ends (p : N -> bool) (s : text) : Prop :=
  s = [] \/ exists c s', s = c :: s' /\ p c = false.

(** The two preamble commands that [clean_re] deletes with the rest of
    their line. *)
Definition preamble_command (key : text) : Prop :=
  key = py "\documentclass" \/ key = py "\usepackage".

(** The four commands that [clean_re] looks for. *)
Definition cleaned_command (key : text) : Prop :=
  preamble_command key \/ key = py "\begin{document}" \/ key = py "\end{document}".

(** What [media_re] asks for after its option group: the optional
    closing bracket and the braced path. *)
Definition media_tail : regex :=
  Opt (Lit (py "]")) @@ Lit (py "{") @@ Group 2 (Plus not_rbrace) @@ Lit (py "}").

(** The match object of a media directive whose option group took
    [g] and whose path is [f], found at index [p]. *)
Definition media_matched (typ : media_kind) (p : nat) (g f : text) : mtch :=
  Mtch p (p + length ((py "\" ++ kind_name typ) ++ g ++ py "{" ++ f ++ py "}"))
       ((py "\" ++ kind_name typ) ++ g ++ py "{" ++ f ++ py "}") [(2, f); (1, g)].


(** ** Sample worlds *)

(** No file exists, latex fails on every block. *)
Definition failing_world : World :=
  {| read_text := fun _ => Raise FileNotFoundError;
     path_exists := fun _ => false;
     copy_source := fun _ => Raise FileNotFoundError;
     latex_run := fun _ => (1%Z, py "! Undefined control sequence.");
     latex_leaves := fun _ => {[py "temp.log" := py "! Undefined control sequence."]};
     dvisvgm_run := fun _ => (0%Z, []);
     dvisvgm_svg := fun _ => None;
     manim_run := fun _ _ => (0%Z, []);
     manim_leaves := fun _ _ => ∅;
     manim_mp4 := fun _ _ => None;
     archive_write := fun _ => None |}.

(** Three pictures on the disk, two of them with one basename; the
    converters succeed. *)
Definition two_dirs_files (p : text) : option text :=
  if text_eqb p (py "a/fig.png") then Some (py "first")
  else if text_eqb p (py "b/fig.png") then Some (py "second")
  else if text_eqb p (py "foo.png") then Some (py "PNG")
  else None.

Definition two_dirs_world : World :=
  {| read_text := fun p =>
       match two_dirs_files p with Some c => Ok c | None => Raise FileNotFoundError end;
     path_exists := fun p =>
       match two_dirs_files p with Some _ => true | None => false end;
     copy_source := fun p =>
       match two_dirs_files p with Some c => Ok c | None => Raise FileNotFoundError end;
     latex_run := fun _ => (0%Z, []);
     latex_leaves := fun _ => {[py "temp.dvi" := py "dvi"]};
     dvisvgm_run := fun _ => (0%Z, []);
     dvisvgm_svg := fun _ => Some (py "<svg/>");
     manim_run := fun _ _ => (0%Z, []);
     manim_leaves := fun _ _ => ∅;
     manim_mp4 := fun _ _ => None;
     archive_write := fun _ => None |}.

Definition two_figs : list element :=
  [EMedia Image (py "a/fig.png") None None None; EPagebreak;
   EMedia Image (py "b/fig.png") None None None].



(** A world in which manim renders every scene and the disk holds one
    video whose name is that of the first scene's clip. *)
Definition clip_world : World :=
  {| read_text := fun _ => Raise FileNotFoundError;
     path_exists := fun p => text_eqb p (py "my/scene_0.mp4");
     copy_source := fun p =>
       if text_eqb p (py "my/scene_0.mp4") then Ok (py "mine") else Raise FileNotFoundError;
     latex_run := fun _ => (0%Z, []);
     latex_leaves := fun _ => ∅;
     dvisvgm_run := fun _ => (0%Z, []);
     dvisvgm_svg := fun _ => Some (py "<svg/>");
     manim_run := fun _ _ => (0%Z, []);
     manim_leaves := fun _ _ => {[py "media/videos/scene/480p15/scene.mp4" := py "clip"]};
     manim_mp4 := fun _ _ => Some (py "clip");
     archive_write := fun _ => None |}.

(** A world with two notes, one of which names the current directory
    as an image; the directory missing/ does not exist. *)
Definition dir_world : World :=
  {| read_text := fun p =>
       if text_eqb p (py "notes.tex") then Ok (py "\image{.}")
       else if text_eqb p (py "plain.tex") then Ok (py "Hello")
       else if text_eqb p (py ".") then Raise IsADirectoryError
       else Raise FileNotFoundError;
     path_exists := fun p =>
       text_eqb p (py ".") || text_eqb p (py "notes.tex") || text_eqb p (py "plain.tex");
     copy_source := fun p =>
       if text_eqb p (py "notes.tex") then Ok (py "\image{.}")
       else if text_eqb p (py "plain.tex") then Ok (py "Hello")
       else if text_eqb p (py ".") then Raise IsADirectoryError
       else Raise FileNotFoundError;
     latex_run := fun _ => (0%Z, []);
     latex_leaves := fun _ => ∅;
     dvisvgm_run := fun _ => (0%Z, []);
     dvisvgm_svg := fun _ => Some (py "<svg/>");
     manim_run := fun _ _ => (0%Z, []);
     manim_leaves := fun _ _ => ∅;
     manim_mp4 := fun _ _ => None;
     archive_write := fun p =>
       if text_eqb p (py "missing/out.pandora") then Some FileNotFoundError else None |}.
(** * Properties *)

(** Closes a goal [c ∉ t] or [c ∈ t -> False] for closed [c] and [t]. *)
Ltac not_in_text :=
  let H := fresh "H" in
  intros H%list_elem_of_In; vm_compute in H;
  repeat (destruct H as [H|H]; [discriminate H|]); destruct H.

(** Case analysis on a small index into closed texts. *)
Ltac small_index k H :=
  destruct k as [|[|[|[|[|[|[|[|[|[|k]]]]]]]]]];
  vm_compute in H; try discriminate H; try (simpl in *; lia).

(** ** Texts *)

Lemma text_eqb_eq (a b : text) : text_eqb a b = true <-> a = b.
Proof.
  revert b. induction a as [|x a IH]; intros [|y b]; simpl; try done.
  rewrite andb_true_iff, N.eqb_eq, IH. split; [by intros [-> ->]|by intros [= -> ->]].
Qed.

Lemma starts_with_spec (w t : text) :
  starts_with w t = true <-> exists t', t = w ++ t'.
Proof.
  revert t. induction w as [|x w IH]; intros t; simpl.
  - split; [eauto|done].
  - destruct t as [|y t]; [split; [done|by intros [? ?]]|].
    rewrite andb_true_iff, N.eqb_eq, IH. split.
    + intros [-> [t' ->]]. eauto.
    + intros [t' [= -> ->]]. eauto.
Qed.

Lemma app_eq_len_le {A} (l1 l2 k1 k2 : list A) :
  l1 ++ l2 = k1 ++ k2 -> length l1 <= length k1 ->
  exists k, k1 = l1 ++ k /\ l2 = k ++ k2.
Proof.
  intros Heq Hlen. destruct (app_eq_inv _ _ _ _ Heq) as [(k & -> & ->)|(k & -> & ->)].
  - rewrite length_app in Hlen. destruct k; [|simpl in Hlen; lia].
    exists []. by rewrite !app_nil_r.
  - by exists k.
Qed.

(** [lstrip] removes a prefix of spaces and stops at the first
    character that is not one. *)
Lemma lstrip_keep (a u : text) (c : N) :
  isspace c = false ->
  exists ws a', a = ws ++ a' /\ lstrip (a ++ c :: u) = a' ++ c :: u.
Proof.
  intros Hc. induction a as [|x a IH]; simpl.
  - rewrite Hc. by exists [], [].
  - destruct (isspace x).
    + destruct IH as (ws & a' & -> & ->). by exists (x :: ws), a'.
    + by exists [], (x :: a).
Qed.

Lemma rstrip_keep (a b : text) (c : N) :
  isspace c = false ->
  exists b' ws, b = b' ++ ws /\ rstrip (a ++ c :: b) = a ++ c :: b'.
Proof.
  intros Hc. unfold rstrip. rewrite rev_app_distr. simpl. rewrite <- app_assoc. simpl.
  destruct (lstrip_keep (rev b) (rev a) c Hc) as (ws & b' & Hb & ->).
  exists (rev b'), (rev ws). split.
  - rewrite <- rev_app_distr, <- Hb. by rewrite rev_involutive.
  - rewrite rev_app_distr. simpl. rewrite rev_involutive, <- app_assoc. done.
Qed.

Lemma strip_keep (a mid b : text) (c1 c2 : N) :
  isspace c1 = false -> isspace c2 = false ->
  exists ws1 a' b' ws2, a = ws1 ++ a' /\ b = b' ++ ws2
    /\ strip (a ++ c1 :: mid ++ c2 :: b) = a' ++ c1 :: mid ++ c2 :: b'.
Proof.
  intros H1 H2. unfold strip.
  destruct (lstrip_keep a (mid ++ c2 :: b) c1 H1) as (ws1 & a' & Ha & ->).
  replace (a' ++ c1 :: mid ++ c2 :: b) with ((a' ++ c1 :: mid) ++ c2 :: b)
    by (by rewrite <- app_assoc).
  destruct (rstrip_keep (a' ++ c1 :: mid) b c2 H2) as (b' & ws & Hb & ->).
  exists ws1, a', b', ws. split_and!; [done|done|]. by rewrite <- app_assoc.
Qed.

(** Removing the occurrences of [old] leaves alone a tail in which
    [old] cannot end. *)
Section RemoveOcc.
Variable old : text.
Variable x : N.
Variable old0 : text.
Hypothesis old_last : old = old0 ++ [x].

Lemma starts_with_tail (a u : text) :
  x ∉ u -> starts_with old (a ++ u) = true -> length old <= length a.
Proof.
  intros Hu (t' & Heq)%starts_with_spec.
  destruct (Nat.le_gt_cases (length old) (length a)) as [|Hlt]; [done|].
  exfalso. symmetry in Heq.
  destruct (app_eq_len_le a u old t' (eq_sym Heq)) as (k & Hold & ->); [lia|].
  apply Hu. rewrite old_last in Hold.
  destruct k as [|y k] using rev_ind.
  - rewrite app_nil_r in Hold. rewrite <- Hold, length_app in Hlt. simpl in Hlt.
    rewrite old_last, length_app in Hlt. simpl in Hlt. lia.
  - rewrite app_assoc in Hold. apply app_inj_tail in Hold as [_ <-].
    rewrite <- app_assoc. set_solver.
Qed.

Lemma remove_occ_tail (a u : text) : forall skip,
  x ∉ u -> skip <= length a ->
  exists a', remove_occ old (a ++ u) skip = a' ++ u.
Proof.
  intros skip Hu. revert skip. induction a as [|c a IH]; intros skip Hskip.
  - simpl in Hskip. assert (skip = 0) as -> by lia. exists []. simpl.
    clear Hskip. induction u as [|c u IHu]; [done|].
    cbn [remove_occ].
    destruct (starts_with old (c :: u)) eqn:Hsw.
    + apply (starts_with_tail [] (c :: u) Hu) in Hsw.
      rewrite old_last, length_app in Hsw. simpl in Hsw. lia.
    + rewrite IHu; [done|set_solver].
  - cbn [app remove_occ]. destruct skip as [|k].
    + destruct (starts_with old (c :: a ++ u)) eqn:Hsw.
      * apply (starts_with_tail (c :: a) u Hu) in Hsw. simpl in Hsw.
        apply IH. lia.
      * destruct (IH 0) as [a' ->]; [lia|]. by exists (c :: a').
    + apply IH. simpl in Hskip. lia.
Qed.

Lemma replace_empty_tail (a u : text) :
  x ∉ u -> exists a', replace_empty old (a ++ u) = a' ++ u.
Proof.
  intros Hu. pose proof (remove_occ_tail a u 0 Hu ltac:(lia)) as H.
  unfold replace_empty. revert H. rewrite old_last. by destruct old0.
Qed.
End RemoveOcc.

(** ** The matcher against the declarative reading *)

Lemma consumes_nil (a : cursor) : consumes [] a a.
Proof. unfold consumes, last_or. simpl. split_and!; try done; lia. Qed.

Lemma last_or_app (prev : option N) (w1 w2 : text) :
  last_or (last_or prev w1) w2 = last_or prev (w1 ++ w2).
Proof.
  unfold last_or. destruct w2 as [|c w2] using rev_ind.
  - by rewrite app_nil_r.
  - by rewrite app_assoc, !last_snoc.
Qed.

Lemma consumes_app (w1 w2 : text) (a m b : cursor) :
  consumes w1 a m -> consumes w2 m b -> consumes (w1 ++ w2) a b.
Proof.
  intros (Hr1 & Hp1 & Hv1 & Hc1) (Hr2 & Hp2 & Hv2 & Hc2). unfold consumes.
  rewrite Hr1, Hr2, Hp2, Hp1, Hv2, Hv1, Hc2, Hc1, last_or_app, length_app, <- app_assoc.
  split_and!; try done; lia.
Qed.

Lemma consumes_step (c : N) (s' : text) (a : cursor) :
  c_rest a = c :: s' -> consumes [c] a (step c s' a).
Proof. intros H. unfold consumes, step, last_or. simpl. rewrite H. split_and!; try done; lia. Qed.

Lemma consumes_inj (w : text) (a b b' : cursor) :
  consumes w a b -> consumes w a b' -> b = b'.
Proof.
  intros (Hr1 & Hp1 & Hv1 & Hc1) (Hr2 & Hp2 & Hv2 & Hc2).
  destruct b, b'; simpl in *. rewrite Hr1 in Hr2. apply app_inv_head in Hr2.
  congruence.
Qed.

Lemma consumes_nil_inv (a b : cursor) : consumes [] a b -> b = a.
Proof. intros H. symmetry. eapply consumes_inj; [apply consumes_nil|exact H]. Qed.

Lemma consumes_cons_inv (c : N) (w : text) (a b : cursor) :
  consumes (c :: w) a b ->
  exists s', c_rest a = c :: s' /\ consumes w (step c s' a) b.
Proof.
  intros (Hr & Hp & Hv & Hc). exists (w ++ c_rest b). split; [done|].
  unfold consumes, step. simpl in *. split_and!; [done|lia| |done].
  rewrite Hv. change (c :: w) with ([c] ++ w). by rewrite <- last_or_app.
Qed.

Lemma lit_sound (w : text) : forall a b, lit w a = Some b -> consumes w a b.
Proof.
  induction w as [|x w IH]; intros a b; simpl.
  - intros [= <-]. apply consumes_nil.
  - destruct (c_rest a) as [|y s'] eqn:Hrest; [done|].
    destruct (N.eqb_spec x y) as [->|]; [|done].
    intros H%IH. change (y :: w) with ([y] ++ w).
    eapply consumes_app; [|exact H]. by apply consumes_step.
Qed.

Lemma lit_complete (w : text) : forall a b, consumes w a b -> lit w a = Some b.
Proof.
  induction w as [|x w IH]; intros a b H; simpl.
  - by rewrite (consumes_nil_inv _ _ H).
  - destruct (consumes_cons_inv _ _ _ _ H) as (s' & -> & H').
    rewrite N.eqb_refl. by apply IH.
Qed.

Section Stars.
Variable p : N -> bool.
Variable k : cursor -> option cursor.

Lemma star_greedy_sound (s : text) : forall pos prev caps res,
  star_greedy p s pos prev caps k = Some res ->
  exists w b, all_in p w /\ consumes w (Cursor pos prev s caps) b /\ k b = Some res.
Proof.
  induction s as [|c s IH]; intros pos prev caps res; simpl.
  - intros H. exists [], (Cursor pos prev [] caps).
    split; [constructor|]. split; [apply consumes_nil|done].
  - destruct (p c) eqn:Hpc.
    + destruct (star_greedy p s (S pos) (Some c) caps k) as [r|] eqn:Hrec.
      * intros [= <-]. destruct (IH _ _ _ _ Hrec) as (w & b & Hall & Hcons & Hk).
        exists (c :: w), b. split; [by constructor|]. split; [|done].
        change (c :: w) with ([c] ++ w). eapply consumes_app; [|exact Hcons].
        by apply (consumes_step c s (Cursor pos prev (c :: s) caps)).
      * intros H. exists [], (Cursor pos prev (c :: s) caps).
        split; [constructor|]. split; [apply consumes_nil|done].
    + intros H. exists [], (Cursor pos prev (c :: s) caps).
      split; [constructor|]. split; [apply consumes_nil|done].
Qed.

Lemma star_greedy_complete (s : text) : forall pos prev caps,
  star_greedy p s pos prev caps k = None ->
  forall w b, all_in p w -> consumes w (Cursor pos prev s caps) b -> k b = None.
Proof.
  induction s as [|c s IH]; intros pos prev caps Hnone w b Hall Hcons; simpl in Hnone.
  - destruct w as [|x w].
    + by rewrite (consumes_nil_inv _ _ Hcons).
    + destruct Hcons as (Hr & _). simpl in Hr. done.
  - destruct w as [|x w].
    + rewrite (consumes_nil_inv _ _ Hcons).
      destruct (p c); [|done].
      by destruct (star_greedy p s (S pos) (Some c) caps k).
    + destruct (consumes_cons_inv _ _ _ _ Hcons) as (s' & Hrest & Hcons').
      simpl in Hrest. injection Hrest as <- <-.
      inversion Hall as [|? ? Hpx Hall']; subst. rewrite Hpx in Hnone.
      destruct (star_greedy p s (S pos) (Some c) caps k) eqn:Hrec; [done|].
      by eapply IH.
Qed.

Lemma star_lazy_sound (s : text) : forall pos prev caps res,
  star_lazy p s pos prev caps k = Some res ->
  exists w b, all_in p w /\ consumes w (Cursor pos prev s caps) b /\ k b = Some res.
Proof.
  induction s as [|c s IH]; intros pos prev caps res; simpl.
  - destruct (k (Cursor pos prev [] caps)) eqn:Hk; [|done].
    intros [= <-]. exists [], (Cursor pos prev [] caps).
    split; [constructor|]. split; [apply consumes_nil|done].
  - destruct (k (Cursor pos prev (c :: s) caps)) eqn:Hk.
    + intros [= <-]. exists [], (Cursor pos prev (c :: s) caps).
      split; [constructor|]. split; [apply consumes_nil|done].
    + destruct (p c) eqn:Hpc; [|done].
      intros Hrec. destruct (IH _ _ _ _ Hrec) as (w & b & Hall & Hcons & Hkb).
      exists (c :: w), b. split; [by constructor|]. split; [|done].
      change (c :: w) with ([c] ++ w). eapply consumes_app; [|exact Hcons].
      by apply (consumes_step c s (Cursor pos prev (c :: s) caps)).
Qed.

Lemma star_lazy_complete (s : text) : forall pos prev caps,
  star_lazy p s pos prev caps k = None ->
  forall w b, all_in p w -> consumes w (Cursor pos prev s caps) b -> k b = None.
Proof.
  induction s as [|c s IH]; intros pos prev caps Hnone w b Hall Hcons; simpl in Hnone.
  - destruct (k (Cursor pos prev [] caps)) eqn:Hk; [done|].
    destruct w as [|x w].
    + by rewrite (consumes_nil_inv _ _ Hcons).
    + destruct Hcons as (Hr & _). simpl in Hr. done.
  - destruct (k (Cursor pos prev (c :: s) caps)) eqn:Hk; [done|].
    destruct w as [|x w].
    + by rewrite (consumes_nil_inv _ _ Hcons).
    + destruct (consumes_cons_inv _ _ _ _ Hcons) as (s' & Hrest & Hcons').
      simpl in Hrest. injection Hrest as <- <-.
      inversion Hall as [|? ? Hpx Hall']; subst. rewrite Hpx in Hnone.
      by eapply IH.
Qed.
End Stars.

(** Soundness: whatever the matcher returns went through a cursor that
    the pattern allows and the continuation accepts. *)
Lemma exec_sound (r : regex) : forall a k res,
  exec r a k = Some res -> exists b, rm r a b /\ k b = Some res.
Proof.
  induction r as [w|p| |r1 IH1 r2 IH2|r1 IH1 r2 IH2|r1 IH1|p|p|p|n r1 IH1];
    intros a k res; simpl.
  - destruct (lit w a) as [b|] eqn:Hlit; [|done].
    intros Hk. exists b. split; [by apply lit_sound|done].
  - destruct (c_rest a) as [|c s'] eqn:Hrest; [done|].
    destruct (p c) eqn:Hpc; [|done].
    intros Hk. exists (step c s' a). split; [|done].
    exists c. split; [done|]. by apply consumes_step.
  - destruct (c_prev a) as [c|] eqn:Hprev.
    + destruct (N.eqb_spec c NL) as [->|]; [|done]. intros Hk. exists a. eauto.
    + intros Hk. exists a. eauto.
  - intros H. destruct (IH1 _ _ _ H) as (m & Hm & H2).
    destruct (IH2 _ _ _ H2) as (b & Hb & Hk). exists b. eauto.
  - destruct (exec r1 a k) as [b1|] eqn:H1.
    + intros [= <-]. destruct (IH1 _ _ _ H1) as (b & Hb & Hk). exists b. eauto.
    + intros H2. destruct (IH2 _ _ _ H2) as (b & Hb & Hk). exists b. eauto.
  - destruct (exec r1 a k) as [b1|] eqn:H1.
    + intros [= <-]. destruct (IH1 _ _ _ H1) as (b & Hb & Hk). exists b. eauto.
    + intros Hk. exists a. eauto.
  - intros H. destruct (star_greedy_sound _ _ _ _ _ _ _ H) as (w & b & Hall & Hcons & Hk).
    exists b. split; [|done]. exists w. by destruct a.
  - intros H. destruct (star_lazy_sound _ _ _ _ _ _ _ H) as (w & b & Hall & Hcons & Hk).
    exists b. split; [|done]. exists w. by destruct a.
  - destruct (c_rest a) as [|c s'] eqn:Hrest; [done|].
    destruct (p c) eqn:Hpc; [|done].
    intros H. destruct (star_greedy_sound _ _ _ _ _ _ _ H) as (w & b & Hall & Hcons & Hk).
    exists b. split; [|done]. exists c, w. split; [done|]. split; [done|].
    change (c :: w) with ([c] ++ w). eapply consumes_app; [|exact Hcons].
    by apply consumes_step.
  - intros H. destruct (IH1 _ _ _ H) as (b0 & Hb0 & Hk).
    eexists. split; [|exact Hk]. exists b0. eauto.
Qed.

(** Completeness: when the matcher gives up, the continuation rejects
    every cursor that the pattern allows. *)
Lemma exec_complete (r : regex) : forall a k,
  exec r a k = None -> forall b, rm r a b -> k b = None.
Proof.
  induction r as [w|p| |r1 IH1 r2 IH2|r1 IH1 r2 IH2|r1 IH1|p|p|p|n r1 IH1];
    intros a k Hnone b Hb; simpl in Hnone, Hb.
  - apply lit_complete in Hb. by rewrite Hb in Hnone.
  - destruct Hb as (c & Hpc & Hcons).
    destruct (consumes_cons_inv _ _ _ _ Hcons) as (s' & Hrest & Hnil).
    apply consumes_nil_inv in Hnil. rewrite Hrest, Hpc in Hnone. by subst b.
  - destruct Hb as [[Hp|Hp] ->]; rewrite Hp in Hnone; [done|].
    by rewrite N.eqb_refl in Hnone.
  - destruct Hb as (m & Hm & Hb).
    eapply IH2; [|exact Hb]. by eapply (IH1 _ _ Hnone).
  - destruct (exec r1 a k) eqn:H1; [done|].
    destruct Hb as [Hb|Hb]; [by eapply IH1|by eapply IH2].
  - destruct (exec r1 a k) eqn:H1; [done|].
    destruct Hb as [Hb| ->]; [by eapply IH1|done].
  - destruct Hb as (w & Hall & Hcons).
    eapply star_greedy_complete; [exact Hnone|exact Hall|by destruct a].
  - destruct Hb as (w & Hall & Hcons).
    eapply star_lazy_complete; [exact Hnone|exact Hall|by destruct a].
  - destruct Hb as (c & w & Hpc & Hall & Hcons).
    destruct (consumes_cons_inv _ _ _ _ Hcons) as (s' & Hrest & Hcons').
    rewrite Hrest, Hpc in Hnone.
    eapply star_greedy_complete; [exact Hnone|exact Hall|exact Hcons'].
  - destruct Hb as (b0 & Hb0 & ->). by apply (IH1 _ _ Hnone b0).
Qed.

Lemma consumes_moves (w : text) (a b : cursor) : consumes w a b -> moves w a b.
Proof. intros (? & ? & ? & ?). by split_and!. Qed.

Lemma moves_nil (a : cursor) : moves [] a a.
Proof. apply consumes_moves, consumes_nil. Qed.

Lemma moves_app (w1 w2 : text) (a m b : cursor) :
  moves w1 a m -> moves w2 m b -> moves (w1 ++ w2) a b.
Proof.
  intros (Hr1 & Hp1 & Hv1) (Hr2 & Hp2 & Hv2). unfold moves.
  rewrite Hr1, Hr2, Hp2, Hp1, Hv2, Hv1, last_or_app, length_app, <- app_assoc.
  split_and!; try done; lia.
Qed.

Lemma moves_set_cap (w : text) (a b : cursor) (n : nat) (x : text) :
  moves w a b -> moves w a (set_cap n x b).
Proof. by intros (? & ? & ?). Qed.

Lemma moves_take (w : text) (a b : cursor) :
  moves w a b -> take (c_pos b - c_pos a) (c_rest a) = w.
Proof.
  intros (Hr & Hp & _). rewrite Hr, Hp.
  replace (c_pos a + length w - c_pos a) with (length w) by lia.
  by rewrite take_app_length.
Qed.

Lemma moves_inj (a b : cursor) (w1 w2 : text) :
  moves w1 a b -> moves w2 a b -> w1 = w2.
Proof. intros H1 H2. by rewrite <- (moves_take _ _ _ H1), <- (moves_take _ _ _ H2). Qed.

(** A pattern moves the cursor over a word of the subject. *)
Lemma rm_word (r : regex) : forall a b, rm r a b -> exists w, moves w a b.
Proof.
  induction r as [w|p| |r1 IH1 r2 IH2|r1 IH1 r2 IH2|r1 IH1|p|p|p|n r1 IH1];
    intros a b Hb; simpl in Hb.
  - eauto using consumes_moves.
  - destruct Hb as (c & _ & H). eauto using consumes_moves.
  - destruct Hb as [_ ->]. eauto using moves_nil.
  - destruct Hb as (m & Hm & Hb).
    destruct (IH1 _ _ Hm) as (w1 & H1). destruct (IH2 _ _ Hb) as (w2 & H2).
    eauto using moves_app.
  - destruct Hb as [Hb|Hb]; eauto.
  - destruct Hb as [Hb| ->]; eauto using moves_nil.
  - destruct Hb as (w & _ & H). eauto using consumes_moves.
  - destruct Hb as (w & _ & H). eauto using consumes_moves.
  - destruct Hb as (c & w & _ & _ & H). eauto using consumes_moves.
  - destruct Hb as (b0 & Hb0 & ->). destruct (IH1 _ _ Hb0) as (w & H).
    eauto using moves_set_cap.
Qed.

(** ** Match objects, search and scan *)

Lemma match_at_sound (r : regex) (prev : option N) (p : nat) (s : text) (m : mtch) :
  match_at r prev p s = Some m ->
  exists b, rm r (Cursor 0 prev s []) b
            /\ m = Mtch p (p + c_pos b) (take (c_pos b) s) (c_caps b).
Proof.
  unfold match_at. destruct (exec r (Cursor 0 prev s []) Some) as [b|] eqn:Hexec; [|done].
  intros [= <-]. destruct (exec_sound _ _ _ _ Hexec) as (b' & Hrm & [= ->]). eauto.
Qed.

Lemma match_at_complete (r : regex) (prev : option N) (p : nat) (s : text) (b : cursor) :
  rm r (Cursor 0 prev s []) b -> is_Some (match_at r prev p s).
Proof.
  intros Hrm. unfold match_at.
  destruct (exec r (Cursor 0 prev s []) Some) as [b'|] eqn:Hexec; [eauto|].
  by pose proof (exec_complete _ _ _ Hexec _ Hrm).
Qed.

Lemma moves_take0 (w : text) (prev : option N) (s : text) (b : cursor) :
  moves w (Cursor 0 prev s []) b -> take (c_pos b) s = w /\ c_pos b = length w.
Proof.
  intros Hw. pose proof (moves_take _ _ _ Hw) as Htake. destruct Hw as (_ & Hp & _).
  simpl in *. rewrite Nat.sub_0_r in Htake. done.
Qed.

(** A match object spans a word of the subject that starts at its
    anchor. *)
Lemma match_at_word (r : regex) (prev : option N) (p : nat) (s : text) (m : mtch) :
  match_at r prev p s = Some m ->
  m_start m = p /\ m_end m = p + length (m_text m) /\ exists s', s = m_text m ++ s'.
Proof.
  intros (b & Hrm & ->)%match_at_sound. simpl.
  destruct (rm_word _ _ _ Hrm) as (w & Hw).
  destruct (moves_take0 _ _ _ _ Hw) as [Htake Hpos]. destruct Hw as (Hr & _).
  simpl in *. rewrite Htake, Hpos. split_and!; [done|done|]. eauto.
Qed.

Lemma search_from_sound (r : regex) (s : text) : forall prev p m,
  search_from r s prev p = Some m ->
  exists s1 s2, s = s1 ++ s2 /\ match_at r (last_or prev s1) (p + length s1) s2 = Some m.
Proof.
  induction s as [|c s IH]; intros prev p m; simpl.
  - destruct (match_at r prev p []) as [m'|] eqn:Hm; [|done].
    intros [= <-]. exists [], []. simpl. by rewrite Nat.add_0_r.
  - destruct (match_at r prev p (c :: s)) as [m'|] eqn:Hm.
    + intros [= <-]. exists [], (c :: s). simpl. by rewrite Nat.add_0_r.
    + intros (s1 & s2 & -> & H)%IH. exists (c :: s1), s2. split; [done|].
      change (c :: s1) with ([c] ++ s1). rewrite <- last_or_app. simpl.
      by replace (p + S (length s1)) with (S p + length s1) by lia.
Qed.

Lemma search_from_complete (r : regex) (s : text) : forall prev p,
  search_from r s prev p = None ->
  forall s1 s2, s = s1 ++ s2 -> match_at r (last_or prev s1) (p + length s1) s2 = None.
Proof.
  induction s as [|c s IH]; intros prev p Hnone s1 s2 Heq; simpl in Hnone.
  - destruct (match_at r prev p []) eqn:Hm; [done|].
    destruct s1, s2; try done. simpl. by rewrite Nat.add_0_r.
  - destruct (match_at r prev p (c :: s)) eqn:Hm; [done|].
    destruct s1 as [|c' s1].
    + simpl in *. subst s2. by rewrite Nat.add_0_r.
    + injection Heq as <- ->.
      change (c :: s1) with ([c] ++ s1). rewrite <- last_or_app. simpl.
      replace (p + S (length s1)) with (S p + length s1) by lia.
      by apply IH.
Qed.

Section Scan.
Variable r : regex.
Hypothesis nonempty :
  forall prev p s m, match_at r prev p s = Some m -> m_text m <> [].

Lemma scan_skip (w s : text) : forall prev p,
  exists prev', scan r (w ++ s) (length w) prev p = scan r s 0 prev' (p + length w).
Proof.
  induction w as [|c w IH]; intros prev p; simpl.
  - exists prev. rewrite Nat.add_0_r. by destruct s.
  - destruct (IH (Some c) (S p)) as [prev' ->]. exists prev'.
    by replace (p + S (length w)) with (S p + length w) by lia.
Qed.

Lemma chain_shift (c : N) (p : nat) (s : text) (ms : list mtch) :
  chain r (S p) s ms -> chain r p (c :: s) ms.
Proof.
  inversion 1 as [|? ? gap prev m s' ms' Hm Hs Hrest]; subst.
  - constructor.
  - apply (chain_cons r p _ (c :: gap) prev m s' ms'); simpl.
    + by replace (p + S (length gap)) with (S p + length gap) by lia.
    + done.
    + by replace (p + S (length gap)) with (S p + length gap) by lia.
Qed.

(** The matches that the scan returns lie one after the other in the
    subject. *)
Lemma scan_chain (n : nat) : forall s prev p,
  length s <= n -> chain r p s (scan r s 0 prev p).
Proof.
  induction n as [|n IH]; intros s prev p Hlen.
  - destruct s; [|simpl in Hlen; lia]. simpl.
    destruct (match_at r prev p []) as [m|] eqn:Hm; [|constructor].
    destruct (match_at_word _ _ _ _ _ Hm) as (_ & _ & s' & Hs').
    exfalso. apply (nonempty _ _ _ _ Hm). by destruct (m_text m).
  - destruct s as [|c s]; simpl.
    + destruct (match_at r prev p []) as [m|] eqn:Hm; [|constructor].
      destruct (match_at_word _ _ _ _ _ Hm) as (_ & _ & s' & Hs').
      exfalso. apply (nonempty _ _ _ _ Hm). by destruct (m_text m).
    + destruct (match_at r prev p (c :: s)) as [m|] eqn:Hm.
      * destruct (match_at_word _ _ _ _ _ Hm) as (Hstart & Hend & s' & Hs').
        pose proof (nonempty _ _ _ _ Hm) as Hne.
        destruct (m_text m) as [|c' w] eqn:Htext; [done|].
        injection Hs' as <- ->. rewrite Hend. simpl.
        replace (p + S (length w) - S p) with (length w) by lia.
        destruct (scan_skip w s' (Some c) (S p)) as [prev' ->].
        apply (chain_cons r p _ [] prev m s').
        -- simpl. by rewrite Nat.add_0_r, Htext.
        -- by rewrite Htext.
        -- rewrite Htext. simpl. rewrite Nat.add_0_r.
           replace (p + S (length w)) with (S p + length w) by lia.
           apply IH. simpl in Hlen. rewrite length_app in Hlen. lia.
      * apply chain_shift, IH. simpl in Hlen. lia.
Qed.

Lemma finditer_chain (s : text) : chain r 0 s (re_finditer r s).
Proof. by apply (scan_chain (length s)). Qed.
End Scan.

(** Every match of a scan is the result of a match attempt. *)
Lemma scan_matches (r : regex) (s : text) : forall skip prev p m,
  In m (scan r s skip prev p) -> exists prev' p' s', match_at r prev' p' s' = Some m.
Proof.
  induction s as [|c s IH]; intros skip prev p m; simpl.
  - destruct skip; [|done].
    destruct (match_at r prev p []) as [m'|] eqn:Hm; [|done].
    intros [<-|[]]. eauto.
  - destruct skip as [|k]; [|by apply IH].
    destruct (match_at r prev p (c :: s)) as [m'|] eqn:Hm; [|by apply IH].
    intros [<-|Hin]; [eauto|by eapply IH].
Qed.

(** The positions of a chain's matches. *)
Lemma chain_sorted (r : regex) (p : nat) (s : text) (ms : list mtch) :
  chain r p s ms ->
  Forall (fun m => p <= m_start m) ms
  /\ StronglySorted (fun m1 m2 => m_end m1 <= m_start m2) ms.
Proof.
  induction 1 as [|p s gap prev m s' ms Hm Hs Hrest [IH1 IH2]].
  - split; constructor.
  - destruct (match_at_word _ _ _ _ _ Hm) as (Hstart & Hend & _).
    split.
    + constructor; [lia|]. eapply Forall_impl; [exact IH1|]. simpl. lia.
    + constructor; [done|]. eapply Forall_impl; [exact IH1|]. simpl. lia.
Qed.

(** ** The patterns of parse_latex *)

Lemma match_at_text (r : regex) (prev : option N) (p : nat) (s : text) (m : mtch) :
  match_at r prev p s = Some m ->
  exists b, rm r (Cursor 0 prev s []) b
            /\ m_caps m = c_caps b
            /\ forall w, moves w (Cursor 0 prev s []) b -> m_text m = w.
Proof.
  intros (b & Hrm & ->)%match_at_sound. exists b. simpl. split_and!; [done|done|].
  intros w Hw. by destruct (moves_take0 _ _ _ _ Hw).
Qed.

Lemma rm_ends_lit (w0 : text) : rm_ends (Lit (w0 ++ [125%N])).
Proof.
  intros a b H. simpl in H. exists (w0 ++ [125%N]).
  split; [by apply consumes_moves|by exists w0].
Qed.

Lemma rm_ends_seq (r1 r2 : regex) : rm_ends r2 -> rm_ends (r1 @@ r2).
Proof.
  intros H2 a b (m & Hm & Hb). destruct (rm_word _ _ _ Hm) as (w1 & Hw1).
  destruct (H2 _ _ Hb) as (w2 & Hw2 & w0 & ->).
  exists (w1 ++ w0 ++ [125%N]). split; [by eapply moves_app|].
  exists (w1 ++ w0). by rewrite <- app_assoc.
Qed.

Lemma rm_ends_match (r : regex) (prev : option N) (p : nat) (s : text) (m : mtch) :
  rm_ends r -> match_at r prev p s = Some m -> ends_rbrace (m_text m).
Proof.
  intros Hr (b & Hrm & _ & Htext)%match_at_text.
  destruct (Hr _ _ Hrm) as (w & Hw & Hends). by rewrite (Htext _ Hw).
Qed.

Lemma ends_rbrace_nonempty (w : text) : ends_rbrace w -> w <> [].
Proof. intros [w0 ->]. by destruct w0. Qed.

Lemma block_re_ends : rm_ends block_re.
Proof.
  unfold block_re. do 2 apply rm_ends_seq.
  apply (rm_ends_lit (py "\end{manim")).
Qed.

Lemma inline_re_ends : rm_ends inline_re.
Proof.
  unfold inline_re. do 2 apply rm_ends_seq. apply (rm_ends_lit []).
Qed.

Lemma media_re_ends (typ : media_kind) : rm_ends (media_re typ).
Proof.
  unfold media_re. do 6 apply rm_ends_seq. apply (rm_ends_lit []).
Qed.

(** A match of a pattern "literal, group 1, literal" in full. *)
Lemma lit_group_lit_match (l1 l2 : text) (inner : regex) (prev : option N) (p : nat)
    (s : text) (m : mtch) :
  match_at (Lit l1 @@ Group 1 inner @@ Lit l2) prev p s = Some m ->
  exists g a b, m_text m = l1 ++ g ++ l2 /\ group m 1 = g /\ rm inner a b /\ moves g a b.
Proof.
  intros (b & Hrm & Hcaps & Htext)%match_at_text.
  destruct Hrm as (m1 & Hl1 & m2 & (b0 & Hin & ->) & Hl2).
  destruct (rm_word _ _ _ Hin) as (g & Hg).
  exists g, m1, b0. split_and!; [| |done|done].
  - apply Htext. eapply moves_app; [by apply consumes_moves|].
    eapply moves_app; [|by apply consumes_moves]. by apply moves_set_cap.
  - unfold group. rewrite Hcaps. destruct Hl2 as (_ & _ & _ & ->). simpl.
    by apply moves_take.
Qed.

Lemma block_re_match (prev : option N) (p : nat) (s : text) (m : mtch) :
  match_at block_re prev p s = Some m ->
  m_text m = py "\begin{manim}" ++ group m 1 ++ py "\end{manim}".
Proof.
  intros (g & a & b & Htext & Hg & _)%lit_group_lit_match. by rewrite Hg.
Qed.

Lemma inline_re_match (prev : option N) (p : nat) (s : text) (m : mtch) :
  match_at inline_re prev p s = Some m ->
  m_text m = py "\manim{" ++ group m 1 ++ py "}" /\ 125%N ∉ group m 1.
Proof.
  intros (g & a & b & Htext & Hg & Hin & Hmoves)%lit_group_lit_match.
  rewrite Hg. split; [done|].
  destruct Hin as (w & Hall & Hw%consumes_moves).
  rewrite (moves_inj _ _ _ _ Hmoves Hw). intros Hel.
  unfold all_in in Hall. rewrite Forall_forall in Hall. by apply Hall in Hel.
Qed.

Lemma break_re_match (prev : option N) (p : nat) (s : text) (m : mtch) :
  match_at break_re prev p s = Some m ->
  (m_text m = py "\newpage" \/ m_text m = py "\breakpage") /\ group m 1 = m_text m.
Proof.
  intros (b & Hrm & Hcaps & Htext)%match_at_text.
  destruct Hrm as (b0 & Halt & ->).
  assert (Hw : exists w, (w = py "\newpage" \/ w = py "\breakpage")
                         /\ moves w (Cursor 0 prev s []) b0).
  { destruct Halt as [H|H]; eexists; (split; [|by apply consumes_moves]); eauto. }
  destruct Hw as (w & Hw & Hmoves).
  assert (Ht : m_text m = w) by (by apply Htext, moves_set_cap).
  rewrite Ht. split; [done|]. unfold group. rewrite Hcaps. simpl.
  by apply (moves_take _ _ _ Hmoves).
Qed.

Lemma block_re_nonempty prev p s m : match_at block_re prev p s = Some m -> m_text m <> [].
Proof. intros H. eapply ends_rbrace_nonempty, rm_ends_match; [apply block_re_ends|exact H]. Qed.

Lemma inline_re_nonempty prev p s m : match_at inline_re prev p s = Some m -> m_text m <> [].
Proof. intros H. eapply ends_rbrace_nonempty, rm_ends_match; [apply inline_re_ends|exact H]. Qed.

Lemma break_re_nonempty prev p s m : match_at break_re prev p s = Some m -> m_text m <> [].
Proof. intros [[-> | ->] _]%break_re_match; done. Qed.


(** ** parse_latex on sample sources *)

Example parse_region_between_text :
  parse_latex (py "intro \begin{manim} self.play(x) \end{manim} outro")
  = ([ELatex (py "intro"); EManim (py "self.play(x)"); ELatex (py "outro")], SingleColumn).
Proof. vm_compute. reflexivity. Qed.

Example parse_page_break :
  fst (parse_latex (py "one \newpage two"))
  = [ELatex (py "one"); EPagebreak; ELatex (py "two")].
Proof. vm_compute. reflexivity. Qed.

Example parse_inline_before_text :
  fst (parse_latex (py "T\manim{x}")) = [EManim (py "x"); ELatex (py "T")].
Proof. vm_compute. reflexivity. Qed.

Example parse_video_attributes :
  fst (parse_latex (py "\video[scale=0.5, height=3px]{v.mp4}"))
  = [EMedia Video (py "v.mp4") None (Some (py "3px")) (Some (py "0.5"))].
Proof. vm_compute. reflexivity. Qed.

(** The attribute class of the media pattern is greedy and is not
    stopped by braces: without brackets it runs on to the last braced
    group of the part. *)
Example parse_image_greedy :
  fst (parse_latex (py "\image{a.png} and $x^{2}$"))
  = [EMedia Image (py "2") None None None; ELatex (py "$")].
Proof. vm_compute. reflexivity. Qed.

Example layout_comment_marker :
  snd (parse_latex (py "%% twocolumn" ++ NL :: py "text")) = TwoColumn.
Proof. vm_compute. reflexivity. Qed.
(** ** The layout pattern *)

Lemma consumes_intro (w s' : text) (a : cursor) :
  c_rest a = w ++ s' ->
  consumes w a (Cursor (c_pos a + length w) (last_or (c_prev a) w) s' (c_caps a)).
Proof. intros H. unfold consumes. simpl. by split_and!. Qed.

Lemma consumes_split (w1 w2 : text) (a b : cursor) :
  consumes (w1 ++ w2) a b -> exists m, consumes w1 a m /\ consumes w2 m b.
Proof.
  intros (Hr & Hp & Hv & Hc).
  exists (Cursor (c_pos a + length w1) (last_or (c_prev a) w1) (w2 ++ c_rest b) (c_caps a)).
  split.
  - apply consumes_intro. by rewrite Hr, <- app_assoc.
  - unfold consumes. simpl. rewrite last_or_app, Hp, length_app. split_and!; try done; lia.
Qed.

Lemma line_start_prev (pre : text) :
  line_start pre <-> (last_or None pre = None \/ last_or None pre = Some NL).
Proof.
  unfold line_start, last_or. destruct (last pre) as [c|] eqn:E.
  - apply last_Some in E as [pre' ->]. split.
    + intros [H|[pre'' H]]; [by destruct pre'|].
      apply app_inj_tail in H as [_ ->]. by right.
    + intros [H|[= ->]]; [done|]. right. by exists pre'.
  - apply last_None in E as ->. split; [by left|by left].
Qed.

(** The layout pattern matches at a cursor exactly when the cursor
    stands at a line start and a marker lies ahead. *)
Lemma layout_rm (a b : cursor) :
  rm layout_re a b
  <-> (c_prev a = None \/ c_prev a = Some NL) /\ exists w, marker w /\ consumes w a b.
Proof.
  unfold layout_re. cbn [rm]. split.
  - intros (a0 & [Hprev ->] & Halt). split; [done|].
    destruct Halt as [(m1 & H1 & m2 & (ws & Hws & H2) & H3)
                     |[H1|(m1 & H1 & m2 & (x & Hx & H2) & m3 & H3 & m4 & (y & Hy & H4) & H5)]].
    + exists (py "%%" ++ ws ++ py "twocolumn"). split.
      * left; left. by exists ws.
      * eapply consumes_app; [exact H1|]. by eapply consumes_app.
    + exists (py "\twocolumn"). split; [by left; right|done].
    + exists (py "\document[" ++ x ++ py "twocolumn" ++ y ++ py "]"). split.
      * right. by exists x, y.
      * eapply consumes_app; [exact H1|]. eapply consumes_app; [exact H2|].
        eapply consumes_app; [exact H3|]. by eapply consumes_app.
  - intros [Hprev (w & Hw & Hcons)]. exists a. split; [done|].
    destruct Hw as [[(ws & Hws & ->)| ->]|(x & y & Hx & Hy & ->)].
    + left. apply consumes_split in Hcons as (m1 & H1 & Hcons).
      apply consumes_split in Hcons as (m2 & H2 & H3). eauto 10.
    + right; left. done.
    + right; right. apply consumes_split in Hcons as (m1 & H1 & Hcons).
      apply consumes_split in Hcons as (m2 & H2 & Hcons).
      apply consumes_split in Hcons as (m3 & H3 & Hcons).
      apply consumes_split in Hcons as (m4 & H4 & H5). eauto 15.
Qed.

(** Two-column is returned exactly when one of the pattern's spellings
    begins a line. *)
Lemma detect_layout_two_column (tex : text) :
  detect_layout tex = TwoColumn
  <-> exists pre m post, tex = pre ++ m ++ post /\ line_start pre /\ marker m.
Proof.
  unfold detect_layout, re_search. split.
  - destruct (search_from layout_re tex None 0) as [m|] eqn:Hs; [|done]. intros _.
    apply search_from_sound in Hs as (s1 & s2 & -> & Hm).
    apply match_at_sound in Hm as (b & Hrm & _).
    apply layout_rm in Hrm as [Hprev (w & Hw & Hcons)]. simpl in Hprev.
    destruct Hcons as (Hrest & _). simpl in Hrest.
    exists s1, w, (c_rest b). split_and!; [by rewrite Hrest| |done].
    by apply line_start_prev.
  - intros (pre & m & post & -> & Hpre & Hm).
    destruct (search_from layout_re (pre ++ m ++ post) None 0) as [m'|] eqn:Hs; [done|].
    exfalso. pose proof (search_from_complete _ _ _ _ Hs pre (m ++ post) eq_refl) as Hnone.
    assert (Hrm : exists b, rm layout_re (Cursor 0 (last_or None pre) (m ++ post) []) b).
    { eexists. apply layout_rm. split; [by apply line_start_prev|].
      exists m. split; [done|]. by apply consumes_intro. }
    destruct Hrm as [b Hrm].
    apply (match_at_complete _ _ (0 + length pre)) in Hrm as [m' Hm'].
    by rewrite Hnone in Hm'.
Qed.

(** ** Scanning text without backslashes *)

Lemma starts_bs_lit_seq (w : text) (r : regex) : starts_bs (Lit (92%N :: w) @@ r).
Proof. intros a b (m & (Hr & _) & _). simpl in Hr. eauto. Qed.

Lemma block_re_bs : starts_bs block_re.
Proof. apply starts_bs_lit_seq. Qed.

Lemma inline_re_bs : starts_bs inline_re.
Proof. apply starts_bs_lit_seq. Qed.

Lemma media_re_bs (typ : media_kind) : starts_bs (media_re typ).
Proof. destruct typ; apply starts_bs_lit_seq. Qed.

Lemma break_re_bs : starts_bs break_re.
Proof. intros a b (b0 & [(Hr & _)|(Hr & _)] & _); simpl in Hr; eauto. Qed.

Section Plain.
Variable r : regex.
Hypothesis r_bs : starts_bs r.

Lemma match_at_plain (prev : option N) (p : nat) (s : text) :
  (forall s', s <> 92%N :: s') -> match_at r prev p s = None.
Proof.
  intros Hs. destruct (match_at r prev p s) as [m|] eqn:Hm; [|done].
  apply match_at_sound in Hm as (b & Hrm & _).
  destruct (r_bs _ _ Hrm) as [s' Hs']. simpl in Hs'. by apply Hs in Hs'.
Qed.

(** The scan steps over a stretch without backslashes. *)
Lemma scan_plain (t s : text) : forall prev p,
  92%N ∉ t ->
  exists prev', scan r (t ++ s) 0 prev p = scan r s 0 prev' (p + length t).
Proof.
  induction t as [|c t IH]; intros prev p Ht; simpl.
  - exists prev. by rewrite Nat.add_0_r.
  - rewrite match_at_plain.
    + destruct (IH (Some c) (S p)) as [prev' ->].
      { intros H. apply Ht. by right. }
      exists prev'. by replace (p + S (length t)) with (S p + length t) by lia.
    + intros s' [= -> _]. apply Ht. by left.
Qed.

Lemma scan_plain_end (t : text) : forall prev p,
  92%N ∉ t -> scan r t 0 prev p = [].
Proof.
  intros prev p Ht. destruct (scan_plain t [] prev p Ht) as [prev' H].
  rewrite app_nil_r in H. rewrite H. simpl. by rewrite match_at_plain.
Qed.

(** A single backslash at which the pattern does not match. *)
Lemma scan_one_bs (t1 t2 : text) (prev : option N) (p : nat) :
  92%N ∉ t1 -> 92%N ∉ t2 ->
  (forall prev p, match_at r prev p (92%N :: t2) = None) ->
  scan r (t1 ++ 92%N :: t2) 0 prev p = [].
Proof.
  intros H1 H2 Hnone. destruct (scan_plain t1 (92%N :: t2) prev p H1) as [prev' ->].
  cbn [scan]. rewrite Hnone. by apply scan_plain_end.
Qed.

(** The scan at a match whose text is known. *)
Lemma scan_hit (w s : text) (prev : option N) (p : nat) (m : mtch) :
  match_at r prev p (w ++ s) = Some m -> m_text m = w -> w <> [] ->
  exists prev', scan r (w ++ s) 0 prev p = m :: scan r s 0 prev' (p + length w).
Proof.
  intros Hm Htext Hne. destruct (match_at_word _ _ _ _ _ Hm) as (_ & Hend & _).
  destruct w as [|c w]; [done|]. cbn [app scan]. cbn [app] in Hm. rewrite Hm, Hend, Htext.
  cbn [length]. replace (p + S (length w) - S p) with (length w) by lia.
  destruct (scan_skip r w s (Some c) (S p)) as [prev' ->].
  exists prev'. by replace (p + S (length w)) with (S p + length w) by lia.
Qed.
End Plain.

(** [str.replace] on text without the first character of [old]. *)
Section RemovePlain.
Variable x : N.
Variable old' : text.

Lemma remove_occ_plain (t s : text) :
  x ∉ t -> remove_occ (x :: old') (t ++ s) 0 = t ++ remove_occ (x :: old') s 0.
Proof.
  induction t as [|c t IH]; intros Ht; [done|].
  cbn [app remove_occ starts_with].
  destruct (N.eqb_spec x c) as [->|_].
  - exfalso. apply Ht. by left.
  - cbn [andb]. rewrite IH; [done|]. intros H. apply Ht. by right.
Qed.

Lemma remove_occ_skip (w s : text) :
  remove_occ (x :: old') (w ++ s) (length w) = remove_occ (x :: old') s 0.
Proof.
  induction w as [|c w IH]; simpl; [by destruct s|done].
Qed.

Lemma starts_with_refl (w s : text) : starts_with w (w ++ s) = true.
Proof. apply starts_with_spec. eauto. Qed.

(** One occurrence of [old] between two stretches that are free of its
    first character. *)
Lemma replace_empty_once (a b : text) :
  x ∉ a -> x ∉ b ->
  replace_empty (x :: old') (a ++ (x :: old') ++ b) = a ++ b.
Proof.
  intros Ha Hb. unfold replace_empty. rewrite remove_occ_plain by done. f_equal.
  cbn [app]. cbn [remove_occ].
  change (x :: old' ++ b) with ((x :: old') ++ b). rewrite starts_with_refl.
  cbn [length]. replace (S (length old') - 1) with (length old') by lia.
  rewrite remove_occ_skip.
  rewrite <- (app_nil_r b) at 1. rewrite remove_occ_plain by done. simpl. by rewrite app_nil_r.
Qed.
End RemovePlain.

(** ** The loops of parse_latex over a scan *)

Lemma slice_gap (t0 gap rest : text) (p : nat) :
  length t0 = p -> slice p (p + length gap) (t0 ++ gap ++ rest) = gap.
Proof.
  intros <-. unfold slice. rewrite drop_app_length.
  replace (length t0 + length gap - length t0) with (length gap) by lia.
  by rewrite take_app_length.
Qed.

Lemma chain_start (r : regex) (p : nat) (s gap : text) (prev : option N) (m : mtch) (s' : text) :
  match_at r prev (p + length gap) (m_text m ++ s') = Some m ->
  m_start m = p + length gap /\ m_end m = p + length gap + length (m_text m).
Proof. intros (-> & -> & _)%match_at_word. done. Qed.

(** Each match of a chain is the piece of the subject between its start
    and its end. *)
Lemma chain_slices (r : regex) (p : nat) (s : text) (ms : list mtch) :
  chain r p s ms ->
  forall t0, length t0 = p ->
    Forall (fun m => slice (m_start m) (m_end m) (t0 ++ s) = m_text m) ms.
Proof.
  induction 1 as [|p s gap prev m s' ms Hm Hs Hrest IH]; intros t0 Hlen; [constructor|].
  destruct (chain_start _ _ s _ _ _ _ Hm) as [Hstart Hend]. subst s. constructor.
  - rewrite Hstart, Hend, (app_assoc t0 gap).
    apply slice_gap. rewrite length_app. lia.
  - specialize (IH (t0 ++ gap ++ m_text m)).
    rewrite <- !app_assoc in IH. apply IH. rewrite !length_app. lia.
Qed.

(** *** The inline pass *)

Lemma sub_loop_state (t : text) (ms : list mtch) : forall pos acc expanded,
  snd (sub_loop repl_inline t ms pos acc expanded)
  = expanded ++ map (fun m => EManim (group m 1)) ms.
Proof.
  induction ms as [|m ms IH]; intros pos acc expanded; simpl.
  - by rewrite app_nil_r.
  - rewrite IH, <- app_assoc. done.
Qed.

(** *** The media passes and the page-break parts *)

Lemma media_loop_state (typ : media_kind) (ms : list mtch) : forall expanded part,
  fst (media_loop typ ms expanded part)
  = expanded ++ map (fun m => parse_media m typ) ms.
Proof.
  induction ms as [|m ms IH]; intros expanded part; simpl.
  - by rewrite app_nil_r.
  - rewrite IH, <- app_assoc. done.
Qed.

Lemma parse_media_not_manim (m : mtch) (typ : media_kind) : ~ is_manim (parse_media m typ).
Proof. unfold parse_media. cbv zeta. cbn [is_manim]. tauto. Qed.

(** What one page-break part appends, as a function of the part alone. *)
Lemma expand_part_app (expanded : list element) (part : text) :
  expand_part expanded part = expanded ++ expand_part [] part
  /\ Forall (fun e => ~ is_manim e) (expand_part [] part).
Proof.
  unfold expand_part.
  destruct (truthy (strip part)); simpl; [|by rewrite app_nil_r].
  destruct (is_break (strip part)); simpl.
  { split; [done|]. repeat constructor. by intros []. }
  unfold media_pass. simpl.
  set (ms1 := re_finditer (media_re Image) part).
  pose proof (media_loop_state Image ms1 expanded part) as H1.
  pose proof (media_loop_state Image ms1 [] part) as H1'.
  assert (Hpart : forall e1 e2 p,
            snd (media_loop Image ms1 e1 p) = snd (media_loop Image ms1 e2 p)).
  { clear. induction ms1 as [|m ms IH]; intros e1 e2 p; simpl; [done|]. apply IH. }
  rewrite (Hpart expanded [] part) in *.
  destruct (media_loop Image ms1 expanded part) as [e1 p1] eqn:E1.
  destruct (media_loop Image ms1 [] part) as [e1' p1'] eqn:E1'.
  simpl in *. specialize (Hpart expanded [] part). rewrite E1, E1' in Hpart.
  simpl in Hpart. subst p1' e1 e1'.
  set (ms2 := re_finditer (media_re Video) p1).
  pose proof (media_loop_state Video ms2 (expanded ++ map (fun m => parse_media m Image) ms1) p1) as H2.
  pose proof (media_loop_state Video ms2 (map (fun m => parse_media m Image) ms1) p1) as H2'.
  assert (Hpart2 : forall e1 e2 p,
            snd (media_loop Video ms2 e1 p) = snd (media_loop Video ms2 e2 p)).
  { clear. induction ms2 as [|m ms IH]; intros e1 e2 p; simpl; [done|]. apply IH. }
  specialize (Hpart2 (expanded ++ map (fun m => parse_media m Image) ms1)
                     (map (fun m => parse_media m Image) ms1) p1).
  destruct (media_loop Video ms2 (expanded ++ _) p1) as [e2 p2].
  destruct (media_loop Video ms2 (map _ ms1) p1) as [e2' p2'].
  simpl in *. subst p2' e2 e2'.
  assert (Hmedia : forall typ ms, Forall (fun e => ~ is_manim e)
                                    (map (fun m => parse_media m typ) ms)).
  { intros typ ms. apply Forall_forall. intros e (m & -> & _)%list_elem_of_fmap.
    apply parse_media_not_manim. }
  destruct (truthy (strip p2)).
  - rewrite <- !app_assoc. split; [done|].
    repeat apply Forall_app_2; try apply Hmedia. repeat constructor. by intros [].
  - rewrite <- !app_assoc. split; [done|].
    repeat apply Forall_app_2; apply Hmedia.
Qed.

Lemma fold_expand_part_app (parts : list text) : forall expanded,
  fold_left expand_part parts expanded = expanded ++ fold_left expand_part parts []
  /\ Forall (fun e => ~ is_manim e) (fold_left expand_part parts []).
Proof.
  induction parts as [|part parts IH] using rev_ind; intros expanded; simpl.
  - by rewrite app_nil_r.
  - rewrite !fold_left_app. simpl.
    destruct (IH expanded) as [-> _]. destruct (IH []) as [_ Hno].
    destruct (expand_part_app (expanded ++ fold_left expand_part parts []) part) as [-> Hp].
    destruct (expand_part_app (fold_left expand_part parts []) part) as [-> _].
    rewrite <- app_assoc. split; [done|]. by apply Forall_app_2.
Qed.

(** What one first-pass element appends, as a function of the element
    alone. *)
Lemma expand_element_app (expanded : list element) (el : element) :
  expand_element expanded el = expanded ++ expand_element [] el.
Proof.
  destruct el as [t| | |]; try done. unfold expand_element, re_sub.
  pose proof (sub_loop_state t (re_finditer inline_re t) 0 [] expanded) as H1.
  pose proof (sub_loop_state t (re_finditer inline_re t) 0 [] []) as H2.
  assert (Ht : forall e1 e2 pos acc,
            fst (sub_loop repl_inline t (re_finditer inline_re t) pos acc e1)
            = fst (sub_loop repl_inline t (re_finditer inline_re t) pos acc e2)).
  { generalize (re_finditer inline_re t). clear.
    induction l as [|m ms IH]; intros e1 e2 pos acc; simpl; [done|]. apply IH. }
  specialize (Ht expanded [] 0 []).
  destruct (sub_loop repl_inline t _ 0 [] expanded) as [t1 e1].
  destruct (sub_loop repl_inline t _ 0 [] []) as [t2 e2].
  simpl in *. subst t2 e1 e2.
  rewrite (proj1 (fold_expand_part_app _ (expanded ++ _))).
  rewrite (proj1 (fold_expand_part_app _ (map _ _))).
  by rewrite <- app_assoc.
Qed.

Lemma fold_expand_element (els : list element) : forall expanded,
  fold_left expand_element els expanded
  = expanded ++ concat (map (expand_element []) els).
Proof.
  induction els as [|el els IH]; intros expanded; simpl.
  - by rewrite app_nil_r.
  - rewrite IH, (expand_element_app expanded el), <- app_assoc. done.
Qed.

Lemma not_break_elem (t : text) (c : N) :
  c ∈ t -> c ∉ py "\newpage" -> c ∉ py "\breakpage" -> is_break t = false.
Proof.
  intros Hin Hn Hb. unfold is_break. apply orb_false_iff. split.
  - destruct (text_eqb _ (py "\newpage")) eqn:E; [|done].
    apply text_eqb_eq in E. by rewrite E in Hin.
  - destruct (text_eqb _ (py "\breakpage")) eqn:E; [|done].
    apply text_eqb_eq in E. by rewrite E in Hin.
Qed.

(** *** The first pass *)

Lemma first_pass_loop_chain (p : nat) (s : text) (ms : list mtch) :
  chain block_re p s ms ->
  forall t0 els, length t0 = p ->
    exists segs s_last,
      s = concat (map seg_raw segs) ++ s_last
      /\ first_pass_loop (t0 ++ s) ms p els
         = (length t0 + length (concat (map seg_raw segs)),
            els ++ concat (map seg_elements segs)).
Proof.
  induction 1 as [p s|p s gap prev m s' ms Hm Hs Hrest IH]; intros t0 els Hlen.
  - exists [], s. simpl. rewrite Hlen, Nat.add_0_r, app_nil_r. done.
  - destruct (chain_start _ _ s _ _ _ _ Hm) as [Hstart Hend].
    pose proof (block_re_match _ _ _ _ Hm) as Htext.
    destruct (IH (t0 ++ gap ++ m_text m) (els ++ seg_elements (TextSeg gap)
                                              ++ seg_elements (BlockSeg (group m 1))))
      as (segs & s_last & Hs' & Hloop).
    { rewrite !length_app. lia. }
    exists (TextSeg gap :: BlockSeg (group m 1) :: segs), s_last. split.
    + cbn [concat map seg_raw]. rewrite <- Htext, Hs, Hs', <- !app_assoc. done.
    + cbn [first_pass_loop]. subst s.
      rewrite Hstart, slice_gap by done.
      replace (m_end m) with (p + length gap + length (m_text m)) by lia.
      replace (if truthy (strip gap) then els ++ [ELatex (strip gap)] else els)
        with (els ++ seg_elements (TextSeg gap))
        by (simpl; destruct (truthy (strip gap)); [done|by rewrite app_nil_r]).
      change (seg_elements (BlockSeg (group m 1))) with [EManim (strip (group m 1))] in Hloop.
      rewrite <- !app_assoc in Hloop. rewrite <- !app_assoc. rewrite Hloop. f_equal.
      cbn [concat map seg_raw]. rewrite <- Htext, !length_app. lia.
Qed.

(** The first pass cuts the source into consecutive segments and emits
    the elements of each in turn. *)
Lemma first_pass_segments (tex : text) :
  exists segs,
    concat (map seg_raw segs) = tex
    /\ first_pass tex = concat (map seg_elements segs).
Proof.
  pose proof (finditer_chain block_re block_re_nonempty tex) as Hchain.
  destruct (first_pass_loop_chain _ _ _ Hchain [] [] eq_refl) as (segs & s_last & Hs & Hloop).
  simpl in Hloop. exists (segs ++ [TextSeg s_last]). split.
  - rewrite map_app, concat_app. simpl. by rewrite app_nil_r.
  - unfold first_pass. rewrite Hloop.
    rewrite map_app, concat_app. simpl. rewrite app_nil_r.
    replace (drop (length (concat (map seg_raw segs))) tex) with s_last.
    + destruct (truthy (strip s_last)); [done|by rewrite app_nil_r].
    + rewrite Hs. by rewrite drop_app_length.
Qed.

(** ** An opening with no closing brace after it *)

Lemma opener_shape (o : text) :
  opener o ->
  exists x c, o = 92%N :: x ++ [c] /\ isspace c = false
              /\ (c ∉ py "\newpage") /\ (c ∉ py "\breakpage") /\ (125%N ∉ o).
Proof.
  intros [-> | [-> | [-> | [-> | ->]]]].
  - exists (py "manim"), 123%N. split_and!; [done|done|not_in_text..].
  - exists (py "image"), 123%N. split_and!; [done|done|not_in_text..].
  - exists (py "video"), 123%N. split_and!; [done|done|not_in_text..].
  - exists (py "image"), 91%N. split_and!; [done|done|not_in_text..].
  - exists (py "video"), 91%N. split_and!; [done|done|not_in_text..].
Qed.

Lemma keeps_tail (o t : text) :
  opener o -> keeps o t -> exists a u, t = a ++ u /\ (125%N ∉ u) /\ exists b, u = o ++ b.
Proof.
  intros (x & c & _ & _ & _ & _ & Ho)%opener_shape (a & b & -> & Hb).
  exists a, (o ++ b). split_and!; [done| |by exists b].
  rewrite elem_of_app. tauto.
Qed.

Lemma keeps_of_tail (o a' b : text) : 125%N ∉ o ++ b -> keeps o (a' ++ o ++ b).
Proof. intros H. exists a', b. split; [done|]. set_solver. Qed.

Lemma keeps_strip (o t : text) : opener o -> keeps o t -> keeps o (strip t).
Proof.
  intros (x & c & Ho & Hc & _)%opener_shape (a & b & -> & Hb). subst o.
  replace (a ++ (92%N :: x ++ [c]) ++ b) with (a ++ 92%N :: x ++ c :: b)
    by (simpl; by rewrite <- app_assoc).
  destruct (strip_keep a x b 92%N c eq_refl Hc) as (ws1 & a' & b' & ws & _ & Hbb & ->).
  exists a', b'. split; [simpl; by rewrite <- app_assoc|].
  subst b. set_solver.
Qed.

Lemma keeps_truthy (o t : text) : opener o -> keeps o t -> truthy t = true.
Proof.
  intros (x & c & -> & _)%opener_shape (a & b & -> & _). by destruct a.
Qed.

Lemma keeps_not_break (o t : text) : opener o -> keeps o t -> is_break t = false.
Proof.
  intros (x & c & -> & _ & Hn & Hb & _)%opener_shape (a & b & -> & _).
  apply (not_break_elem _ c); [|done|done].
  rewrite !elem_of_app, !elem_of_cons, !elem_of_app, !elem_of_cons. tauto.
Qed.

Lemma keeps_occurs (o t : text) : keeps o t -> occurs o t.
Proof. intros (a & b & -> & _). by exists a, b. Qed.

(** A word that ends in a closing brace lies before a tail that has
    none. *)
Lemma ends_within (gap w s' a u : text) :
  gap ++ w ++ s' = a ++ u -> ends_rbrace w -> 125%N ∉ u ->
  exists a', a = gap ++ w ++ a' /\ s' = a' ++ u.
Proof.
  intros Heq [w0 ->] Hu. rewrite app_assoc in Heq.
  destruct (Nat.le_gt_cases (length (gap ++ w0 ++ [125%N])) (length a)) as [Hle|Hgt].
  - destruct (app_eq_len_le _ _ _ _ Heq Hle) as (k & -> & ->).
    exists k. by rewrite <- !app_assoc.
  - symmetry in Heq. destruct (app_eq_len_le _ _ _ _ Heq) as (k & Hk & ->); [lia|].
    exfalso. apply Hu. destruct k as [|y k _] using rev_ind.
    + rewrite app_nil_r in Hk. rewrite Hk in Hgt. lia.
    + rewrite !app_assoc in Hk. apply app_inj_tail in Hk as [_ <-].
      rewrite <- app_assoc. set_solver.
Qed.

(** *** Through the first pass *)

Lemma keeps_first_pass_loop (p : nat) (s : text) (ms : list mtch) :
  chain block_re p s ms ->
  forall a u t0 els, s = a ++ u -> 125%N ∉ u -> length t0 = p ->
    exists pos els' a',
      first_pass_loop (t0 ++ s) ms p els = (pos, els')
      /\ drop pos (t0 ++ s) = a' ++ u.
Proof.
  induction 1 as [p s|p s gap prev m s' ms Hm Hs Hrest IH]; intros a u t0 els Heq Hu Hlen.
  - exists p, els, a. split; [done|]. by rewrite <- Hlen, drop_app_length.
  - destruct (chain_start _ _ s _ _ _ _ Hm) as [Hstart Hend].
    pose proof (rm_ends_match _ _ _ _ _ block_re_ends Hm) as Hends.
    rewrite Hs in Heq. destruct (ends_within _ _ _ _ _ Heq Hends Hu) as (a' & -> & Hs').
    cbn [first_pass_loop]. rewrite Hend.
    match goal with |- context [first_pass_loop _ ms _ ?e] => set (els1 := e) end.
    destruct (IH a' u (t0 ++ gap ++ m_text m) els1 Hs' Hu) as (pos & els' & a'' & Hloop & Hdrop).
    { rewrite !length_app. lia. }
    exists pos, els', a''. subst s. rewrite <- !app_assoc in *. by split.
Qed.

Lemma keeps_first_pass (o tex : text) :
  opener o -> keeps o tex ->
  exists els t, first_pass tex = els ++ [ELatex t] /\ keeps o t.
Proof.
  intros Ho Hk. destruct (keeps_tail _ _ Ho Hk) as (a & u & -> & Hu & b & ->).
  pose proof (finditer_chain block_re block_re_nonempty (a ++ o ++ b)) as Hchain.
  destruct (keeps_first_pass_loop _ _ _ Hchain a (o ++ b) [] [] eq_refl Hu eq_refl)
    as (pos & els & a' & Hloop & Hdrop).
  simpl in Hloop, Hdrop. unfold first_pass. rewrite Hloop, Hdrop.
  assert (Hk' : keeps o (strip (a' ++ o ++ b))).
  { apply keeps_strip; [done|]. by apply keeps_of_tail. }
  rewrite (keeps_truthy _ _ Ho Hk'). eauto.
Qed.

(** *** Through the inline pass *)

Lemma keeps_sub_loop (p : nat) (s : text) (ms : list mtch) :
  chain inline_re p s ms ->
  forall a u t0 acc (st : list element), s = a ++ u -> 125%N ∉ u -> length t0 = p ->
    exists a', fst (sub_loop repl_inline (t0 ++ s) ms p acc st) = acc ++ a' ++ u.
Proof.
  induction 1 as [p s|p s gap prev m s' ms Hm Hs Hrest IH]; intros a u t0 acc st Heq Hu Hlen.
  - exists a. simpl. by rewrite <- Hlen, drop_app_length, Heq.
  - destruct (chain_start _ _ s _ _ _ _ Hm) as [Hstart Hend].
    pose proof (rm_ends_match _ _ _ _ _ inline_re_ends Hm) as Hends.
    rewrite Hs in Heq. destruct (ends_within _ _ _ _ _ Heq Hends Hu) as (a' & -> & Hs').
    cbn [sub_loop repl_inline]. rewrite Hstart, Hend. subst s.
    rewrite slice_gap by done. rewrite app_nil_r.
    destruct (IH a' u (t0 ++ gap ++ m_text m) (acc ++ gap)
                (st ++ [EManim (group m 1)]) Hs' Hu) as (a'' & Hres).
    { rewrite !length_app. lia. }
    rewrite <- !app_assoc in Hres. rewrite Hres.
    exists (gap ++ a''). by rewrite <- !app_assoc.
Qed.

Lemma keeps_sub (o t : text) (expanded : list element) :
  opener o -> keeps o t -> keeps o (fst (re_sub inline_re repl_inline t expanded)).
Proof.
  intros Ho Hk. destruct (keeps_tail _ _ Ho Hk) as (a & u & -> & Hu & b & ->).
  pose proof (finditer_chain inline_re inline_re_nonempty (a ++ o ++ b)) as Hchain.
  destruct (keeps_sub_loop _ _ _ Hchain a (o ++ b) [] [] expanded eq_refl Hu eq_refl)
    as (a' & Hres).
  unfold re_sub. simpl in Hres. rewrite Hres. by apply keeps_of_tail.
Qed.

(** *** Through the media passes *)

Lemma keeps_media_loop (o : text) (typ : media_kind) (ms : list mtch) :
  opener o ->
  Forall (fun m => ends_rbrace (m_text m)) ms ->
  forall expanded part, keeps o part -> keeps o (snd (media_loop typ ms expanded part)).
Proof.
  intros Ho Hms. induction Hms as [|m ms [w0 Hm] Hms IH]; intros expanded part Hk; [done|].
  cbn [media_loop]. apply IH.
  destruct (keeps_tail _ _ Ho Hk) as (a & u & -> & Hu & b & ->).
  destruct (replace_empty_tail (m_text m) 125%N w0 Hm a (o ++ b) Hu) as [a' Hrep].
  unfold group. rewrite Hrep. by apply keeps_of_tail.
Qed.

Lemma keeps_media_pass (o : text) (typ : media_kind) (st : list element * text) :
  opener o -> keeps o (snd st) -> keeps o (snd (media_pass typ st)).
Proof.
  intros Ho Hk. unfold media_pass. apply keeps_media_loop; [done| |done].
  apply Forall_forall. intros m Hin%list_elem_of_In.
  destruct (scan_matches _ _ _ _ _ _ Hin) as (prev & p & s & Hm).
  eapply rm_ends_match; [apply media_re_ends|exact Hm].
Qed.

Lemma keeps_expand_part (o part : text) (expanded : list element) :
  opener o -> keeps o part ->
  exists t, ELatex t ∈ expand_part expanded part /\ occurs o t.
Proof.
  intros Ho Hk. unfold expand_part.
  pose proof (keeps_strip _ _ Ho Hk) as Hks.
  rewrite (keeps_truthy _ _ Ho Hks), (keeps_not_break _ _ Ho Hks). simpl.
  pose proof (keeps_media_pass o Video (media_pass Image (expanded, part)) Ho
                (keeps_media_pass o Image (expanded, part) Ho Hk)) as Hk2.
  destruct (media_pass Video (media_pass Image (expanded, part))) as [e2 p2].
  simpl in Hk2. pose proof (keeps_strip _ _ Ho Hk2) as Hk3.
  rewrite (keeps_truthy _ _ Ho Hk3).
  exists (strip p2). split; [set_solver|by apply keeps_occurs].
Qed.

(** *** Through the page-break split *)

(** A page-break directive and a directive opening cannot overlap:
    each holds a single backslash, at its start, and they differ in
    their second character. *)
Lemma no_overlap (gap w s' a o b : text) :
  gap ++ w ++ s' = a ++ o ++ b ->
  w = py "\newpage" \/ w = py "\breakpage" ->
  opener o ->
  (exists a', a = gap ++ w ++ a' /\ s' = a' ++ o ++ b)
  \/ (exists b1, gap = a ++ o ++ b1 /\ b = b1 ++ w ++ s').
Proof.
  intros Heq Hw Ho.
  destruct (Nat.le_gt_cases (length (gap ++ w)) (length a)) as [H1|H1].
  { left. rewrite app_assoc in Heq.
    destruct (app_eq_len_le _ _ _ _ Heq H1) as (k & -> & ->).
    exists k. by rewrite <- !app_assoc. }
  destruct (Nat.le_gt_cases (length (a ++ o)) (length gap)) as [H2|H2].
  { right. symmetry in Heq. rewrite app_assoc in Heq.
    destruct (app_eq_len_le _ _ _ _ Heq H2) as (k & -> & Hb).
    exists k. by rewrite <- app_assoc. }
  exfalso. rewrite !length_app in *.
  assert (Hlook : forall i, (gap ++ w ++ s') !! i = (a ++ o ++ b) !! i) by (by rewrite Heq).
  assert (Hwlen : 2 <= length w) by (destruct Hw as [-> | ->]; simpl; lia).
  assert (Holen : 2 <= length o)
    by (destruct Ho as [-> | [-> | [-> | [-> | ->]]]]; simpl; lia).
  destruct (Nat.le_gt_cases (length gap) (length a)) as [H3|H3].
  - pose proof (Hlook (length a)) as Hk.
    rewrite (lookup_app_r gap), (lookup_app_l w) in Hk by lia.
    rewrite (lookup_app_r a), Nat.sub_diag, (lookup_app_l o) in Hk by lia.
    assert (Hk0 : length a - length gap = 0).
    { remember (length a - length gap) as k eqn:Ek. clear -Hk Hw Ho.
      destruct Hw as [-> | ->]; destruct Ho as [-> | [-> | [-> | [-> | ->]]]];
        small_index k Hk. }
    pose proof (Hlook (S (length a))) as Hk1.
    rewrite (lookup_app_r gap), (lookup_app_l w) in Hk1 by lia.
    rewrite (lookup_app_r a), (lookup_app_l o) in Hk1 by lia.
    replace (S (length a) - length gap) with 1 in Hk1 by lia.
    replace (S (length a) - length a) with 1 in Hk1 by lia.
    clear -Hk1 Hw Ho.
    destruct Hw as [-> | ->]; destruct Ho as [-> | [-> | [-> | [-> | ->]]]];
      vm_compute in Hk1; discriminate.
  - pose proof (Hlook (length gap)) as Hk.
    rewrite (lookup_app_r gap), Nat.sub_diag, (lookup_app_l w) in Hk by lia.
    rewrite (lookup_app_r a), (lookup_app_l o) in Hk by lia.
    assert (Hk0 : 0 < length gap - length a < length o) by lia.
    remember (length gap - length a) as k eqn:Ek. clear -Hk Hk0 Hw Ho.
    destruct Hw as [-> | ->]; destruct Ho as [-> | [-> | [-> | [-> | ->]]]];
        small_index k Hk.
Qed.

Lemma keeps_split_loop (o : text) (p : nat) (s : text) (ms : list mtch) :
  opener o ->
  chain break_re p s ms ->
  forall t0, keeps o s -> length t0 = p ->
    exists part, part ∈ split_loop (t0 ++ s) ms p /\ keeps o part.
Proof.
  intros Ho. induction 1 as [p s|p s gap prev m s' ms Hm Hs Hrest IH]; intros t0 Hk Hlen.
  - exists s. simpl. rewrite <- Hlen, drop_app_length.
    split; [apply elem_of_cons; by left|done].
  - destruct (chain_start _ _ s _ _ _ _ Hm) as [Hstart Hend].
    destruct (break_re_match _ _ _ _ Hm) as [Hw _].
    destruct Hk as (a & b & Heq & Hb). rewrite Hs in Heq.
    cbn [split_loop]. rewrite Hstart, Hend. subst s. rewrite slice_gap by done.
    destruct (no_overlap _ _ _ _ _ _ Heq Hw Ho) as [(a' & -> & Hs')|(b1 & Hgap & Hbb)].
    + destruct (IH (t0 ++ gap ++ m_text m)) as (part & Hin & Hpart).
      { exists a', b. done. }
      { rewrite !length_app. lia. }
      exists part. split; [|done]. rewrite <- !app_assoc in Hin.
      rewrite !elem_of_cons. auto.
    + exists gap. split; [apply elem_of_cons; by left|]. exists a, b1. split; [done|].
      subst b. intros H. apply Hb. rewrite elem_of_app. by left.
Qed.

Lemma keeps_split (o t : text) :
  opener o -> keeps o t -> exists part, part ∈ re_split break_re t /\ keeps o part.
Proof.
  intros Ho Hk.
  pose proof (finditer_chain break_re break_re_nonempty t) as Hchain.
  by destruct (keeps_split_loop o _ _ _ Ho Hchain [] Hk eq_refl) as (part & Hin & Hpart); eauto.
Qed.

(** *** Through the whole second pass *)

Lemma expand_part_mono (expanded : list element) (part : text) (e : element) :
  e ∈ expanded -> e ∈ expand_part expanded part.
Proof. intros H. rewrite (proj1 (expand_part_app expanded part)). set_solver. Qed.

Lemma keeps_fold_parts (o : text) (parts : list text) :
  opener o ->
  forall expanded part, part ∈ parts -> keeps o part ->
    exists t, ELatex t ∈ fold_left expand_part parts expanded /\ occurs o t.
Proof.
  intros Ho. induction parts as [|p parts IH]; intros expanded part Hin Hk.
  - by apply elem_of_nil in Hin.
  - simpl. apply elem_of_cons in Hin as [<-|Hin]; [|by eapply IH].
    destruct (keeps_expand_part o part expanded Ho Hk) as (t & Ht & Hocc).
    exists t. split; [|done]. clear -Ht. revert Ht.
    generalize (expand_part expanded part). induction parts as [|q parts IH]; intros acc Hacc.
    + done.
    + simpl. by apply IH, expand_part_mono.
Qed.

Lemma keeps_expand_element (o t : text) (expanded : list element) :
  opener o -> keeps o t ->
  exists t', ELatex t' ∈ expand_element expanded (ELatex t) /\ occurs o t'.
Proof.
  intros Ho Hk. unfold expand_element.
  pose proof (keeps_sub o t expanded Ho Hk) as Hk1.
  destruct (re_sub inline_re repl_inline t expanded) as [t1 e1]. simpl in Hk1.
  destruct (keeps_split o t1 Ho Hk1) as (part & Hin & Hpart).
  by eapply keeps_fold_parts.
Qed.

(** ** The worked example: one image directive in plain text *)

Lemma directive_match (prev : option N) (p : nat) (s : text) :
  match_at (media_re Image) prev p (image_directive ++ s)
  = Some (Mtch p (p + 26) image_directive [(2, py "foo.png"); (1, py "width=50%")]).
Proof. reflexivity. Qed.

Lemma directive_tail_plain : 92%N ∉ py "image[width=50%]{foo.png}".
Proof. not_in_text. Qed.

Lemma directive_cons : image_directive = 92%N :: py "image[width=50%]{foo.png}".
Proof. reflexivity. Qed.

(** The source: the directive between two stretches without
    backslashes. *)
Section Example.
Variables a b : text.
Hypothesis a_plain : 92%N ∉ a.
Hypothesis b_plain : 92%N ∉ b.

Lemma example_tail_plain : 92%N ∉ py "image[width=50%]{foo.png}" ++ b.
Proof. rewrite elem_of_app. pose proof directive_tail_plain. tauto. Qed.

Lemma example_no_match (r : regex) :
  starts_bs r ->
  (forall prev p s, match_at r prev p (image_directive ++ s) = None) ->
  re_finditer r (a ++ image_directive ++ b) = [].
Proof.
  intros Hbs Hnone. unfold re_finditer. rewrite directive_cons. cbn [app].
  apply scan_one_bs; [done|done|apply example_tail_plain|].
  intros prev p. apply (Hnone prev p b).
Qed.

Lemma example_block : re_finditer block_re (a ++ image_directive ++ b) = [].
Proof. apply example_no_match; [apply block_re_bs|by intros]. Qed.

Lemma example_inline : re_finditer inline_re (a ++ image_directive ++ b) = [].
Proof. apply example_no_match; [apply inline_re_bs|by intros]. Qed.

Lemma example_break : re_finditer break_re (a ++ image_directive ++ b) = [].
Proof. apply example_no_match; [apply break_re_bs|by intros]. Qed.

Lemma example_image :
  re_finditer (media_re Image) (a ++ image_directive ++ b)
  = [Mtch (length a) (length a + 26) image_directive [(2, py "foo.png"); (1, py "width=50%")]].
Proof.
  unfold re_finditer.
  destruct (scan_plain _ (media_re_bs Image) a (image_directive ++ b) None 0 a_plain)
    as [prev ->].
  destruct (scan_hit _ image_directive b prev (0 + length a) _
              (directive_match prev (0 + length a) b) eq_refl) as [prev' ->]; [done|].
  by rewrite (scan_plain_end _ (media_re_bs Image) b).
Qed.

Lemma example_video : re_finditer (media_re Video) (a ++ b) = [].
Proof.
  apply scan_plain_end; [apply media_re_bs|]. rewrite elem_of_app. tauto.
Qed.

Lemma example_not_break : is_break (strip (a ++ image_directive ++ b)) = false.
Proof.
  destruct (strip_keep a (py "image[width=50%]{foo.png") b 92%N 125%N eq_refl eq_refl)
    as (ws1 & a' & b' & ws2 & _ & _ & Hs).
  change (a ++ 92%N :: py "image[width=50%]{foo.png" ++ 125%N :: b)
    with (a ++ image_directive ++ b) in Hs. rewrite Hs.
  apply (not_break_elem _ 125%N); [|not_in_text|not_in_text].
  rewrite !elem_of_app, !elem_of_cons, !elem_of_app, !elem_of_cons. tauto.
Qed.

Lemma example_truthy : truthy (strip (a ++ image_directive ++ b)) = true.
Proof.
  destruct (strip_keep a (py "image[width=50%]{foo.png") b 92%N 125%N eq_refl eq_refl)
    as (ws1 & a' & b' & ws2 & _ & _ & Hs).
  change (a ++ 92%N :: py "image[width=50%]{foo.png" ++ 125%N :: b)
    with (a ++ image_directive ++ b) in Hs. rewrite Hs. by destruct a'.
Qed.

(** What the part that holds the directive expands to. *)
Lemma example_expand_part :
  expand_part [] (a ++ image_directive ++ b)
  = EMedia Image (py "foo.png") (Some (py "50%")) None None
    :: (if truthy (strip (a ++ b)) then [ELatex (strip (a ++ b))] else []).
Proof.
  unfold expand_part. rewrite example_truthy, example_not_break. cbn [negb].
  unfold media_pass at 2. cbn [fst snd]. rewrite example_image. cbn [media_loop].
  replace (parse_media _ Image)
    with (EMedia Image (py "foo.png") (Some (py "50%")) None None)
    by (vm_compute; reflexivity).
  cbn [group m_text]. rewrite directive_cons.
  rewrite (replace_empty_once 92%N _ a b a_plain b_plain).
  unfold media_pass. cbn [fst snd]. rewrite example_video. cbn [media_loop app].
  by destruct (truthy (strip (a ++ b))).
Qed.
End Example.

Lemma example_parse (pre post : text) :
  92%N ∉ pre -> 92%N ∉ post ->
  exists a b,
    fst (parse_latex (pre ++ image_directive ++ post))
    = EMedia Image (py "foo.png") (Some (py "50%")) None None
      :: (if truthy (strip (a ++ b)) then [ELatex (strip (a ++ b))] else []).
Proof.
  intros Hpre Hpost. unfold parse_latex, first_pass. cbn [fst].
  rewrite (example_block pre post Hpre Hpost). cbn [first_pass_loop]. rewrite drop_0.
  rewrite (example_truthy pre post). cbn [app fold_left].
  destruct (strip_keep pre (py "image[width=50%]{foo.png") post 92%N 125%N eq_refl eq_refl)
    as (ws1 & a & b & ws2 & Ha & Hb & Hs).
  change (pre ++ 92%N :: py "image[width=50%]{foo.png" ++ 125%N :: post)
    with (pre ++ image_directive ++ post) in Hs. rewrite Hs.
  change (a ++ 92%N :: py "image[width=50%]{foo.png" ++ 125%N :: b)
    with (a ++ image_directive ++ b).
  assert (Ha' : 92%N ∉ a) by (subst pre; rewrite elem_of_app in Hpre; tauto).
  assert (Hb' : 92%N ∉ b) by (subst post; rewrite elem_of_app in Hpost; tauto).
  exists a, b. unfold expand_element, re_sub, re_split.
  rewrite (example_inline a b Ha' Hb'). cbn [sub_loop app]. rewrite drop_0.
  rewrite (example_break a b Ha' Hb'). cbn [split_loop fold_left]. rewrite drop_0.
  by apply example_expand_part.
Qed.

(** ** The dispatch loop *)

Section Dispatch.
Variable w : World.

(** A step that returns has appended the element's entry. *)
Lemma dispatch_step_entry i el sequence tmp sequence' tmp' :
  dispatch_step w i el (sequence, tmp) = Ok (sequence', tmp') ->
  sequence' = sequence ++ [entry_of w i el].
Proof.
  destruct el as [txt|code| |typ file wd ht sc]; cbn [dispatch_step entry_of].
  - unfold render_latex_to_svg, check_run.
    destruct (Z.eqb (fst (latex_run w txt)) 0); cbn [andb]; [|by intros [= <- _]].
    destruct (Z.eqb (fst (dvisvgm_run w txt)) 0); by intros [= <- _].
  - unfold run_manim. destruct (manim_clip w i code); by intros [= <- _].
  - by intros [= <- _].
  - destruct (path_exists w file); [|by intros [= <- _]].
    unfold shutil_copy. destruct (copy_source w file); [|done]. by intros [= <- _].
Qed.

(** A step returns unless its media file exists and cannot be copied. *)
Lemma dispatch_step_ok i el sequence tmp :
  copyable w el ->
  exists tmp', dispatch_step w i el (sequence, tmp) = Ok (sequence ++ [entry_of w i el], tmp').
Proof.
  intros Hel.
  assert (H : exists st, dispatch_step w i el (sequence, tmp) = Ok st).
  { destruct el as [txt|code| |typ file wd ht sc]; cbn [dispatch_step].
    - unfold render_latex_to_svg, check_run.
      destruct (Z.eqb (fst (latex_run w txt)) 0); [|eauto].
      destruct (Z.eqb (fst (dvisvgm_run w txt)) 0); eauto.
    - unfold run_manim. destruct (manim_clip w i code); eauto.
    - eauto.
    - simpl in Hel. destruct (path_exists w file); [|eauto].
      destruct (Hel eq_refl) as [content Hc]. unfold shutil_copy. rewrite Hc. eauto. }
  destruct H as [[sequence' tmp'] H]. rewrite H.
  apply dispatch_step_entry in H as ->. eauto.
Qed.

Lemma dispatch_step_raises i el sequence tmp e :
  copy_raises w el e -> dispatch_step w i el (sequence, tmp) = Raise e.
Proof.
  destruct el as [txt|code| |typ file wd ht sc]; try done.
  intros [Hex Hc]. cbn [dispatch_step]. unfold shutil_copy. by rewrite Hex, Hc.
Qed.

Lemma dispatch_step_copyable i el st st' :
  dispatch_step w i el st = Ok st' -> copyable w el.
Proof.
  destruct st as [sequence tmp]. destruct el as [txt|code| |typ file wd ht sc]; try done.
  cbn [dispatch_step copyable]. intros H Hex. rewrite Hex in H. unfold shutil_copy in H.
  destruct (copy_source w file) as [content|e]; [eauto|done].
Qed.

Lemma dispatch_loop_entries els : forall i sequence tmp sequence' tmp',
  dispatch_loop w i els (sequence, tmp) = Ok (sequence', tmp') ->
  sequence' = sequence ++ imap (fun j => entry_of w (i + j)) els.
Proof.
  induction els as [|el els IH]; intros i sequence tmp sequence' tmp'; cbn [dispatch_loop].
  - intros [= <- _]. simpl. by rewrite app_nil_r.
  - destruct (dispatch_step w i el (sequence, tmp)) as [[s1 t1]|e] eqn:Hstep; [|done].
    cbn [bind]. intros Hrest. apply dispatch_step_entry in Hstep as ->.
    apply IH in Hrest as ->. rewrite <- app_assoc. simpl. rewrite Nat.add_0_r.
    do 2 f_equal. apply imap_ext. intros j x _. simpl. f_equal. lia.
Qed.

Lemma dispatch_loop_ok els : forall i sequence tmp,
  Forall (copyable w) els ->
  exists tmp',
    dispatch_loop w i els (sequence, tmp)
    = Ok (sequence ++ imap (fun j => entry_of w (i + j)) els, tmp').
Proof.
  induction els as [|el els IH]; intros i sequence tmp Hels; cbn [dispatch_loop].
  - exists tmp. simpl. by rewrite app_nil_r.
  - inversion Hels as [|? ? Hel Hels']; subst.
    destruct (dispatch_step_ok i el sequence tmp Hel) as [t1 ->]. cbn [bind].
    destruct (IH (S i) (sequence ++ [entry_of w i el]) t1 Hels') as [t2 ->].
    exists t2. rewrite <- app_assoc. simpl. rewrite Nat.add_0_r.
    do 3 f_equal. f_equal. apply imap_ext. intros j x _. simpl. f_equal. lia.
Qed.

Lemma dispatch_loop_copyable els : forall i st st',
  dispatch_loop w i els st = Ok st' -> Forall (copyable w) els.
Proof.
  induction els as [|el els IH]; intros i st st'; cbn [dispatch_loop]; [constructor|].
  destruct (dispatch_step w i el st) as [st1|e] eqn:Hstep; [|done]. cbn [bind].
  intros Hrest. constructor; [by eapply dispatch_step_copyable|by eapply IH].
Qed.

Lemma dispatch_ok els :
  Forall (copyable w) els -> exists tmp, dispatch w els = Ok (imap (entry_of w) els, tmp).
Proof.
  intros Hels. unfold dispatch. destruct (dispatch_loop_ok els 0 [] ∅ Hels) as [t ->].
  exists t. reflexivity.
Qed.

Lemma dispatch_entries els sequence tmp :
  dispatch w els = Ok (sequence, tmp) -> sequence = imap (entry_of w) els.
Proof. intros H. by apply dispatch_loop_entries in H. Qed.

Lemma dispatch_copyable els st : dispatch w els = Ok st -> Forall (copyable w) els.
Proof. apply dispatch_loop_copyable. Qed.

Lemma dispatch_loop_app els1 els2 i st :
  dispatch_loop w i (els1 ++ els2) st
  = (st' <- dispatch_loop w i els1 st ;; dispatch_loop w (i + length els1) els2 st').
Proof.
  revert i st. induction els1 as [|el els1 IH]; intros i st; cbn [dispatch_loop app length].
  - by rewrite Nat.add_0_r.
  - destruct (dispatch_step w i el st) as [st'|e]; cbn [bind]; [|done].
    rewrite IH. do 2 f_equal. lia.
Qed.

(** The run raises at the first media file that exists and cannot be
    copied. *)
Lemma dispatch_raises pre el post e :
  Forall (copyable w) pre -> copy_raises w el e -> dispatch w (pre ++ el :: post) = Raise e.
Proof.
  intros Hpre Hel. unfold dispatch. rewrite dispatch_loop_app.
  destruct (dispatch_loop_ok pre 0 [] ∅ Hpre) as [t ->]. cbn [bind dispatch_loop].
  by rewrite (dispatch_step_raises _ el _ t e Hel).
Qed.

(** A run that completes has completed on every prefix. *)
Lemma dispatch_prefix els1 els2 st :
  dispatch w (els1 ++ els2) = Ok st -> exists st1, dispatch w els1 = Ok st1.
Proof.
  intros H%dispatch_copyable. apply Forall_app in H as [H1 _].
  destruct (dispatch_ok els1 H1) as [t Ht]. eauto.
Qed.
End Dispatch.

(** ** The temporary directory *)

Lemma left_in_frame (dir : text) (files tmp : gmap text text) (rel : text) :
  (forall name, rel <> dir ++ name) -> left_in dir files tmp !! rel = tmp !! rel.
Proof.
  intros Hrel. unfold left_in. apply lookup_union_r.
  apply lookup_kmap_None; [apply _|]. intros name ->. by destruct (Hrel name).
Qed.

Lemma copy_path_head (rel : text) :
  copy_path rel -> head rel = Some 118%N \/ head rel = Some 105%N.
Proof. intros ([|] & name & ->); [by right|by left]. Qed.

Lemma copy_path_media (typ : media_kind) (file : text) : copy_path (media_rel typ file).
Proof. exists typ, (path_name file). by destruct typ. Qed.

Lemma copy_path_scene (i : nat) : copy_path (scene_rel i).
Proof. by exists Video, (py "scene_" ++ str_of_nat i ++ py ".mp4"). Qed.

Lemma head_differs (x y : N) (t u : text) : head t = Some x -> head u = Some y -> x <> y -> t <> u.
Proof. intros Ht Hu Hxy ->. rewrite Ht in Hu. by injection Hu. Qed.

Section Frame.
Variable w : World.
Variable rel : text.
Hypothesis rel_copy : copy_path rel.

Lemma copy_path_not (c : N) (t : text) : c <> 118%N -> c <> 105%N -> rel <> c :: t.
Proof.
  intros Hv Hi ->. by destruct (copy_path_head _ rel_copy) as [[= ?]|[= ?]].
Qed.

(** [render_latex_to_svg] touches files in latex/ only. *)
Lemma render_frame (txt : text) (i : nat) (tmp : gmap text text) :
  fst (render_latex_to_svg w txt (latex_rel i) tmp) !! rel = tmp !! rel.
Proof.
  assert (Hl : forall t, rel <> 108%N :: t) by (intros t; by apply copy_path_not).
  assert (Htmp : left_in (py "latex/") (latex_leaves w txt)
                   (<[py "latex/temp.tex" := temp_tex txt]> tmp) !! rel = tmp !! rel).
  { rewrite left_in_frame by (intros name; apply Hl).
    apply lookup_insert_ne. intros H. symmetry in H. by apply Hl in H. }
  unfold render_latex_to_svg. destruct (check_run (latex_run w txt)); cbn [fst]; [|done].
  assert (Hne : latex_rel i <> rel) by (intros H; symmetry in H; by apply Hl in H).
  destruct (dvisvgm_svg w txt).
  - by rewrite lookup_insert_ne.
  - by rewrite lookup_delete_ne.
Qed.

(** [run_manim] touches files in the scene directory only. *)
Lemma run_manim_frame (code : text) (i : nat) (tmp : gmap text text) :
  fst (run_manim w code i tmp) !! rel = tmp !! rel.
Proof.
  assert (Hs : forall t, rel <> 115%N :: t) by (intros t; by apply copy_path_not).
  unfold run_manim. cbn [fst].
  rewrite left_in_frame by (intros name; apply Hs).
  apply lookup_insert_ne. intros H. symmetry in H. by apply Hs in H.
Qed.

Lemma store_lookup (o : option (text * text)) (tmp tmp' : gmap text text) :
  tmp !! rel = tmp' !! rel -> store o tmp !! rel = store o tmp' !! rel.
Proof.
  intros H. destruct o as [[r c]|]; [|done]. cbn [store].
  destruct (decide (r = rel)) as [->|Hne].
  - by rewrite !lookup_insert_eq.
  - by rewrite !lookup_insert_ne.
Qed.

(** In videos/ and images/ a step does what [copied] says. *)
Lemma dispatch_step_copies i el sequence tmp sequence' tmp' :
  dispatch_step w i el (sequence, tmp) = Ok (sequence', tmp') ->
  tmp' !! rel = store (copied w i el) tmp !! rel.
Proof.
  destruct el as [txt|code| |typ file wd ht sc]; cbn [dispatch_step copied store].
  - pose proof (render_frame txt i tmp) as Hf.
    destruct (render_latex_to_svg w txt (latex_rel i) tmp) as [t1 r]. cbn [fst] in Hf.
    destruct r as [[]|[]]; try done; by intros [= _ <-].
  - pose proof (run_manim_frame code i tmp) as Hf. unfold run_manim in *. cbn [fst] in Hf.
    destruct (manim_clip w i code) as [clip|]; intros [= _ <-]; cbn [store]; [|done].
    destruct (decide (scene_rel i = rel)) as [->|Hne].
    + by rewrite !lookup_insert_eq.
    + by rewrite !lookup_insert_ne.
  - by intros [= _ <-].
  - unfold disk_read, shutil_copy. destruct (path_exists w file); [|by intros [= _ <-]].
    destruct (copy_source w file) as [content|e]; [|done]. by intros [= _ <-].
Qed.

Lemma dispatch_loop_copies els : forall i sequence tmp tmpc sequence' tmp',
  tmp !! rel = tmpc !! rel ->
  dispatch_loop w i els (sequence, tmp) = Ok (sequence', tmp') ->
  tmp' !! rel = copies_after w i els tmpc !! rel.
Proof.
  induction els as [|el els IH]; intros i sequence tmp tmpc sequence' tmp' Hagree;
    cbn [dispatch_loop copies_after].
  - by intros [= _ <-].
  - destruct (dispatch_step w i el (sequence, tmp)) as [[s1 t1]|e] eqn:Hstep; [|done].
    cbn [bind]. apply IH. rewrite (dispatch_step_copies _ _ _ _ _ _ Hstep).
    by apply store_lookup.
Qed.

Lemma dispatch_copies els sequence tmp :
  dispatch w els = Ok (sequence, tmp) -> tmp !! rel = copies_after w 0 els ∅ !! rel.
Proof. by apply dispatch_loop_copies. Qed.
End Frame.

(** ** The last component of a path *)

Lemma text_eqb_refl (a : text) : text_eqb a a = true.
Proof. by apply text_eqb_eq. Qed.

Lemma text_eqb_neq (a b : text) : a <> b -> text_eqb a b = false.
Proof. intros H. destruct (text_eqb a b) eqn:E; [|done]. by apply text_eqb_eq in E. Qed.

Lemma split_slash_app (t s : text) : forall cur,
  split_slash (t ++ 47%N :: s) cur = split_slash t cur ++ split_slash s [].
Proof.
  induction t as [|c t IH]; intros cur; [done|]. cbn [app split_slash].
  destruct (N.eqb c 47); [|apply IH]. by rewrite IH.
Qed.

Lemma split_slash_plain (t : text) : forall cur,
  47%N ∉ t -> split_slash t cur = [rev cur ++ t].
Proof.
  induction t as [|c t IH]; intros cur Ht; cbn [split_slash].
  - by rewrite app_nil_r.
  - destruct (N.eqb_spec c 47) as [->|_]; [exfalso; apply Ht; by left|].
    rewrite IH by (intros H; apply Ht; by right). simpl. by rewrite <- app_assoc.
Qed.

(** [Path(file).name] is what follows the last slash. *)
Lemma path_name_basename (file name : text) : basename_of file name -> path_name file = name.
Proof.
  intros (Hfile & Hslash & Hne & Hdot).
  assert (Hkeep : negb (text_eqb name []) && negb (text_eqb name (py ".")) = true).
  { by rewrite !text_eqb_neq. }
  unfold path_name, path_parts. destruct Hfile as [->|[dir ->]].
  - rewrite split_slash_plain by done. cbn [rev app].
    rewrite filter_cons_True by (by rewrite Hkeep). by rewrite filter_nil.
  - change (py "/" ++ name) with (47%N :: name).
    rewrite split_slash_app, (split_slash_plain name) by done. cbn [rev app].
    rewrite filter_app, filter_cons_True by (by rewrite Hkeep).
    rewrite filter_nil. apply last_last.
Qed.

(** ** Claims about the dispatch loop and the manifest *)

Lemma entry_of_local (w w' : World) (i : nat) (el : element) :
  same_outcome w w' i el -> entry_of w i el = entry_of w' i el.
Proof.
  destruct el as [t|c| |typ file wd ht sc]; simpl; try done.
  - by intros [-> ->].
  - by intros ->.
Qed.

Lemma disk_read_Some (w : World) (p content : text) :
  disk_read w p = Some content -> path_exists w p = true /\ copy_source w p = Ok content.
Proof.
  unfold disk_read. destruct (path_exists w p); [|done].
  destruct (copy_source w p); [|done]. by intros [= ->].
Qed.

Lemma disk_read_copyable (w : World) (typ : media_kind) (file content : text)
    (wd ht sc : option text) :
  disk_read w file = Some content -> copyable w (EMedia typ file wd ht sc).
Proof. intros [_ H]%disk_read_Some _. eauto. Qed.

(** A build that returns has the manifest of the parsed elements. *)
Lemma build_entries (w : World) (tex : text) (meta : manifest) (bundle : gmap text text) :
  build w tex = Ok (meta, bundle) ->
  meta = Manifest (snd (parse_latex tex)) (imap (entry_of w) (fst (parse_latex tex))).
Proof.
  unfold build. destruct (parse_latex tex) as [els lay]. cbn [fst snd].
  destruct (dispatch w els) as [[sequence tmp]|e] eqn:Hd; [|done]. cbn [bind fst snd].
  intros [= <- _]. by rewrite (dispatch_entries _ _ _ _ Hd).
Qed.

Lemma build_ok (w : World) (tex : text) :
  Forall (copyable w) (fst (parse_latex tex)) ->
  exists bundle,
    build w tex
    = Ok (Manifest (snd (parse_latex tex)) (imap (entry_of w) (fst (parse_latex tex))), bundle).
Proof.
  unfold build. destruct (parse_latex tex) as [els lay]. cbn [fst snd]. intros Hels.
  destruct (dispatch_ok w els Hels) as [b ->]. simpl. by exists b.
Qed.

Lemma build_copyable (w : World) (tex : text) (r : manifest * gmap text text) :
  build w tex = Ok r -> Forall (copyable w) (fst (parse_latex tex)).
Proof.
  unfold build. destruct (parse_latex tex) as [els lay]. cbn [fst snd].
  destruct (dispatch w els) as [st|e] eqn:Hd; [|done]. intros _.
  by eapply dispatch_copyable.
Qed.

(** C1: a manifest is written exactly when no media file that exists
    fails to be copied (such a copy raises, and main with it).  The
    manifest's sequence then has exactly one entry per segmented
    element, and the entry at index [i] is the artifact of the [i]-th
    element: it is determined by that element, its index and the outcome
    of its own converter, so a failure elsewhere neither shifts, drops
    nor alters it. *)
Theorem manifest_sequence_aligned (w : World) (tex : text) :
  (Forall (copyable w) (fst (parse_latex tex))
   <-> exists meta bundle, build w tex = Ok (meta, bundle))
  /\ forall meta bundle,
       build w tex = Ok (meta, bundle) ->
       length (mf_sequence meta) = length (fst (parse_latex tex))
       /\ (forall i el, fst (parse_latex tex) !! i = Some el ->
             mf_sequence meta !! i = Some (entry_of w i el))
       /\ (forall w' meta' bundle' i el,
             build w' tex = Ok (meta', bundle') ->
             fst (parse_latex tex) !! i = Some el ->
             same_outcome w w' i el ->
             mf_sequence meta' !! i = mf_sequence meta !! i).
Proof.
  split.
  - split.
    + intros Hels. destruct (build_ok w tex Hels) as [b Hb]. eauto.
    + intros (meta & bundle & Hb). by eapply build_copyable.
  - intros meta bundle Hb. rewrite (build_entries _ _ _ _ Hb). cbn [mf_sequence].
    split; [by rewrite length_imap|]. split.
    + intros i el Hi. by rewrite list_lookup_imap, Hi.
    + intros w' meta' b' i el Hb' Hi Hsame. rewrite (build_entries _ _ _ _ Hb').
      cbn [mf_sequence]. rewrite !list_lookup_imap, Hi. simpl. f_equal. symmetry.
      by apply entry_of_local.
Qed.

Lemma py_inj (s1 s2 : string) : py s1 = py s2 -> s1 = s2.
Proof.
  unfold py. intros H.
  rewrite <- (string_of_list_ascii_of_string s1), <- (string_of_list_ascii_of_string s2).
  f_equal. revert H. generalize (list_ascii_of_string s1) (list_ascii_of_string s2).
  induction l as [|a l IH]; intros [|a' l']; simpl; try done.
  intros H. injection H as Ha Hl. f_equal; [|by apply IH].
  by rewrite <- (ascii_N_embedding a), <- (ascii_N_embedding a'), Ha.
Qed.

(** The decimal rendering of an index determines the index. *)
Lemma str_of_nat_inj (i j : nat) : str_of_nat i = str_of_nat j -> i = j.
Proof.
  unfold str_of_nat. intros H%py_inj.
  assert (Hu : Nat.to_uint i = Nat.to_uint j).
  { apply (f_equal NilEmpty.uint_of_string) in H.
    rewrite !NilEmpty.usu in H. by injection H. }
  apply (f_equal Nat.of_uint) in Hu. by rewrite !DecimalNat.Unsigned.of_to in Hu.
Qed.

Lemma entry_of_failure (w : World) (k : nat) (el : element) :
  converter_fails w k el ->
  entry_of w k el = SError (latex_error k) \/ entry_of w k el = SError (manim_error k).
Proof.
  destruct el as [t|c| |typ file wd ht sc]; simpl; try done.
  - intros [H|H]; left.
    + apply Z.eqb_neq in H. by rewrite H.
    + apply Z.eqb_neq in H. rewrite H. by rewrite andb_false_r.
  - intros H. right. unfold manim_clip, check_run.
    apply Z.eqb_neq in H. by rewrite H.
Qed.

Lemma converter_fails_copyable (w : World) (k : nat) (el : element) :
  converter_fails w k el -> copyable w el.
Proof. by destruct el. Qed.

(** The two error messages name their index. *)
Lemma error_message_index (j k : nat) (msg : text) :
  msg = latex_error k \/ msg = manim_error k ->
  msg = latex_error j \/ msg = manim_error j -> j = k.
Proof.
  unfold latex_error, manim_error. intros [-> | ->] [H|H].
  - apply app_inv_head in H. symmetry. by apply str_of_nat_inj.
  - apply (f_equal head) in H. discriminate H.
  - apply (f_equal head) in H. discriminate H.
  - apply app_inv_head in H. symmetry. by apply str_of_nat_inj.
Qed.

(** C5: when the converter of the element at index [k] exits with a
    non-zero status, the element's step does not raise: it appends an
    error entry whose message ends in the decimal index [k], from which
    the index can be read back, and the loop goes on.  In every run
    that completes, position [k] holds this entry and every later
    element has its own artifact; the run completes unless a media file
    that exists cannot be copied. *)
Theorem converter_failure_isolated (w : World) (els : list element) (k : nat) (el : element) :
  els !! k = Some el ->
  converter_fails w k el ->
  exists msg,
    (msg = py "LaTeX render failed for block " ++ str_of_nat k
     \/ msg = py "Manim render failed snippet " ++ str_of_nat k)
    /\ (forall j, msg = py "LaTeX render failed for block " ++ str_of_nat j
                   \/ msg = py "Manim render failed snippet " ++ str_of_nat j -> j = k)
    /\ (forall sequence tmp, exists tmp',
          dispatch_step w k el (sequence, tmp) = Ok (sequence ++ [SError msg], tmp'))
    /\ (forall sequence tmp,
          dispatch w els = Ok (sequence, tmp) ->
          length sequence = length els
          /\ sequence !! k = Some (SError msg)
          /\ forall j el', k < j -> els !! j = Some el' ->
               sequence !! j = Some (entry_of w j el'))
    /\ (Forall (copyable w) els -> exists sequence tmp, dispatch w els = Ok (sequence, tmp)).
Proof.
  intros Hk Hfail.
  assert (Hmsg : exists msg, (msg = latex_error k \/ msg = manim_error k)
                             /\ entry_of w k el = SError msg).
  { destruct (entry_of_failure w k el Hfail) as [He|He]; eauto. }
  destruct Hmsg as (msg & Hmsg & He). exists msg. split; [exact Hmsg|]. split.
  { intros j Hj. by apply (error_message_index j k msg). }
  split.
  { intros sequence tmp.
    destruct (dispatch_step_ok w k el sequence tmp (converter_fails_copyable _ _ _ Hfail))
      as [tmp' Hstep]. exists tmp'. by rewrite Hstep, He. }
  split.
  - intros sequence tmp Hrun. rewrite (dispatch_entries _ _ _ _ Hrun).
    split; [by rewrite length_imap|]. split.
    + by rewrite list_lookup_imap, Hk, <- He.
    + intros j el' _ Hj. by rewrite list_lookup_imap, Hj.
  - intros Hels. destruct (dispatch_ok w els Hels) as [tmp Hrun]. eauto.
Qed.

Lemma converter_failure_isolated_witness :
  exists msg,
    (msg = py "LaTeX render failed for block 1" \/ msg = py "Manim render failed snippet 1")
    /\ (forall j, msg = py "LaTeX render failed for block " ++ str_of_nat j
                   \/ msg = py "Manim render failed snippet " ++ str_of_nat j -> j = 1)
    /\ (forall sequence tmp, exists tmp',
          dispatch_step failing_world 1 (ELatex (py "\oops")) (sequence, tmp)
          = Ok (sequence ++ [SError msg], tmp'))
    /\ (forall sequence tmp,
          dispatch failing_world [EPagebreak; ELatex (py "\oops"); EPagebreak]
          = Ok (sequence, tmp) ->
          length sequence = 3
          /\ sequence !! 1 = Some (SError msg)
          /\ forall j el', 1 < j ->
               [EPagebreak; ELatex (py "\oops"); EPagebreak] !! j = Some el' ->
               sequence !! j = Some (entry_of failing_world j el'))
    /\ (Forall (copyable failing_world) [EPagebreak; ELatex (py "\oops"); EPagebreak] ->
        exists sequence tmp,
          dispatch failing_world [EPagebreak; ELatex (py "\oops"); EPagebreak]
          = Ok (sequence, tmp)).
Proof.
  apply (converter_failure_isolated failing_world
           [EPagebreak; ELatex (py "\oops"); EPagebreak] 1 (ELatex (py "\oops"))).
  - reflexivity.
  - simpl. left. lia.
Defined.

Lemma media_rel_dir (typ : media_kind) (file : text) :
  media_rel typ file = media_dir typ ++ path_name file.
Proof. by destruct typ. Qed.

(** C6: a media element whose source path does not exist is not
    copied and its step does not fail: the step leaves the directory as
    it was and appends an entry with the destination images/<basename>
    or videos/<basename>, the basename being what follows the last slash
    of the path.  In every run that completes the entry stands at the
    element's position; the run completes unless a media file that
    exists cannot be copied. *)
Theorem missing_media_recorded (w : World) (els : list element) (k : nat)
    (typ : media_kind) (file : text) (wd ht sc : option text) :
  els !! k = Some (EMedia typ file wd ht sc) ->
  path_exists w file = false ->
  (forall name, basename_of file name -> path_name file = name)
  /\ (forall sequence tmp,
        dispatch_step w k (EMedia typ file wd ht sc) (sequence, tmp)
        = Ok (sequence ++ [SMedia typ (media_dir typ ++ path_name file) wd ht sc], tmp))
  /\ (forall sequence tmp,
        dispatch w els = Ok (sequence, tmp) ->
        length sequence = length els
        /\ sequence !! k = Some (SMedia typ (media_dir typ ++ path_name file) wd ht sc))
  /\ (Forall (copyable w) els -> exists sequence tmp, dispatch w els = Ok (sequence, tmp)).
Proof.
  intros Hk Hmiss. split; [apply path_name_basename|]. split.
  - intros sequence tmp. simpl. rewrite Hmiss. simpl. by rewrite media_rel_dir.
  - split.
    + intros sequence tmp Hrun. rewrite (dispatch_entries _ _ _ _ Hrun).
      split; [by rewrite length_imap|].
      rewrite list_lookup_imap, Hk. simpl. by rewrite media_rel_dir.
    + intros Hels. destruct (dispatch_ok w els Hels) as [tmp Hrun]. eauto.
Qed.

Lemma missing_media_recorded_witness :
  (forall name, basename_of (py "figs/a.png") name -> path_name (py "figs/a.png") = name)
  /\ (forall sequence tmp,
        dispatch_step failing_world 0 (EMedia Image (py "figs/a.png") None None None)
          (sequence, tmp)
        = Ok (sequence ++ [SMedia Image (py "images/a.png") None None None], tmp))
  /\ (forall sequence tmp,
        dispatch failing_world [EMedia Image (py "figs/a.png") None None None]
        = Ok (sequence, tmp) ->
        length sequence = 1
        /\ sequence !! 0 = Some (SMedia Image (py "images/a.png") None None None))
  /\ (Forall (copyable failing_world) [EMedia Image (py "figs/a.png") None None None] ->
      exists sequence tmp,
        dispatch failing_world [EMedia Image (py "figs/a.png") None None None]
        = Ok (sequence, tmp)).
Proof.
  apply (missing_media_recorded failing_world
           [EMedia Image (py "figs/a.png") None None None] 0 Image (py "figs/a.png") None None None).
  - reflexivity.
  - reflexivity.
Defined.

(** The directory right after a media element whose source exists
    holds that source's content at the element's destination. *)
Lemma dispatch_media_last (w : World) (pre : list element) (typ : media_kind)
    (file : text) (wd ht sc : option text) (c : text) (sequence : list entry)
    (tmp : gmap text text) :
  disk_read w file = Some c ->
  dispatch w (pre ++ [EMedia typ file wd ht sc]) = Ok (sequence, tmp) ->
  tmp !! media_rel typ file = Some c.
Proof.
  intros [Hex Hc]%disk_read_Some. unfold dispatch. rewrite dispatch_loop_app.
  destruct (dispatch_loop w 0 pre ([], ∅)) as [[s1 t1]|e]; [|done]. cbn [bind dispatch_loop].
  unfold dispatch_step, shutil_copy. rewrite Hex, Hc. cbn [bind].
  intros [= _ <-]. apply lookup_insert_eq.
Qed.

(** C10: the destination of a media entry is the kind's directory
    followed by the basename of the source path; in a run that
    completes, two media elements of one kind with equal basenames get
    the same destination in the manifest, and once the later one is
    processed the destination holds the later source's content in place
    of the earlier one's.  The run completes unless a media file that
    exists cannot be copied. *)
Theorem media_destination_by_basename (w : World) (els : list element) (i j : nat)
    (typ : media_kind) (f1 f2 : text) (wd1 ht1 sc1 wd2 ht2 sc2 : option text) (c1 c2 : text) :
  i < j ->
  els !! i = Some (EMedia typ f1 wd1 ht1 sc1) ->
  els !! j = Some (EMedia typ f2 wd2 ht2 sc2) ->
  path_name f1 = path_name f2 ->
  disk_read w f1 = Some c1 ->
  disk_read w f2 = Some c2 ->
  (forall sequence tmp,
     dispatch w els = Ok (sequence, tmp) ->
     sequence !! i = Some (SMedia typ (media_dir typ ++ path_name f1) wd1 ht1 sc1)
     /\ sequence !! j = Some (SMedia typ (media_dir typ ++ path_name f1) wd2 ht2 sc2)
     /\ (exists s1 b1, dispatch w (take (S i) els) = Ok (s1, b1)
                       /\ b1 !! (media_dir typ ++ path_name f1) = Some c1)
     /\ (exists s2 b2, dispatch w (take (S j) els) = Ok (s2, b2)
                       /\ b2 !! (media_dir typ ++ path_name f1) = Some c2))
  /\ (Forall (copyable w) els -> exists sequence tmp, dispatch w els = Ok (sequence, tmp)).
Proof.
  intros Hij Hi Hj Hname Hc1 Hc2. split.
  - intros sequence tmp Hrun. rewrite (dispatch_entries _ _ _ _ Hrun).
    rewrite !list_lookup_imap, Hi, Hj. simpl. rewrite !media_rel_dir, <- Hname.
    split; [done|]. split; [done|].
    assert (Hpre : forall n, exists st, dispatch w (take n els) = Ok st).
    { intros n. apply (dispatch_prefix w (take n els) (drop n els) (sequence, tmp)).
      by rewrite take_drop. }
    split.
    + destruct (Hpre (S i)) as [[s1 b1] H1]. exists s1, b1. split; [done|].
      rewrite (take_S_r _ _ _ Hi) in H1.
      rewrite <- media_rel_dir. by eapply dispatch_media_last.
    + destruct (Hpre (S j)) as [[s2 b2] H2]. exists s2, b2. split; [done|].
      rewrite (take_S_r _ _ _ Hj) in H2.
      rewrite Hname, <- media_rel_dir. by eapply dispatch_media_last.
  - intros Hels. destruct (dispatch_ok w els Hels) as [tmp Hrun]. eauto.
Qed.

Lemma media_destination_by_basename_witness :
  (forall sequence tmp,
     dispatch two_dirs_world two_figs = Ok (sequence, tmp) ->
     sequence !! 0 = Some (SMedia Image (py "images/fig.png") None None None)
     /\ sequence !! 2 = Some (SMedia Image (py "images/fig.png") None None None)
     /\ (exists s1 b1, dispatch two_dirs_world (take 1 two_figs) = Ok (s1, b1)
                       /\ b1 !! py "images/fig.png" = Some (py "first"))
     /\ (exists s2 b2, dispatch two_dirs_world (take 3 two_figs) = Ok (s2, b2)
                       /\ b2 !! py "images/fig.png" = Some (py "second")))
  /\ (Forall (copyable two_dirs_world) two_figs ->
      exists sequence tmp, dispatch two_dirs_world two_figs = Ok (sequence, tmp)).
Proof.
  apply (media_destination_by_basename two_dirs_world two_figs 0 2 Image
           (py "a/fig.png") (py "b/fig.png") None None None None None None
           (py "first") (py "second")).
  - lia.
  - reflexivity.
  - reflexivity.
  - vm_compute. reflexivity.
  - vm_compute. reflexivity.
  - vm_compute. reflexivity.
Defined.

(** ** The worked example and the command line *)

(** The directive alone, evaluated. *)
Lemma image_directive_alone :
  parse_latex (py "\image[width=50%]{foo.png}")
  = ([EMedia Image (py "foo.png") (Some (py "50%")) None None], SingleColumn).
Proof. vm_compute. reflexivity. Qed.

(** C8: a source that holds the directive \image[width=50%]{foo.png}
    in text without other commands (no backslash before or after it),
    with foo.png on disk: segmentation yields the image element with
    width 50% and neither height nor scale, the manifest records it
    under images/foo.png, and the bundle holds the file's content
    there. *)
Theorem image_directive_example (w : World) (pre post content : text) :
  92%N ∉ pre -> 92%N ∉ post ->
  disk_read w (py "foo.png") = Some content ->
  exists rest meta bundle,
    fst (parse_latex (pre ++ py "\image[width=50%]{foo.png}" ++ post))
    = EMedia Image (py "foo.png") (Some (py "50%")) None None :: rest
    /\ build w (pre ++ py "\image[width=50%]{foo.png}" ++ post) = Ok (meta, bundle)
    /\ mf_sequence meta !! 0
       = Some (SMedia Image (py "images/foo.png") (Some (py "50%")) None None)
    /\ bundle !! py "images/foo.png" = Some content.
Proof.
  intros Hpre Hpost Hread. change (py "\image[width=50%]{foo.png}") with image_directive.
  destruct (example_parse pre post Hpre Hpost) as (a & b & Hparse).
  set (tex := pre ++ image_directive ++ post) in *.
  assert (Hels : Forall (copyable w) (fst (parse_latex tex))).
  { rewrite Hparse. constructor; [by eapply disk_read_copyable|].
    destruct (truthy (strip (a ++ b))); by repeat constructor. }
  destruct (build_ok w tex Hels) as [bundle Hbuild].
  eexists _, _, bundle. split; [exact Hparse|]. split; [exact Hbuild|]. split.
  - cbn [mf_sequence]. by rewrite list_lookup_imap, Hparse.
  - revert Hbuild. unfold build. destruct (parse_latex tex) as [els lay].
    cbn [fst snd] in *. subst els.
    destruct (dispatch w _) as [[sequence tmp]|e] eqn:Hrun; [|done].
    cbn [bind fst snd]. intros [= _ <-].
    assert (Hcp : copy_path (py "images/foo.png")) by (by exists Image, (py "foo.png")).
    rewrite (dispatch_copies w _ Hcp _ _ _ Hrun). cbn [copies_after copied].
    rewrite Hread. cbn [store].
    replace (media_rel Image (py "foo.png")) with (py "images/foo.png")
      by (vm_compute; reflexivity).
    destruct (truthy (strip (a ++ b))); cbn [copies_after copied store];
      apply lookup_insert_eq.
Qed.

Lemma image_directive_example_witness :
  exists rest meta bundle,
    fst (parse_latex ([] ++ py "\image[width=50%]{foo.png}" ++ []))
    = EMedia Image (py "foo.png") (Some (py "50%")) None None :: rest
    /\ build two_dirs_world ([] ++ py "\image[width=50%]{foo.png}" ++ []) = Ok (meta, bundle)
    /\ mf_sequence meta !! 0
       = Some (SMedia Image (py "images/foo.png") (Some (py "50%")) None None)
    /\ bundle !! py "images/foo.png" = Some (py "PNG").
Proof.
  apply (image_directive_example two_dirs_world [] [] (py "PNG")).
  - apply not_elem_of_nil.
  - apply not_elem_of_nil.
  - vm_compute. reflexivity.
Defined.

(** Fewer than three words on the command line reach the usage
    branch. *)
Lemma main_usage (w : World) (argv : list text) :
  length argv < 3 -> main w argv = Usage.
Proof.
  intros H. unfold main. destruct (Nat.ltb_spec (length argv) 3); [done|lia].
Qed.

(** C7, at the invocation without the input path: the length guard of
    [main] lets three words through, so no usage line is printed; -o
    itself is taken for the input file. *)
Theorem main_missing_input_no_usage (w : World) :
  main w [py "create.py"; py "-o"; py "out.pandora"] <> Usage.
Proof.
  assert (Hidx : list_index (py "-o") [py "create.py"; py "-o"; py "out.pandora"] = Some 1)
    by (vm_compute; reflexivity).
  unfold main. cbn [length Nat.ltb Nat.leb]. rewrite Hidx. cbn [Nat.add nth_error nth].
  destruct (read_text w (py "-o")) as [tex|e]; [|done].
  destruct (build w tex) as [[meta bundle]|e]; [|done].
  by destruct (archive_write w (py "out.pandora")).
Qed.

(** What happens instead: the read of a file named -o fails, or, when
    such a file exists, an archive is built from it. *)
Lemma main_missing_input_path (w : World) (e : exn) :
  read_text w (py "-o") = Raise e ->
  main w [py "create.py"; py "-o"; py "out.pandora"] = Crashed e.
Proof.
  intros H. unfold main. simpl. by rewrite H.
Qed.

Lemma main_missing_input_builds (w : World) (tex : text) :
  read_text w (py "-o") = Ok tex ->
  Forall (copyable w) (fst (parse_latex tex)) ->
  archive_write w (py "out.pandora") = None ->
  exists meta bundle,
    main w [py "create.py"; py "-o"; py "out.pandora"] = Built (py "out.pandora") meta bundle.
Proof.
  intros H Hels Hzip. unfold main. simpl. rewrite H.
  destruct (build_ok w tex Hels) as [b ->]. rewrite Hzip. eauto.
Qed.

(** Without the word after -o the guard passes as well, and the lookup
    of that word raises IndexError. *)
Lemma main_missing_output_path (w : World) :
  main w [py "create.py"; py "notes.tex"; py "-o"] = Crashed IndexError.
Proof. reflexivity. Qed.
(** ** Claims about segmentation *)

(** C9: the expansion of a first-pass text block appends one animation
    element per inline directive, in the order the directives occur in
    the block's text, and only then the elements of the page-break
    parts (page breaks, media references, residual text), none of
    which is an animation. *)
Theorem inline_animations_first (t : text) (expanded : list element) :
  exists others,
    expand_element expanded (ELatex t)
    = expanded ++ map (fun m => EManim (group m 1)) (re_finditer inline_re t) ++ others
    /\ Forall (fun e => ~ is_manim e) others
    /\ StronglySorted (fun m1 m2 => m_end m1 <= m_start m2) (re_finditer inline_re t)
    /\ Forall (fun m => slice (m_start m) (m_end m) t
                        = py "\manim{" ++ group m 1 ++ py "}") (re_finditer inline_re t).
Proof.
  pose proof (finditer_chain inline_re inline_re_nonempty t) as Hchain.
  rewrite expand_element_app. unfold expand_element, re_sub.
  pose proof (sub_loop_state t (re_finditer inline_re t) 0 [] []) as Hst.
  destruct (sub_loop repl_inline t (re_finditer inline_re t) 0 [] []) as [t1 e1].
  cbn [snd app] in Hst. subst e1. cbv beta iota.
  destruct (fold_expand_part_app (re_split break_re t1)
              (map (fun m => EManim (group m 1)) (re_finditer inline_re t))) as [Happ Hno].
  exists (fold_left expand_part (re_split break_re t1) []).
  split; [by rewrite Happ|]. split; [done|]. split.
  - by destruct (chain_sorted _ _ _ _ Hchain).
  - pose proof (chain_slices _ _ _ _ Hchain [] eq_refl) as Hsl. simpl in Hsl.
    rewrite Forall_forall in Hsl. apply Forall_forall. intros m Hin.
    rewrite (Hsl m Hin). apply list_elem_of_In in Hin.
    destruct (scan_matches _ _ _ _ _ _ Hin) as (prev & p & s & Hm).
    by destruct (inline_re_match _ _ _ _ Hm).
Qed.

Lemma occurs_elem (m t : text) (c : N) : occurs m t -> c ∈ m -> c ∈ t.
Proof. intros (pre & post & ->) Hc. set_solver. Qed.

(** C2 fails as stated: in the source T\manim{x} the text T comes first,
    yet the animation element of x is emitted before the text element
    of T, so no left-to-right assignment of spans exists. *)
Lemma segmentation_order_counterexample :
  ~ in_source_order (py "T\manim{x}") (fst (parse_latex (py "T\manim{x}"))).
Proof.
  replace (fst (parse_latex (py "T\manim{x}"))) with [EManim (py "x"); ELatex (py "T")]
    by (vm_compute; reflexivity).
  intros (spans & Hspans & Hsorted).
  apply Forall2_cons_inv_l in Hspans as ([a1 b1] & spans1 & (H1a & H1b & Hx) & Hspans & ->).
  apply Forall2_cons_inv_l in Hspans as ([a2 b2] & spans2 & (H2a & H2b & HT) & Hspans & ->).
  apply Forall2_nil_inv_l in Hspans as ->. cbn [fst snd payload] in *.
  apply StronglySorted_inv in Hsorted as [_ Hle].
  apply Forall_cons in Hle as [Hle _]. simpl in Hle.
  assert (Ha2 : a2 = 0).
  { destruct a2 as [|a2]; [done|]. exfalso.
    assert (HinT : 84%N ∈ py "T") by (vm_compute; constructor).
    pose proof (occurs_elem _ _ 84%N HT HinT) as Hin.
    unfold slice in Hin. apply elem_of_take in Hin as (i & Hin & _).
    rewrite lookup_drop in Hin.
    replace (py "T\manim{x}") with (84%N :: py "\manim{x}") in Hin by (vm_compute; reflexivity).
    cbn [Nat.add lookup list_lookup] in Hin.
    apply list_elem_of_lookup_2 in Hin. revert Hin. not_in_text. }
  subst a2. assert (b1 = 0) as -> by lia.
  destruct Hx as (pre & post & Hx). unfold slice in Hx. simpl in Hx.
  by destruct pre.
Qed.

(** C2, amended: the first pass cuts the source into consecutive
    segments (the animation regions with their delimiters, and the text
    between them) whose concatenation is the source itself, so that at
    this level nothing is lost, duplicated, overlapped or reordered; the
    element list is the concatenation, segment after segment, of what
    each segment's block expands to. *)
Theorem segmentation_by_blocks (tex : text) :
  exists segs,
    concat (map seg_raw segs) = tex
    /\ fst (parse_latex tex)
       = concat (map (fun sg => concat (map (expand_element []) (seg_elements sg))) segs).
Proof.
  destruct (first_pass_segments tex) as (segs & Hraw & Hfirst).
  exists segs. split; [done|]. unfold parse_latex. simpl.
  rewrite fold_expand_element, Hfirst. simpl. clear.
  induction segs as [|sg segs IH]; simpl; [done|].
  by rewrite map_app, concat_app, IH.
Qed.

(** ** Claims about layout detection *)

(** C3 fails as stated: x%% twocolumn holds the comment-style marker
    %% twocolumn, at its end, and yet the layout is not two-column,
    because the marker does not start a line. *)
Lemma layout_marker_midline_counterexample :
  ~ ((exists m, plain_marker m /\ occurs m (py "x%% twocolumn")) ->
     detect_layout (py "x%% twocolumn") = TwoColumn).
Proof.
  intros H. assert (Hd : detect_layout (py "x%% twocolumn") = SingleColumn)
    by (vm_compute; reflexivity).
  rewrite Hd in H. discriminate H.
  exists (py "%% twocolumn"). split.
  - left. exists (py " "). split; [by repeat constructor|done].
  - by exists (py "x"), [].
Qed.

(** The document-class line of a two-column LaTeX document is not what
    the pattern's third alternative spells. *)
Lemma documentclass_option_not_detected :
  detect_layout (py "\documentclass[twocolumn]{article}") = SingleColumn.
Proof. vm_compute. reflexivity. Qed.

(** C3, amended: layout detection returns two-column when the
    comment-style marker (%%, optional whitespace, twocolumn) or the
    command \twocolumn begins a line of the source (the start of the
    text or right after a newline), wherever that line is; it returns
    single-column when no line begins with either of them nor with
    \document, which leaves open what a line gives that begins with
    \document[ (the pattern's third alternative) or with
    \documentclass[ (the spelling of the document-class option); and
    the layout that parse_latex reports is this one detection on the
    whole source. *)
Theorem layout_detection (tex : text) :
  ((exists m, plain_marker m /\ begins_line m tex) -> detect_layout tex = TwoColumn)
  /\ ((forall m, plain_marker m \/ m = py "\document" -> ~ begins_line m tex) ->
      detect_layout tex = SingleColumn)
  /\ snd (parse_latex tex) = detect_layout tex.
Proof.
  split_and!; [| |done].
  - intros (m & Hm & pre & post & -> & Hpre).
    apply detect_layout_two_column. exists pre, m, post. split_and!; [done|done|by left].
  - intros Hnone. destruct (detect_layout tex) eqn:Hd; [done|]. exfalso.
    apply detect_layout_two_column in Hd as (pre & m & post & -> & Hpre & [Hm|Hm]).
    + apply (Hnone m); [by left|]. by exists pre, post.
    + destruct Hm as (x & y & _ & _ & ->).
      apply (Hnone (py "\document")); [by right|].
      exists pre, (py "[" ++ x ++ py "twocolumn" ++ y ++ py "]" ++ post). split; [|done].
      by rewrite <- !app_assoc.
Qed.
(** * Further properties of the code *)

(** ** strip *)

Lemma elem_of_rev_1 (x : N) (l : text) : x ∈ rev l -> x ∈ l.
Proof. rewrite !list_elem_of_In. apply in_rev. Qed.

Lemma lstrip_app_keep (a r : text) (c : N) :
  isspace c = false -> lstrip (a ++ c :: r) = lstrip a ++ c :: r.
Proof.
  intros Hc. induction a as [|x a IH]; simpl.
  - by rewrite Hc.
  - by destruct (isspace x).
Qed.

Lemma lstrip_spaces (ws t : text) : all_in isspace ws -> lstrip (ws ++ t) = lstrip t.
Proof.
  induction 1 as [|x ws Hx _ IH]; simpl; [done|]. by rewrite Hx.
Qed.

Lemma lstrip_all_spaces (ws : text) : all_in isspace ws -> lstrip ws = [].
Proof. intros H. rewrite <- (app_nil_r ws). by rewrite lstrip_spaces. Qed.

Lemma lstrip_split (t : text) : exists ws, t = ws ++ lstrip t /\ all_in isspace ws.
Proof.
  induction t as [|x t (ws & Ht & Hws)]; simpl.
  - exists []. split; [done|constructor].
  - destruct (isspace x) eqn:Hx.
    + exists (x :: ws). split; [simpl; by f_equal|by constructor].
    + exists []. split; [done|constructor].
Qed.

Lemma lstrip_head (t r : text) (c : N) : lstrip t = c :: r -> isspace c = false.
Proof.
  induction t as [|x t IH]; simpl; [done|].
  destruct (isspace x) eqn:Hx; [done|]. by intros [= <- _].
Qed.

Lemma lstrip_fixed (t : text) (c : N) (r : text) :
  isspace c = false -> lstrip (c :: r) = c :: r.
Proof. intros Hc. simpl. by rewrite Hc. Qed.

Lemma lstrip_idem (t : text) : lstrip (lstrip t) = lstrip t.
Proof.
  destruct (lstrip t) as [|c r] eqn:E; [done|].
  apply lstrip_head in E. simpl. by rewrite E.
Qed.

Lemma rstrip_app_keep (a r : text) (c : N) :
  isspace c = false -> rstrip (a ++ c :: r) = a ++ c :: rstrip r.
Proof.
  intros Hc. unfold rstrip. rewrite rev_app_distr. simpl. rewrite <- app_assoc. simpl.
  rewrite lstrip_app_keep by done. rewrite rev_app_distr. simpl.
  rewrite rev_involutive, <- app_assoc. done.
Qed.

Lemma rstrip_split (t : text) : exists ws, t = rstrip t ++ ws /\ all_in isspace ws.
Proof.
  unfold rstrip. destruct (lstrip_split (rev t)) as (ws & Ht & Hws).
  exists (rev ws). split.
  - rewrite <- rev_app_distr, <- Ht. by rewrite rev_involutive.
  - unfold all_in. apply Forall_forall. intros x Hx%elem_of_rev_1.
    unfold all_in in Hws. rewrite Forall_forall in Hws. by apply Hws.
Qed.

Lemma rstrip_idem (t : text) : rstrip (rstrip t) = rstrip t.
Proof. unfold rstrip. by rewrite rev_involutive, lstrip_idem. Qed.

Lemma rstrip_spaces (t ws : text) : all_in isspace ws -> rstrip (t ++ ws) = rstrip t.
Proof.
  intros H. unfold rstrip. rewrite rev_app_distr, lstrip_spaces; [done|].
  unfold all_in in *. apply Forall_forall. intros x Hx%elem_of_rev_1.
  rewrite Forall_forall in H. by apply H.
Qed.

(** [rstrip] leaves a first character that is not a space in place. *)
Lemma rstrip_lstrip_fixed (t : text) : lstrip (rstrip (lstrip t)) = rstrip (lstrip t).
Proof.
  destruct (lstrip t) as [|c r] eqn:E; [done|].
  apply lstrip_head in E.
  pose proof (rstrip_app_keep [] r c E) as H. cbn [app] in H. rewrite H.
  simpl. by rewrite E.
Qed.

(** [strip] is idempotent. *)
Lemma strip_idem (t : text) : strip (strip t) = strip t.
Proof. unfold strip. by rewrite rstrip_lstrip_fixed, rstrip_idem. Qed.

Lemma strip_lstrip (t : text) : strip (lstrip t) = strip t.
Proof. unfold strip. by rewrite lstrip_idem. Qed.

Lemma strip_spaces_r (u ws : text) : all_in isspace ws -> strip (u ++ ws) = strip u.
Proof.
  intros Hws. unfold strip. destruct (lstrip_split u) as (ws1 & Hu & Hws1).
  destruct (lstrip u) as [|c r] eqn:E.
  - rewrite app_nil_r in Hu. subst u. rewrite lstrip_all_spaces; [done|].
    unfold all_in in *. by apply Forall_app_2.
  - pose proof (lstrip_head _ _ _ E) as Hc.
    rewrite Hu, <- app_assoc, lstrip_spaces by done.
    cbn [app]. rewrite (lstrip_fixed u c _ Hc).
    change (c :: r ++ ws) with ((c :: r) ++ ws). by rewrite rstrip_spaces.
Qed.

Lemma strip_rstrip (t : text) : strip (rstrip t) = strip t.
Proof.
  destruct (rstrip_split t) as (ws & Ht & Hws).
  rewrite Ht at 2. by rewrite strip_spaces_r.
Qed.

(** [strip] between two characters that are not spaces. *)
Lemma strip_around (a mid b : text) (c1 c2 : N) :
  isspace c1 = false -> isspace c2 = false ->
  strip (a ++ c1 :: mid ++ c2 :: b) = lstrip a ++ c1 :: mid ++ c2 :: rstrip b.
Proof.
  intros H1 H2. unfold strip. rewrite lstrip_app_keep by done.
  replace (lstrip a ++ c1 :: mid ++ c2 :: b) with ((lstrip a ++ c1 :: mid) ++ c2 :: b)
    by (by rewrite <- app_assoc).
  rewrite rstrip_app_keep by done. by rewrite <- app_assoc.
Qed.

Lemma elem_of_lstrip (t : text) (x : N) : x ∈ lstrip t -> x ∈ t.
Proof.
  destruct (lstrip_split t) as (ws & Ht & _). intros H. rewrite Ht, elem_of_app. by right.
Qed.

Lemma elem_of_rstrip (t : text) (x : N) : x ∈ rstrip t -> x ∈ t.
Proof.
  destruct (rstrip_split t) as (ws & Ht & _). intros H. rewrite Ht, elem_of_app. by left.
Qed.

Lemma elem_of_strip (t : text) (x : N) : x ∈ strip t -> x ∈ t.
Proof. intros H%elem_of_rstrip. by apply elem_of_lstrip. Qed.

(** ** Sources made of plain text and one command *)

Lemma plain_not_break (t : text) : 92%N ∉ t -> is_break t = false.
Proof.
  intros Ht. unfold is_break. apply orb_false_iff. split.
  - destruct (text_eqb t (py "\newpage")) eqn:E; [|done].
    apply text_eqb_eq in E. subst t. exfalso. apply Ht. by left.
  - destruct (text_eqb t (py "\breakpage")) eqn:E; [|done].
    apply text_eqb_eq in E. subst t. exfalso. apply Ht. by left.
Qed.

Lemma finditer_plain (r : regex) (t : text) :
  starts_bs r -> 92%N ∉ t -> re_finditer r t = [].
Proof. intros Hr Ht. by apply scan_plain_end. Qed.

(** A page-break part without a backslash is its text block. *)
Lemma expand_part_plain (expanded : list element) (part : text) :
  92%N ∉ part -> expand_part expanded part = expanded ++ text_block part.
Proof.
  intros Hp. unfold expand_part, text_block.
  destruct (truthy (strip part)) eqn:Ht; cbn [negb]; [|by rewrite app_nil_r].
  rewrite plain_not_break by (intros H; by apply Hp, elem_of_strip).
  unfold media_pass. cbn [fst snd].
  rewrite (finditer_plain _ part (media_re_bs Image) Hp). cbn [media_loop fst snd].
  rewrite (finditer_plain _ part (media_re_bs Video) Hp). cbn [media_loop].
  by rewrite Ht.
Qed.

Lemma re_sub_none {St : Type} (r : regex) (repl : mtch -> St -> text * St) (t : text) (st : St) :
  re_finditer r t = [] -> re_sub r repl t st = (t, st).
Proof. intros H. unfold re_sub. rewrite H. simpl. by rewrite drop_0. Qed.

Lemma re_split_none (r : regex) (t : text) : re_finditer r t = [] -> re_split r t = [t].
Proof. intros H. unfold re_split. rewrite H. simpl. by rewrite drop_0. Qed.

(** A text block without a backslash expands to itself. *)
Lemma expand_element_plain (expanded : list element) (t : text) :
  92%N ∉ t -> expand_element expanded (ELatex t) = expanded ++ text_block t.
Proof.
  intros Ht. unfold expand_element.
  rewrite (re_sub_none _ _ _ _ (finditer_plain _ t inline_re_bs Ht)).
  rewrite (re_split_none _ _ (finditer_plain _ t break_re_bs Ht)). cbn [fold_left].
  by apply expand_part_plain.
Qed.

Lemma text_block_strip (t : text) : text_block (strip t) = text_block t.
Proof. unfold text_block. by rewrite strip_idem. Qed.

Lemma expand_text_block_plain (t : text) :
  92%N ∉ t -> fold_left expand_element (text_block t) [] = text_block t.
Proof.
  intros Ht. unfold text_block at 1. destruct (truthy (strip t)) eqn:E; [|by unfold text_block; rewrite E].
  cbn [fold_left]. rewrite expand_element_plain by (intros H; by apply Ht, elem_of_strip).
  by rewrite text_block_strip.
Qed.

Lemma first_pass_none (tex : text) :
  re_finditer block_re tex = [] -> first_pass tex = text_block tex.
Proof. intros H. unfold first_pass, text_block. rewrite H. cbn [first_pass_loop]. by rewrite drop_0. Qed.

Lemma break_match (brk : text) (prev : option N) (p : nat) (s : text) :
  page_break brk ->
  match_at break_re prev p (brk ++ s) = Some (Mtch p (p + length brk) brk [(1, brk)]).
Proof. by intros [-> | ->]. Qed.

Lemma break_shape (brk : text) :
  page_break brk -> exists mid, brk = 92%N :: mid ++ [101%N] /\ 92%N ∉ mid ++ [101%N].
Proof.
  intros [-> | ->].
  - exists (py "newpag"). split; [done|not_in_text].
  - exists (py "breakpag"). split; [done|not_in_text].
Qed.

Lemma expand_part_break (expanded : list element) (brk : text) :
  page_break brk -> expand_part expanded brk = expanded ++ [EPagebreak].
Proof. by intros [-> | ->]. Qed.


(** X1: a source without any backslash is one text block, its text
    trimmed of surrounding whitespace, or no element at all when the
    source is blank. *)
Theorem plain_source_one_block (tex : text) :
  92%N ∉ tex -> fst (parse_latex tex) = text_block tex.
Proof.
  intros Ht. unfold parse_latex. cbn [fst].
  rewrite first_pass_none by (by apply finditer_plain; [apply block_re_bs|]).
  by apply expand_text_block_plain.
Qed.

Lemma plain_source_one_block_witness :
  fst (parse_latex (py "  Hello, world.  ")) = text_block (py "  Hello, world.  ").
Proof. apply (plain_source_one_block (py "  Hello, world.  ")). not_in_text. Defined.
(** ** One page break between plain text *)

Section OneBreak.
Variables a b brk : text.
Hypothesis a_plain : 92%N ∉ a.
Hypothesis b_plain : 92%N ∉ b.
Hypothesis brk_break : page_break brk.

Lemma one_break_no_match (r : regex) :
  starts_bs r ->
  (forall prev p s, match_at r prev p (py "\newpage" ++ s) = None) ->
  (forall prev p s, match_at r prev p (py "\breakpage" ++ s) = None) ->
  re_finditer r (a ++ brk ++ b) = [].
Proof.
  intros Hbs H1 H2. destruct (break_shape brk brk_break) as (mid & Hbrk & Hmid).
  unfold re_finditer. rewrite Hbrk. cbn [app].
  apply scan_one_bs; [done|done|rewrite elem_of_app; tauto|].
  intros prev p. change (92%N :: (mid ++ [101%N]) ++ b) with ((92%N :: mid ++ [101%N]) ++ b).
  rewrite <- Hbrk. destruct brk_break as [-> | ->]; [apply H1|apply H2].
Qed.

Lemma one_break_finditer :
  re_finditer break_re (a ++ brk ++ b)
  = [Mtch (length a) (length a + length brk) brk [(1, brk)]].
Proof.
  unfold re_finditer.
  destruct (scan_plain _ break_re_bs a (brk ++ b) None 0 a_plain) as [prev ->].
  destruct (scan_hit _ brk b prev (0 + length a) _
              (break_match brk prev (0 + length a) b brk_break) eq_refl) as [prev' ->].
  { by destruct brk_break as [-> | ->]. }
  by rewrite (scan_plain_end _ break_re_bs b).
Qed.

Lemma one_break_split : re_split break_re (a ++ brk ++ b) = [a; brk; b].
Proof.
  unfold re_split. rewrite one_break_finditer. cbn [split_loop m_start m_end group m_caps cap_lookup].
  unfold slice. rewrite drop_0, Nat.sub_0_r, take_app_length. cbn [Nat.eqb].
  f_equal. f_equal. rewrite app_assoc, <- length_app. by rewrite drop_app_length.
Qed.

Lemma one_break_expand :
  expand_element [] (ELatex (a ++ brk ++ b)) = text_block a ++ [EPagebreak] ++ text_block b.
Proof.
  unfold expand_element.
  rewrite (re_sub_none inline_re repl_inline _ []) by (apply one_break_no_match;
    [apply inline_re_bs|by intros|by intros]).
  rewrite one_break_split. cbn [fold_left].
  rewrite (expand_part_plain [] a a_plain). cbn [app].
  rewrite (expand_part_break _ brk brk_break).
  rewrite (expand_part_plain _ b b_plain). by rewrite <- app_assoc.
Qed.
End OneBreak.

(** X2: a source made of backslash-free text, one page-break command
    (\newpage or \breakpage) and backslash-free text again is segmented
    into the trimmed text before the break, a page break, and the
    trimmed text after it; a side that is blank gives no element. *)
Theorem page_break_between_text (a b brk : text) :
  92%N ∉ a -> 92%N ∉ b -> page_break brk ->
  fst (parse_latex (a ++ brk ++ b)) = text_block a ++ [EPagebreak] ++ text_block b.
Proof.
  intros Ha Hb Hbrk. destruct (break_shape brk Hbrk) as (mid & Hshape & _).
  unfold parse_latex. cbn [fst].
  rewrite first_pass_none by (apply one_break_no_match; [done|done|done|apply block_re_bs|by intros|by intros]).
  assert (Hstrip : strip (a ++ brk ++ b) = lstrip a ++ brk ++ rstrip b).
  { rewrite Hshape. cbn [app]. rewrite <- app_assoc. cbn [app].
    rewrite (strip_around a mid b 92%N 101%N eq_refl eq_refl).
    by rewrite <- app_assoc. }
  unfold text_block at 1. rewrite Hstrip.
  assert (Htruthy : truthy (lstrip a ++ brk ++ rstrip b) = true).
  { rewrite Hshape. by destruct (lstrip a). }
  rewrite Htruthy. cbn [fold_left].
  rewrite one_break_expand; [|intros H; by apply Ha, elem_of_lstrip
                             |intros H; by apply Hb, elem_of_rstrip|done].
  unfold text_block. by rewrite strip_lstrip, strip_rstrip.
Qed.


Lemma page_break_between_text_witness :
  fst (parse_latex (py "Intro " ++ py "\newpage" ++ py " Next"))
  = text_block (py "Intro ") ++ [EPagebreak] ++ text_block (py " Next").
Proof.
  apply (page_break_between_text (py "Intro ") (py " Next") (py "\newpage")).
  - not_in_text.
  - not_in_text.
  - by left.
Defined.
(** ** One animation region between plain text *)

(** The lazy star steps over a stretch at which the continuation
    fails everywhere. *)
Lemma star_lazy_skip (p : N -> bool) (k : cursor -> option cursor) (caps : list (nat * text))
    (w s : text) : forall pos prev,
  all_in p w ->
  (forall w1 c w2, w = w1 ++ c :: w2 ->
     k (Cursor (pos + length w1) (last_or prev w1) (c :: w2 ++ s) caps) = None) ->
  star_lazy p (w ++ s) pos prev caps k
  = star_lazy p s (pos + length w) (last_or prev w) caps k.
Proof.
  induction w as [|c w IH]; intros pos prev Hall Hk.
  - simpl. by rewrite Nat.add_0_r.
  - inversion Hall as [|? ? Hc Hall']; subst. cbn [app star_lazy].
    pose proof (Hk [] c w eq_refl) as H0. unfold last_or in H0. simpl in H0.
    rewrite Nat.add_0_r in H0.
    rewrite H0, Hc. rewrite IH; [|done|].
    + f_equal; [simpl; lia|]. change (c :: w) with ([c] ++ w). by rewrite <- last_or_app.
    + intros w1 c' w2 ->. specialize (Hk (c :: w1) c' w2 eq_refl).
      change (c :: w1) with ([c] ++ w1) in Hk. rewrite <- last_or_app in Hk.
      simpl in Hk. by replace (S pos + length w1) with (pos + S (length w1)) by lia.
Qed.

Lemma star_lazy_here (p : N -> bool) (k : cursor -> option cursor) (caps : list (nat * text))
    (s : text) (pos : nat) (prev : option N) (b : cursor) :
  k (Cursor pos prev s caps) = Some b -> star_lazy p s pos prev caps k = Some b.
Proof. intros H. destruct s; simpl; by rewrite H. Qed.

Lemma not_occurs_plain (c : N) (w t : text) : c ∉ t -> ~ occurs (c :: w) t.
Proof.
  intros Hc (pre & post & ->). apply Hc.
  rewrite elem_of_app. right. by left.
Qed.

(** The closing delimiter cannot begin inside a body that does not
    hold it. *)
Lemma end_not_early (w1 w2 rest : text) (c : N) (a : cursor) :
  ~ occurs (py "\end{manim}") (w1 ++ c :: w2) ->
  c_rest a = c :: w2 ++ py "\end{manim}" ++ rest ->
  lit (py "\end{manim}") a = None.
Proof.
  intros Hocc Hrest. destruct (lit (py "\end{manim}") a) as [b|] eqn:Hlit; [|done].
  exfalso. apply lit_sound in Hlit as (Hr & _). rewrite Hrest in Hr.
  destruct (Nat.le_gt_cases (length (py "\end{manim}")) (length (c :: w2))) as [Hle|Hgt].
  - symmetry in Hr. change (c :: w2 ++ ?x) with ((c :: w2) ++ x) in Hr.
    destruct (app_eq_len_le _ _ _ _ Hr Hle) as (k & Hk & _).
    apply Hocc. exists w1, k. by rewrite Hk.
  - assert (Hlook : ((c :: w2) ++ py "\end{manim}" ++ rest) !! length (c :: w2)
                    = (py "\end{manim}" ++ c_rest b) !! length (c :: w2)).
    { by rewrite <- Hr. }
    rewrite lookup_app_r, Nat.sub_diag in Hlook by lia.
    rewrite (lookup_app_l (py "\end{manim}")) in Hlook by lia.
    assert (Hn : 0 < length (c :: w2) < 11) by (simpl in *; lia).
    revert Hlook Hn. generalize (length (c :: w2)). clear. intros n Hlook Hn.
    vm_compute in Hlook.
    destruct n as [|[|[|[|[|[|[|[|[|[|[|n]]]]]]]]]]]; try discriminate Hlook; lia.
Qed.

Lemma region_match (body rest : text) (prev : option N) (p : nat) :
  ~ occurs (py "\end{manim}") body ->
  match_at block_re prev p (py "\begin{manim}" ++ body ++ py "\end{manim}" ++ rest)
  = Some (region_matched p body).
Proof.
  intros Hocc. unfold match_at, block_re. cbn [exec].
  set (s := body ++ py "\end{manim}" ++ rest).
  rewrite (lit_complete (py "\begin{manim}") (Cursor 0 prev (py "\begin{manim}" ++ s) [])
             (Cursor 13 (Some 125%N) s [])) by (by split_and!).
  cbn [c_rest c_pos c_prev c_caps]. subst s.
  set (B := Cursor (13 + length body + 11) (Some 125%N) rest [(1, body)]).
  rewrite star_lazy_skip.
  - rewrite (star_lazy_here _ _ _ _ _ _ B).
    + unfold region_matched, B. cbn [c_pos c_caps]. f_equal. f_equal.
      * rewrite !length_app. simpl. lia.
      * replace (13 + length body + 11)
          with (length (py "\begin{manim}" ++ body ++ py "\end{manim}"))
          by (rewrite !length_app; simpl; lia).
        rewrite !app_assoc. rewrite take_app_length. by rewrite <- !app_assoc.
    + cbn [set_cap c_pos c_rest c_prev c_caps].
      replace (13 + length body - 13) with (length body) by lia.
      rewrite take_app_length.
      rewrite (lit_complete (py "\end{manim}") _ B); [done|].
      unfold consumes, B. cbn [c_pos c_rest c_prev c_caps]. split_and!; done.
  - unfold all_in. by apply Forall_forall.
  - intros w1 c w2 Hbody. rewrite Hbody in Hocc.
    erewrite end_not_early; [done|exact Hocc|].
    cbn [set_cap c_rest]. reflexivity.
Qed.

Section OneRegion.
Variables a body b : text.
Hypothesis a_plain : 92%N ∉ a.
Hypothesis b_plain : 92%N ∉ b.
Hypothesis body_open : ~ occurs (py "\end{manim}") body.

Lemma one_region_finditer :
  re_finditer block_re (a ++ (py "\begin{manim}" ++ body ++ py "\end{manim}") ++ b)
  = [region_matched (length a) body].
Proof.
  unfold re_finditer.
  destruct (scan_plain _ block_re_bs a ((py "\begin{manim}" ++ body ++ py "\end{manim}") ++ b)
              None 0 a_plain) as [prev ->].
  destruct (scan_hit block_re (py "\begin{manim}" ++ body ++ py "\end{manim}") b prev (0 + length a)
              (region_matched (0 + length a) body)) as [prev' ->]; [|done|done|].
  - rewrite <- !app_assoc. by apply region_match.
  - by rewrite (scan_plain_end _ block_re_bs b).
Qed.

Lemma one_region_first_pass :
  first_pass (a ++ (py "\begin{manim}" ++ body ++ py "\end{manim}") ++ b)
  = text_block a ++ [EManim (strip body)] ++ text_block b.
Proof.
  unfold first_pass. rewrite one_region_finditer.
  cbn [first_pass_loop region_matched m_start m_end group m_caps cap_lookup Nat.eqb].
  unfold slice. rewrite drop_0, Nat.sub_0_r, take_app_length.
  set (R := py "\begin{manim}" ++ body ++ py "\end{manim}").
  replace (drop (length a + length R) (a ++ R ++ b)) with b
    by (rewrite <- length_app, app_assoc; by rewrite drop_app_length).
  unfold text_block.
  destruct (truthy (strip a)), (truthy (strip b)); by rewrite <- ?app_assoc.
Qed.
End OneRegion.

(** X3: a source made of backslash-free text, one region
    \begin{manim} ... \end{manim} whose body does not hold the closing
    delimiter, and backslash-free text again is segmented into the
    trimmed text before the region, one animation whose code is the
    trimmed body, and the trimmed text after it; a blank side gives no
    element. *)
Theorem region_between_text (a body b : text) :
  92%N ∉ a -> 92%N ∉ b -> ~ occurs (py "\end{manim}") body ->
  fst (parse_latex (a ++ (py "\begin{manim}" ++ body ++ py "\end{manim}") ++ b))
  = text_block a ++ [EManim (strip body)] ++ text_block b.
Proof.
  intros Ha Hb Hbody. unfold parse_latex. cbn [fst].
  rewrite one_region_first_pass by done.
  rewrite !fold_left_app. rewrite (expand_text_block_plain a Ha). cbn [fold_left expand_element].
  rewrite fold_expand_element.
  pose proof (expand_text_block_plain b Hb) as Hexp. rewrite fold_expand_element in Hexp.
  cbn [app] in Hexp. rewrite Hexp. by rewrite <- app_assoc.
Qed.


Lemma region_between_text_witness :
  fst (parse_latex (py "See: " ++ (py "\begin{manim}" ++ py " self.wait() " ++ py "\end{manim}")
                    ++ py " Done."))
  = text_block (py "See: ") ++ [EManim (strip (py " self.wait() "))] ++ text_block (py " Done.").
Proof.
  apply (region_between_text (py "See: ") (py " self.wait() ") (py " Done.")).
  - not_in_text.
  - not_in_text.
  - apply not_occurs_plain. not_in_text.
Defined.
(** ** What every element of the result satisfies *)

Lemma first_pass_shape (tex : text) :
  Forall (fun el => (exists t, el = ELatex (strip t) /\ truthy (strip t) = true)
                    \/ (exists body, el = EManim (strip body))) (first_pass tex).
Proof.
  destruct (first_pass_segments tex) as (segs & _ & ->).
  induction segs as [|sg segs IH]; simpl; [constructor|].
  apply Forall_app_2; [|done]. destruct sg as [raw|body]; simpl.
  - destruct (truthy (strip raw)) eqn:E; [|constructor].
    apply Forall_cons; split; [left; eauto|constructor].
  - apply Forall_cons; split; [right; eauto|constructor].
Qed.

Lemma media_pass_fst (typ : media_kind) (st : list element * text) :
  fst (media_pass typ st)
  = fst st ++ map (fun m => parse_media m typ) (re_finditer (media_re typ) (snd st)).
Proof. unfold media_pass. apply media_loop_state. Qed.

Lemma finditer_matches (r : regex) (t : text) (m : mtch) :
  m ∈ re_finditer r t -> exists prev p s, match_at r prev p s = Some m.
Proof. intros H%list_elem_of_In. by eapply scan_matches. Qed.

Section Invariant.
Variable P : element -> Prop.
Hypothesis P_region : forall body, P (EManim (strip body)).
Hypothesis P_inline :
  forall m prev p s, match_at inline_re prev p s = Some m -> P (EManim (group m 1)).
Hypothesis P_break : P EPagebreak.
Hypothesis P_media :
  forall typ m prev p s, match_at (media_re typ) prev p s = Some m -> P (parse_media m typ).
Hypothesis P_text : forall t, truthy (strip t) = true -> P (ELatex (strip t)).

Lemma media_pass_Forall (typ : media_kind) (st : list element * text) :
  Forall P (fst st) -> Forall P (fst (media_pass typ st)).
Proof.
  intros H. rewrite media_pass_fst. apply Forall_app_2; [done|].
  apply Forall_forall. intros el (m & -> & Hm)%list_elem_of_fmap.
  destruct (finditer_matches _ _ _ Hm) as (prev & p & s & Hmatch). by eapply P_media.
Qed.

Lemma expand_part_Forall (expanded : list element) (part : text) :
  Forall P expanded -> Forall P (expand_part expanded part).
Proof.
  intros H. unfold expand_part.
  destruct (truthy (strip part)); cbn [negb]; [|done].
  destruct (is_break (strip part)).
  { apply Forall_app_2; [done|]. apply Forall_cons; split; [done|constructor]. }
  pose proof (media_pass_Forall Video (media_pass Image (expanded, part))
                (media_pass_Forall Image (expanded, part) H)) as H2.
  destruct (media_pass Video (media_pass Image (expanded, part))) as [e2 p2]. cbn [fst] in H2.
  destruct (truthy (strip p2)) eqn:E; [|done].
  apply Forall_app_2; [done|]. apply Forall_cons; split; [by apply P_text|constructor].
Qed.

Lemma fold_expand_part_Forall (parts : list text) : forall expanded,
  Forall P expanded -> Forall P (fold_left expand_part parts expanded).
Proof.
  induction parts as [|part parts IH]; intros expanded H; [done|].
  simpl. by apply IH, expand_part_Forall.
Qed.

Lemma expand_element_Forall (expanded : list element) (el : element) :
  Forall P expanded -> Forall P [el] \/ (exists t, el = ELatex t) ->
  Forall P (expand_element expanded el).
Proof.
  intros H Hel. destruct el as [t|code| |typ file wd ht sc].
  - unfold expand_element, re_sub.
    pose proof (sub_loop_state t (re_finditer inline_re t) 0 [] expanded) as Hst.
    destruct (sub_loop repl_inline t (re_finditer inline_re t) 0 [] expanded) as [t1 e1].
    cbn [snd] in Hst. subst e1. apply fold_expand_part_Forall.
    apply Forall_app_2; [done|].
    apply Forall_forall. intros el (m & -> & Hm)%list_elem_of_fmap.
    destruct (finditer_matches _ _ _ Hm) as (prev & p & s & Hmatch). by eapply P_inline.
  - destruct Hel as [Hel|[t [=]]]. by apply Forall_app_2.
  - destruct Hel as [Hel|[t [=]]]. by apply Forall_app_2.
  - destruct Hel as [Hel|[t [=]]]. by apply Forall_app_2.
Qed.

(** An invariant of the appended elements holds of the whole result. *)
Lemma parse_latex_Forall (tex : text) : Forall P (fst (parse_latex tex)).
Proof.
  unfold parse_latex. cbn [fst].
  pose proof (first_pass_shape tex) as Hshape.
  assert (Hgen : forall expanded, Forall P expanded ->
            Forall P (fold_left expand_element (first_pass tex) expanded)).
  { induction Hshape as [|el els Hel _ IH]; intros expanded Hexp; [done|].
    simpl. apply IH, expand_element_Forall; [done|].
    destruct Hel as [(t & -> & _)|(body & ->)]; [right; eauto|left].
    apply Forall_cons; split; [apply P_region|constructor]. }
  apply Hgen. constructor.
Qed.
End Invariant.

Lemma strip_nonempty (t : text) : truthy (strip t) = true -> strip t <> [].
Proof. by destruct (strip t). Qed.

(** ** The groups of the media patterns *)

Lemma media_re_path (typ : media_kind) (prev : option N) (p : nat) (s : text) (m : mtch) :
  match_at (media_re typ) prev p s = Some m -> group m 2 <> [] /\ 125%N ∉ group m 2.
Proof.
  intros (b & Hrm & Hcaps & _)%match_at_text.
  destruct Hrm as (m1 & _ & m2 & _ & m3 & _ & m4 & _ & m5 & _ & m6
                   & (b0 & (c & w & Hc & Hall & Hw) & ->) & Hend).
  destruct Hend as (_ & _ & _ & Hcb). unfold group. rewrite Hcaps, Hcb. simpl.
  rewrite (moves_take _ _ _ (consumes_moves _ _ _ Hw)). split; [done|].
  intros Hel. assert (Hall' : all_in not_rbrace (c :: w)) by (by constructor).
  unfold all_in in Hall'. rewrite Forall_forall in Hall'. by apply Hall' in Hel.
Qed.

Lemma size_re_value (key opt v : text) :
  search_group1 (size_re key) opt = Some v -> size_value v.
Proof.
  unfold search_group1, re_search.
  destruct (search_from (size_re key) opt None 0) as [m|] eqn:Hs; [|done].
  intros [= <-]. apply search_from_sound in Hs as (s1 & s2 & _ & Hm).
  apply match_at_text in Hm as (b & Hrm & Hcaps & _).
  destruct Hrm as (m1 & _ & m2 & _ & m3 & _ & m4 & _ & b0 & Halt & ->).
  unfold group. rewrite Hcaps. simpl.
  destruct Halt as [(mm & (c & w & Hc & Hall & Hw) & Hl)|(mm & (c & w & Hc & Hall & Hw) & Hl)];
    pose proof (consumes_moves _ _ _ (consumes_app _ _ _ _ _ Hw Hl)) as Hmv;
    rewrite (moves_take _ _ _ Hmv); exists c, w; (split; [by constructor|]); [by left|by right].
Qed.

Lemma scale_re_value (opt v : text) :
  search_group1 scale_re opt = Some v -> scale_value v.
Proof.
  unfold search_group1, re_search.
  destruct (search_from scale_re opt None 0) as [m|] eqn:Hs; [|done].
  intros [= <-]. apply search_from_sound in Hs as (s1 & s2 & _ & Hm).
  apply match_at_text in Hm as (b & Hrm & Hcaps & _).
  destruct Hrm as (m1 & _ & m2 & _ & m3 & _ & m4 & _ & b0 & (c & w & Hc & Hall & Hw) & ->).
  unfold group. rewrite Hcaps. simpl.
  rewrite (moves_take _ _ _ (consumes_moves _ _ _ Hw)). split; [done|by constructor].
Qed.

Lemma parse_media_invariant (typ : media_kind) (m : mtch) (prev : option N) (p : nat)
    (s : text) :
  match_at (media_re typ) prev p s = Some m -> media_invariant (parse_media m typ).
Proof.
  intros [Hne Hbr]%media_re_path. unfold parse_media, media_invariant.
  split_and!.
  - apply strip_idem.
  - intros Hel. by apply elem_of_strip in Hel.
  - destruct (truthy (group m 1)); [|done].
    destruct (search_group1 (size_re (py "width")) (group m 1)) eqn:E; [|done].
    by eapply size_re_value.
  - destruct (truthy (group m 1)); [|done].
    destruct (search_group1 (size_re (py "height")) (group m 1)) eqn:E; [|done].
    by eapply size_re_value.
  - destruct (truthy (group m 1)); [|done].
    destruct (search_group1 scale_re (group m 1)) eqn:E; [|done].
    by eapply scale_re_value.
Qed.

(** X4: every text block of the result is non-empty and carries no
    leading or trailing whitespace. *)
Theorem text_blocks_trimmed (tex : text) :
  Forall text_invariant (fst (parse_latex tex)).
Proof.
  apply parse_latex_Forall; try done.
  intros t Ht. split; [by apply strip_nonempty|apply strip_idem].
Qed.

(** X5: every media element of the result has a file name that is
    trimmed and holds no closing brace; a recorded width or height is a
    run of digits followed by a percent sign or by px, and a recorded
    scale is a non-empty run of digits and dots. *)
Theorem media_elements_wellformed (tex : text) :
  Forall media_invariant (fst (parse_latex tex)).
Proof.
  apply parse_latex_Forall; try done.
  intros typ m prev p s Hm. by eapply parse_media_invariant.
Qed.

(** X6: the layout that parse_latex reports is two-column exactly when
    some line of the source begins with one of the three spellings of
    the pattern: %% twocolumn (any whitespace between), \twocolumn, or
    \document[ ... twocolumn ... ] with both stretches on that line. *)
Theorem layout_two_column_exactly (tex : text) :
  snd (parse_latex tex) = TwoColumn <-> exists m, marker m /\ begins_line m tex.
Proof.
  unfold parse_latex. cbn [snd]. rewrite detect_layout_two_column. split.
  - intros (pre & m & post & -> & Hpre & Hm). exists m. split; [done|]. by exists pre, post.
  - intros (m & Hm & pre & post & -> & Hpre). by exists pre, m, post.
Qed.

(** ** The greedy star on a known run *)

Section Greedy.
Variable p : N -> bool.
Variable k : cursor -> option cursor.
Variable caps : list (nat * text).

(** A success further to the right is preferred. *)
Lemma star_greedy_skip (w s : text) (b : cursor) : forall pos prev,
  all_in p w ->
  star_greedy p s (pos + length w) (last_or prev w) caps k = Some b ->
  star_greedy p (w ++ s) pos prev caps k = Some b.
Proof.
  induction w as [|c w IH]; intros pos prev Hall Hs.
  - simpl in *. by rewrite Nat.add_0_r in Hs.
  - inversion Hall as [|? ? Hc Hall']; subst. cbn [app star_greedy]. rewrite Hc.
    rewrite (IH (S pos) (Some c)); [done|done|].
    change (c :: w) with ([c] ++ w) in Hs. rewrite <- last_or_app in Hs.
    simpl in Hs. by replace (S pos + length w) with (pos + S (length w)) by lia.
Qed.

Lemma star_greedy_end (s : text) (pos : nat) (prev : option N) :
  run_ends p s -> star_greedy p s pos prev caps k = k (Cursor pos prev s caps).
Proof. intros [->|(c & s' & -> & Hc)]; simpl; [done|by rewrite Hc]. Qed.

(** When the continuation fails after every non-empty prefix of the
    run, the star takes nothing. *)
Lemma star_greedy_back (w s : text) : forall pos prev,
  all_in p w -> run_ends p s ->
  (forall x1 c x2, w = x1 ++ c :: x2 ->
     k (Cursor (pos + S (length x1)) (Some c) (x2 ++ s) caps) = None) ->
  star_greedy p (w ++ s) pos prev caps k = k (Cursor pos prev (w ++ s) caps).
Proof.
  induction w as [|c w IH]; intros pos prev Hall Hend Hk.
  - by apply star_greedy_end.
  - inversion Hall as [|? ? Hc Hall']; subst. cbn [app star_greedy]. rewrite Hc.
    rewrite IH; [|done|done|].
    + pose proof (Hk [] c w eq_refl) as H0. simpl in H0.
      replace (pos + 1) with (S pos) in H0 by lia. by rewrite H0.
    + intros x1 c' x2 ->. specialize (Hk (c :: x1) c' x2 eq_refl). simpl in Hk.
      by replace (S pos + S (length x1)) with (pos + S (S (length x1))) by lia.
Qed.
End Greedy.

(** ** main: the command line *)

Lemma list_index_none (x : text) (l : list text) : x ∉ l -> list_index x l = None.
Proof.
  induction l as [|y l IH]; intros Hx; [done|]. simpl.
  rewrite text_eqb_neq by (intros ->; apply Hx; by left).
  rewrite IH; [done|]. intros H. apply Hx. by right.
Qed.

(** [argv.index(x)] is the position of the first [x]. *)
Lemma list_index_first (x : text) (pre post : list text) :
  x ∉ pre -> list_index x (pre ++ x :: post) = Some (length pre).
Proof.
  induction pre as [|y pre IH]; intros Hx; simpl.
  - by rewrite text_eqb_refl.
  - rewrite text_eqb_neq by (intros ->; apply Hx; by left).
    rewrite IH; [done|]. intros H. apply Hx. by right.
Qed.

Lemma nth_error_after (pre : list text) (x y : text) (rest : list text) :
  nth_error (pre ++ x :: y :: rest) (length pre + 1) = Some y.
Proof.
  rewrite nth_error_app2 by lia.
  by replace (length pre + 1 - length pre) with 1 by lia.
Qed.

Lemma main_guard_passed (w : World) (argv : list text) :
  3 <= length argv ->
  main w argv
  = match list_index (py "-o") argv with
    | None => Crashed ValueError
    | Some j =>
        match nth_error argv (j + 1) with
        | None => Crashed IndexError
        | Some outfile =>
            match read_text w (nth 1 argv []) with
            | Raise e => Crashed e
            | Ok tex =>
                match build w tex with
                | Raise e => Crashed e
                | Ok (meta, bundle) =>
                    match archive_write w outfile with
                    | Some e => Crashed e
                    | None => Built outfile meta bundle
                    end
                end
            end
        end
    end.
Proof. intros H. unfold main. by destruct (Nat.ltb_spec (length argv) 3); [lia|]. Qed.

(** X7: with three or more words on the command line none of which is
    -o, main ends in the ValueError of the failed lookup; the input
    file is not read and nothing is built. *)
Theorem main_without_output_flag (w : World) (argv : list text) :
  3 <= length argv -> py "-o" ∉ argv -> main w argv = Crashed ValueError.
Proof. intros Hlen Hflag. by rewrite main_guard_passed, list_index_none. Qed.

Lemma main_without_output_flag_witness :
  main failing_world [py "create.py"; py "notes.tex"; py "out.pandora"] = Crashed ValueError.
Proof.
  apply (main_without_output_flag failing_world [py "create.py"; py "notes.tex"; py "out.pandora"]).
  - simpl. lia.
  - intros H%list_elem_of_In. vm_compute in H.
    repeat (destruct H as [H|H]; [discriminate H|]). destruct H.
Defined.

(** X8: when the first -o is the last word of a command line of three
    or more words, main ends in the IndexError of the lookup of the
    word after it; the input file is not read. *)
Theorem main_output_flag_last (w : World) (pre : list text) :
  2 <= length pre -> py "-o" ∉ pre -> main w (pre ++ [py "-o"]) = Crashed IndexError.
Proof.
  intros Hlen Hflag. rewrite main_guard_passed by (rewrite length_app; simpl; lia).
  rewrite list_index_first by done.
  destruct (nth_error (pre ++ [py "-o"]) (length pre + 1)) as [x|] eqn:E; [|done].
  assert (Hlt : length pre + 1 < length (pre ++ [py "-o"])).
  { apply nth_error_Some. by rewrite E. }
  rewrite length_app in Hlt. simpl in Hlt. lia.
Qed.

Lemma main_output_flag_last_witness :
  main failing_world ([py "create.py"; py "notes.tex"] ++ [py "-o"]) = Crashed IndexError.
Proof.
  apply (main_output_flag_last failing_world [py "create.py"; py "notes.tex"]).
  - simpl. lia.
  - intros H%list_elem_of_In. vm_compute in H.
    repeat (destruct H as [H|H]; [discriminate H|]). destruct H.
Defined.

(** X9: on a command line whose first -o follows at least one word
    and is followed by a word, main builds the archive whenever the
    input (the second word of the command line) can be read, every
    media file that exists can be copied, and the output can be opened
    for writing: the archive goes to the word after the first -o, its
    manifest carries the detected layout and one entry per parsed
    element, and no converter failure aborts the build. *)
Theorem main_builds (w : World) (pre : list text) (outfile : text) (rest : list text)
    (tex : text) :
  pre <> [] -> py "-o" ∉ pre ->
  read_text w (nth 1 (pre ++ py "-o" :: outfile :: rest) []) = Ok tex ->
  Forall (copyable w) (fst (parse_latex tex)) ->
  archive_write w outfile = None ->
  exists bundle,
    main w (pre ++ py "-o" :: outfile :: rest)
    = Built outfile
        (Manifest (detect_layout tex) (imap (entry_of w) (fst (parse_latex tex)))) bundle.
Proof.
  intros Hpre Hflag Hread Hels Hzip.
  rewrite main_guard_passed by (rewrite length_app; destruct pre; [done|simpl; lia]).
  rewrite list_index_first, nth_error_after, Hread by done.
  destruct (build_ok w tex Hels) as [bundle ->]. rewrite Hzip. by exists bundle.
Qed.

Lemma main_builds_witness :
  exists bundle,
    main two_dirs_world ([py "create.py"; py "a/fig.png"] ++ py "-o" :: py "out.pandora" :: [])
    = Built (py "out.pandora")
        (Manifest (detect_layout (py "first"))
           (imap (entry_of two_dirs_world) (fst (parse_latex (py "first"))))) bundle.
Proof.
  apply (main_builds two_dirs_world [py "create.py"; py "a/fig.png"] (py "out.pandora") []
           (py "first")).
  - discriminate.
  - intros H%list_elem_of_In. vm_compute in H.
    repeat (destruct H as [H|H]; [discriminate H|]). destruct H.
  - vm_compute. reflexivity.
  - vm_compute. by repeat constructor.
  - reflexivity.
Defined.

(** X10: on such a command line an input that cannot be read ends main
    in the exception that the read raised (FileNotFoundError for a
    missing path, IsADirectoryError for a directory, and so on);
    nothing is converted and no archive is written. *)
Theorem main_unreadable_input (w : World) (pre : list text) (outfile : text)
    (rest : list text) (e : exn) :
  pre <> [] -> py "-o" ∉ pre ->
  read_text w (nth 1 (pre ++ py "-o" :: outfile :: rest) []) = Raise e ->
  main w (pre ++ py "-o" :: outfile :: rest) = Crashed e.
Proof.
  intros Hpre Hflag Hread.
  rewrite main_guard_passed by (rewrite length_app; destruct pre; [done|simpl; lia]).
  by rewrite list_index_first, nth_error_after, Hread.
Qed.

Lemma main_unreadable_input_witness :
  main dir_world ([py "create.py"; py "."] ++ py "-o" :: py "out.pandora" :: [])
  = Crashed IsADirectoryError.
Proof.
  apply (main_unreadable_input dir_world [py "create.py"; py "."] (py "out.pandora") []).
  - discriminate.
  - intros H%list_elem_of_In. vm_compute in H.
    repeat (destruct H as [H|H]; [discriminate H|]). destruct H.
  - vm_compute. reflexivity.
Defined.

(** X25: a media file that exists and cannot be copied (a directory,
    as in \image{.}, or a file without read permission) aborts the
    run: the copy's exception leaves the loop at that element, whatever
    was converted before is lost, and main ends in that exception with
    no manifest and no archive. *)
Theorem uncopyable_media_aborts (w : World) (pre : list text) (outfile : text)
    (rest : list text) (tex : text) (before after : list element) (el : element) (e : exn) :
  pre <> [] -> py "-o" ∉ pre ->
  read_text w (nth 1 (pre ++ py "-o" :: outfile :: rest) []) = Ok tex ->
  fst (parse_latex tex) = before ++ el :: after ->
  Forall (copyable w) before -> copy_raises w el e ->
  dispatch w (fst (parse_latex tex)) = Raise e
  /\ main w (pre ++ py "-o" :: outfile :: rest) = Crashed e.
Proof.
  intros Hpre Hflag Hread Hels Hbefore Hel.
  assert (Hrun : dispatch w (fst (parse_latex tex)) = Raise e).
  { rewrite Hels. by apply dispatch_raises. }
  split; [done|].
  rewrite main_guard_passed by (rewrite length_app; destruct pre; [done|simpl; lia]).
  rewrite list_index_first, nth_error_after, Hread by done.
  unfold build. destruct (parse_latex tex) as [els lay]. cbn [fst] in Hrun. by rewrite Hrun.
Qed.

Lemma uncopyable_media_aborts_witness :
  dispatch dir_world (fst (parse_latex (py "\image{.}"))) = Raise IsADirectoryError
  /\ main dir_world ([py "create.py"; py "notes.tex"] ++ py "-o" :: py "out.pandora" :: [])
     = Crashed IsADirectoryError.
Proof.
  apply (uncopyable_media_aborts dir_world [py "create.py"; py "notes.tex"] (py "out.pandora") []
           (py "\image{.}") [] [] (EMedia Image (py ".") None None None) IsADirectoryError).
  - discriminate.
  - intros H%list_elem_of_In. vm_compute in H.
    repeat (destruct H as [H|H]; [discriminate H|]). destruct H.
  - vm_compute. reflexivity.
  - vm_compute. reflexivity.
  - constructor.
  - split; vm_compute; reflexivity.
Defined.

(** X26: when the output cannot be opened for writing (its directory
    is missing, say), main ends in the exception of zipfile.ZipFile
    after every element has been converted; no archive is written. *)
Theorem main_unwritable_output (w : World) (pre : list text) (outfile : text)
    (rest : list text) (tex : text) (e : exn) :
  pre <> [] -> py "-o" ∉ pre ->
  read_text w (nth 1 (pre ++ py "-o" :: outfile :: rest) []) = Ok tex ->
  Forall (copyable w) (fst (parse_latex tex)) ->
  archive_write w outfile = Some e ->
  (exists meta bundle, build w tex = Ok (meta, bundle))
  /\ main w (pre ++ py "-o" :: outfile :: rest) = Crashed e.
Proof.
  intros Hpre Hflag Hread Hels Hzip.
  destruct (build_ok w tex Hels) as [bundle Hb]. split; [eauto|].
  rewrite main_guard_passed by (rewrite length_app; destruct pre; [done|simpl; lia]).
  by rewrite list_index_first, nth_error_after, Hread, Hb, Hzip.
Qed.

Lemma main_unwritable_output_witness :
  (exists meta bundle, build dir_world (py "Hello") = Ok (meta, bundle))
  /\ main dir_world ([py "create.py"; py "plain.tex"] ++ py "-o" :: py "missing/out.pandora" :: [])
     = Crashed FileNotFoundError.
Proof.
  apply (main_unwritable_output dir_world [py "create.py"; py "plain.tex"]
           (py "missing/out.pandora") [] (py "Hello") FileNotFoundError).
  - discriminate.
  - intros H%list_elem_of_In. vm_compute in H.
    repeat (destruct H as [H|H]; [discriminate H|]). destruct H.
  - vm_compute. reflexivity.
  - vm_compute. by repeat constructor.
  - vm_compute. reflexivity.
Defined.

(** ** The files of the bundle *)

Section Copies.
Variable w : World.

Lemma copies_after_app els1 els2 i tmp :
  copies_after w i (els1 ++ els2) tmp
  = copies_after w (i + length els1) els2 (copies_after w i els1 tmp).
Proof.
  revert i tmp. induction els1 as [|el els1 IH]; intros i tmp; simpl.
  - by rewrite Nat.add_0_r.
  - rewrite IH. f_equal. lia.
Qed.

(** A file to which no element of [els] copies is left as it was. *)
Lemma copies_after_frame rel els : forall i tmp,
  (forall j el, els !! j = Some el -> ~ copies_to w (i + j) el rel) ->
  copies_after w i els tmp !! rel = tmp !! rel.
Proof.
  induction els as [|el els IH]; intros i tmp Hno; [done|].
  cbn [copies_after]. rewrite IH.
  - pose proof (Hno 0 el eq_refl) as H0. rewrite Nat.add_0_r in H0.
    unfold store. destruct (copied w i el) as [[rel' content]|] eqn:E; [|done].
    apply lookup_insert_ne. intros ->. apply H0. by exists content.
  - intros j el' Hj. replace (S i + j) with (i + S j) by lia. by apply (Hno (S j)).
Qed.

Lemma store_copied_lookup i el rel content tmp :
  copied w i el = Some (rel, content) ->
  store (copied w i el) tmp !! rel = Some content.
Proof. intros ->. apply lookup_insert_eq. Qed.

(** The last element that copies to a path decides its content. *)
Lemma copies_after_last rel content els k el tmp :
  els !! k = Some el ->
  copied w k el = Some (rel, content) ->
  (forall j el', k < j -> els !! j = Some el' -> ~ copies_to w j el' rel) ->
  copies_after w 0 els tmp !! rel = Some content.
Proof.
  intros Hk Hw Hlast.
  rewrite <- (take_drop_middle els k el Hk), copies_after_app.
  assert (Hlen : length (take k els) = k).
  { rewrite length_take. apply lookup_lt_Some in Hk. lia. }
  rewrite Hlen. cbn [copies_after Nat.add]. rewrite copies_after_frame.
  - by apply store_copied_lookup.
  - intros j el' Hj. apply Hlast; [lia|].
    rewrite <- (take_drop_middle els k el Hk).
    rewrite lookup_app_r by (rewrite Hlen; lia). rewrite Hlen.
    by replace (S k + j - k) with (S j) by lia.
Qed.

(** A copy in the directory was made by some element, and by none
    after it. *)
Lemma copies_after_origin rel content els : forall i tmp,
  copies_after w i els tmp !! rel = Some content ->
  tmp !! rel = Some content
  /\ (forall j el, els !! j = Some el -> ~ copies_to w (i + j) el rel)
  \/ exists k el, els !! k = Some el /\ copied w (i + k) el = Some (rel, content)
       /\ forall j el', k < j -> els !! j = Some el' -> ~ copies_to w (i + j) el' rel.
Proof.
  induction els as [|el els IH]; intros i tmp Hlook.
  - left. split; [done|]. by intros j el.
  - cbn [copies_after] in Hlook.
    destruct (IH _ _ Hlook) as [[Hst Hno]|(k & el' & Hk & Hw & Hlast)].
    + unfold store in Hst. destruct (copied w i el) as [[rel' content']|] eqn:E.
      * destruct (decide (rel' = rel)) as [->|Hne].
        -- rewrite lookup_insert_eq in Hst. injection Hst as ->.
           right. exists 0, el. rewrite Nat.add_0_r. split_and!; [done|done|].
           intros [|j] el'' Hj Hel; [lia|].
           replace (i + S j) with (S i + j) by lia. by apply Hno.
        -- rewrite lookup_insert_ne in Hst by done. left. split; [done|].
           intros [|j] el'' Hel.
           ++ injection Hel as <-. rewrite Nat.add_0_r. intros [c Hc].
              rewrite E in Hc. by injection Hc as -> _.
           ++ replace (i + S j) with (S i + j) by lia. by apply Hno.
      * left. split; [done|]. intros [|j] el'' Hel.
        -- injection Hel as <-. rewrite Nat.add_0_r. intros [c Hc]. by rewrite E in Hc.
        -- replace (i + S j) with (S i + j) by lia. by apply Hno.
    + right. exists (S k), el'. replace (i + S k) with (S i + k) by lia.
      split_and!; [done|done|]. intros [|j] el'' Hj Hel; [lia|].
      replace (i + S j) with (S i + j) by lia. apply (Hlast j); [lia|done].
Qed.

Lemma copies_after_mono (rel : text) (els : list element) : forall i tmp,
  is_Some (tmp !! rel) -> is_Some (copies_after w i els tmp !! rel).
Proof.
  induction els as [|el els IH]; intros i tmp Hb; [done|].
  cbn [copies_after]. apply IH. unfold store.
  destruct (copied w i el) as [[rel' content]|]; [|done].
  destruct (decide (rel' = rel)) as [->|Hne].
  - rewrite lookup_insert_eq. eauto.
  - by rewrite lookup_insert_ne.
Qed.
End Copies.

Lemma latex_rel_inj (i j : nat) : latex_rel i = latex_rel j -> i = j.
Proof.
  unfold latex_rel. intros H%app_inv_head%app_inv_tail. by apply str_of_nat_inj.
Qed.

Lemma scene_rel_inj (i j : nat) : scene_rel i = scene_rel j -> i = j.
Proof.
  unfold scene_rel. intros H%app_inv_head%app_inv_tail. by apply str_of_nat_inj.
Qed.

(** X11: in a run that completes, the files of videos/ and images/
    are decided by the last copy: a path there holds a content exactly
    when some element copied that content to it (a rendered clip to
    videos/scene_i.mp4, a media file to its kind's directory and
    basename) and no later element copied to the same path.  The
    converters work in latex/ and in the scene directories and leave
    these two directories alone. *)
Theorem bundle_last_writer (w : World) (els : list element) (sequence : list entry)
    (tmp : gmap text text) :
  dispatch w els = Ok (sequence, tmp) ->
  forall rel content,
    copy_path rel ->
    (tmp !! rel = Some content
     <-> exists k el, els !! k = Some el /\ copied w k el = Some (rel, content)
           /\ forall j el', k < j -> els !! j = Some el' -> ~ copies_to w j el' rel).
Proof.
  intros Hrun rel content Hrel. rewrite (dispatch_copies w rel Hrel _ _ _ Hrun). split.
  - intros H. destruct (copies_after_origin w rel content els 0 ∅ H) as [[Hempty _]|Hk].
    + by rewrite lookup_empty in Hempty.
    + done.
  - intros (k & el & Hk & Hw & Hlast). by eapply copies_after_last.
Qed.

Lemma bundle_last_writer_witness :
  exists sequence tmp,
    dispatch clip_world [EManim (py "self.wait()")] = Ok (sequence, tmp)
    /\ forall rel content,
         copy_path rel ->
         (tmp !! rel = Some content
          <-> exists k el, [EManim (py "self.wait()")] !! k = Some el
                /\ copied clip_world k el = Some (rel, content)
                /\ forall j el', k < j -> [EManim (py "self.wait()")] !! j = Some el' ->
                     ~ copies_to clip_world j el' rel).
Proof.
  eexists _, _. split; [vm_compute; reflexivity|].
  eapply (bundle_last_writer clip_world [EManim (py "self.wait()")]). vm_compute. reflexivity.
Defined.

(** X12: in a run that completes, an animation whose rendering left a
    clip has the entry of type video with file videos/scene_k.mp4, and
    that file is in the bundle (the clip, or a video that a later
    directive copied over it). *)
Theorem rendered_clip_in_bundle (w : World) (els : list element) (sequence : list entry)
    (tmp : gmap text text) (k : nat) (code clip : text) :
  dispatch w els = Ok (sequence, tmp) ->
  els !! k = Some (EManim code) ->
  manim_clip w k code = Some clip ->
  sequence !! k = Some (SVideo (scene_rel k)) /\ is_Some (tmp !! scene_rel k).
Proof.
  intros Hrun Hk Hclip. split.
  - rewrite (dispatch_entries _ _ _ _ Hrun), list_lookup_imap, Hk. simpl. by rewrite Hclip.
  - rewrite (dispatch_copies w _ (copy_path_scene k) _ _ _ Hrun).
    rewrite <- (take_drop_middle els k _ Hk), copies_after_app.
    cbn [copies_after]. apply copies_after_mono.
    replace (0 + length (take k els)) with k
      by (rewrite length_take; apply lookup_lt_Some in Hk; lia).
    cbn [copied]. rewrite Hclip. cbn [store]. rewrite lookup_insert_eq. eauto.
Qed.

Lemma rendered_clip_in_bundle_witness :
  exists sequence tmp,
    dispatch clip_world [EManim (py "self.wait()")] = Ok (sequence, tmp)
    /\ sequence !! 0 = Some (SVideo (scene_rel 0)) /\ is_Some (tmp !! scene_rel 0).
Proof.
  eexists _, _. split; [vm_compute; reflexivity|].
  apply (rendered_clip_in_bundle clip_world [EManim (py "self.wait()")] _ _ 0
           (py "self.wait()") (py "clip")).
  - vm_compute. reflexivity.
  - reflexivity.
  - reflexivity.
Defined.

(** X13: for a text block whose latex and dvisvgm runs both exit with
    status 0, the manifest entry names latex/block_k.svg, and once the
    block is processed the directory holds at that path exactly what
    dvisvgm left there: nothing when it left no file, in which case the
    entry names a file that does not exist (the return value of
    render_latex_to_svg is not looked at). *)
Theorem latex_entry_and_file (w : World) (pre : list element) (txt : text)
    (sequence : list entry) (tmp : gmap text text) :
  fst (latex_run w txt) = 0%Z -> fst (dvisvgm_run w txt) = 0%Z ->
  dispatch w (pre ++ [ELatex txt]) = Ok (sequence, tmp) ->
  sequence !! length pre = Some (SLatex (latex_rel (length pre)))
  /\ tmp !! latex_rel (length pre) = dvisvgm_svg w txt.
Proof.
  intros Hl Hd Hrun. split.
  - rewrite (dispatch_entries _ _ _ _ Hrun), list_lookup_imap.
    rewrite lookup_app_r, Nat.sub_diag by lia. simpl. by rewrite Hl, Hd.
  - revert Hrun. unfold dispatch. rewrite dispatch_loop_app.
    destruct (dispatch_loop w 0 pre ([], ∅)) as [[s1 t1]|e]; [|done].
    cbn [bind dispatch_loop dispatch_step Nat.add].
    unfold render_latex_to_svg, check_run. rewrite Hl, Hd. cbn [Z.eqb bind].
    destruct (dvisvgm_svg w txt) as [svg|]; intros [= _ <-].
    + apply lookup_insert_eq.
    + apply lookup_delete_eq.
Qed.

Lemma latex_entry_and_file_witness :
  exists sequence tmp,
    dispatch two_dirs_world ([EPagebreak] ++ [ELatex (py "x")]) = Ok (sequence, tmp)
    /\ sequence !! 1 = Some (SLatex (latex_rel 1))
    /\ tmp !! latex_rel 1 = dvisvgm_svg two_dirs_world (py "x").
Proof.
  eexists _, _. split; [vm_compute; reflexivity|].
  apply (latex_entry_and_file two_dirs_world [EPagebreak] (py "x")).
  - reflexivity.
  - reflexivity.
  - vm_compute. reflexivity.
Defined.

(** X14: a video directive whose file is named scene_i.mp4, processed
    last and after the animation at index i was rendered, is copied
    over that animation's clip: in a run that completes, the manifest
    entry of the animation then names a file that holds the directive's
    video. *)
Theorem clip_replaced_by_media (w : World) (pre : list element) (i : nat)
    (code clip file content : text) (wd ht sc : option text)
    (sequence : list entry) (tmp : gmap text text) :
  pre !! i = Some (EManim code) ->
  manim_clip w i code = Some clip ->
  path_name file = py "scene_" ++ str_of_nat i ++ py ".mp4" ->
  disk_read w file = Some content ->
  dispatch w (pre ++ [EMedia Video file wd ht sc]) = Ok (sequence, tmp) ->
  sequence !! i = Some (SVideo (scene_rel i))
  /\ tmp !! scene_rel i = Some content.
Proof.
  intros Hi Hclip Hname Hread Hrun. split.
  - rewrite (dispatch_entries _ _ _ _ Hrun), list_lookup_imap.
    rewrite lookup_app_l by (by eapply lookup_lt_Some).
    rewrite Hi. simpl. by rewrite Hclip.
  - replace (scene_rel i) with (media_rel Video file)
      by (unfold media_rel, scene_rel; by rewrite Hname).
    by eapply dispatch_media_last.
Qed.

Lemma clip_replaced_by_media_witness :
  exists sequence tmp,
    dispatch clip_world ([EManim (py "self.wait()")]
                         ++ [EMedia Video (py "my/scene_0.mp4") None None None])
    = Ok (sequence, tmp)
    /\ sequence !! 0 = Some (SVideo (scene_rel 0))
    /\ tmp !! scene_rel 0 = Some (py "mine").
Proof.
  eexists _, _. split; [vm_compute; reflexivity|].
  apply (clip_replaced_by_media clip_world [EManim (py "self.wait()")] 0
           (py "self.wait()") (py "clip") (py "my/scene_0.mp4") (py "mine") None None None).
  - reflexivity.
  - reflexivity.
  - vm_compute. reflexivity.
  - vm_compute. reflexivity.
  - vm_compute. reflexivity.
Defined.

(** X15: in a run that completes, an error entry stands only where a
    converter failed: at a text block one of whose converters exited
    with a non-zero status, or at an animation whose renderer exited
    with a non-zero status or left no clip. *)
Theorem error_entries_only_on_failure (w : World) (els : list element)
    (sequence : list entry) (tmp : gmap text text) :
  dispatch w els = Ok (sequence, tmp) ->
  forall k msg, sequence !! k = Some (SError msg) ->
    (exists txt, els !! k = Some (ELatex txt) /\ msg = latex_error k
                 /\ converter_fails w k (ELatex txt))
    \/ (exists code, els !! k = Some (EManim code) /\ msg = manim_error k
                     /\ (converter_fails w k (EManim code) \/ manim_mp4 w k code = None)).
Proof.
  intros Hrun k msg Hk. rewrite (dispatch_entries _ _ _ _ Hrun) in Hk.
  rewrite list_lookup_imap in Hk. destruct (els !! k) as [el|] eqn:Hel; [|done].
  simpl in Hk. injection Hk as Hentry.
  destruct el as [txt|code| |typ f wd ht sc]; simpl in Hentry; try done.
  - left. exists txt. simpl.
    destruct (Z.eqb_spec (fst (latex_run w txt)) 0) as [H1|H1];
      destruct (Z.eqb_spec (fst (dvisvgm_run w txt)) 0) as [H2|H2]; simpl in Hentry;
      try done; injection Hentry as <-; split_and!; auto.
  - right. exists code. simpl. unfold manim_clip, check_run in Hentry.
    destruct (Z.eqb_spec (fst (manim_run w k code)) 0) as [H1|H1].
    + destruct (manim_mp4 w k code) eqn:E; [done|]. injection Hentry as <-. auto.
    + injection Hentry as <-. auto.
Qed.

Lemma error_entries_only_on_failure_witness :
  exists sequence tmp,
    dispatch failing_world [ELatex (py "\oops")] = Ok (sequence, tmp)
    /\ forall k msg, sequence !! k = Some (SError msg) ->
         (exists txt, [ELatex (py "\oops")] !! k = Some (ELatex txt) /\ msg = latex_error k
                      /\ converter_fails failing_world k (ELatex txt))
         \/ (exists code, [ELatex (py "\oops")] !! k = Some (EManim code)
                          /\ msg = manim_error k
                          /\ (converter_fails failing_world k (EManim code)
                              \/ manim_mp4 failing_world k code = None)).
Proof.
  eexists _, _. split; [vm_compute; reflexivity|].
  eapply (error_entries_only_on_failure failing_world [ELatex (py "\oops")]).
  vm_compute. reflexivity.
Defined.

(** ** run_manim: the scene file *)

Lemma splitlines_from_line (l t cur : text) :
  one_line l -> splitlines_from (l ++ t) cur = splitlines_from t (rev l ++ cur).
Proof.
  revert cur. induction l as [|c l IH]; intros cur Hl; [done|].
  inversion Hl as [|? ? Hc Hl']; subst. cbn [app splitlines_from]. rewrite Hc.
  rewrite IH by done. simpl. by rewrite <- app_assoc.
Qed.

Lemma splitlines_from_newline (t cur : text) :
  splitlines_from (NL :: t) cur = rev cur :: splitlines_from t [].
Proof. cbn [splitlines_from]. by destruct t. Qed.

(** The lines that [splitlines] returns hold no line boundary. *)
Lemma splitlines_from_one_line (n : nat) : forall t cur,
  length t <= n -> one_line cur -> Forall one_line (splitlines_from t cur).
Proof.
  induction n as [|n IH]; intros t cur Hlen Hcur.
  - destruct t; [|simpl in Hlen; lia]. cbn [splitlines_from].
    destruct cur; [constructor|]. constructor; [|constructor].
    by apply Forall_rev.
  - destruct t as [|c t]; cbn [splitlines_from].
    + destruct cur; [constructor|]. constructor; [|constructor].
      by apply Forall_rev.
    + simpl in Hlen. destruct (is_linebreak c) eqn:Hc.
      * constructor.
        -- by apply Forall_rev.
        -- destruct t as [|c' t]; [constructor|]. simpl in Hlen.
           destruct (N.eqb c 13 && N.eqb c' 10); apply IH; simpl; try lia; constructor.
      * apply IH; [lia|]. by constructor.
Qed.

Lemma splitlines_one_line (t : text) : Forall one_line (splitlines t).
Proof. apply (splitlines_from_one_line (length t)); [done|constructor]. Qed.

(** Joining lines with newlines and splitting again gives the lines
    back, when none of them is empty. *)
Lemma splitlines_join (ls : list text) :
  Forall (fun l => l <> [] /\ one_line l) ls -> splitlines (join [NL] ls) = ls.
Proof.
  unfold splitlines. induction ls as [|l ls IH]; intros Hls; [done|].
  inversion Hls as [|? ? [Hne Hl] Hls']; subst. destruct ls as [|l2 ls].
  - simpl. rewrite <- (app_nil_r l) at 1. rewrite splitlines_from_line by done.
    rewrite app_nil_r. cbn [splitlines_from]. destruct (rev l) eqn:E.
    + apply (f_equal (@rev N)) in E. rewrite rev_involutive in E. done.
    + by rewrite <- E, rev_involutive.
  - change (join [NL] (l :: l2 :: ls)) with (l ++ NL :: join [NL] (l2 :: ls)).
    rewrite splitlines_from_line by done. rewrite splitlines_from_newline.
    rewrite app_nil_r, rev_involutive. f_equal. by apply IH.
Qed.

Lemma indent8_one_line (l : text) : one_line l -> one_line (indent8 ++ l).
Proof. intros Hl. apply Forall_app_2; [|done]. by repeat constructor. Qed.

(** X16: the body of the generated scene has the lines of the trimmed
    animation code, each behind eight spaces and in the same order;
    every line boundary of the code becomes one newline. *)
Theorem scene_body_lines (code : text) :
  splitlines (indented_code code) = map (app indent8) (splitlines (strip code)).
Proof.
  unfold indented_code. apply splitlines_join.
  apply Forall_forall. intros l (l0 & -> & Hl0)%list_elem_of_fmap. split; [done|].
  apply indent8_one_line.
  pose proof (splitlines_one_line (strip code)) as H. rewrite Forall_forall in H. by apply H.
Qed.

Lemma str_of_uint_digits (u : Decimal.uint) :
  all_in digit (py (NilEmpty.string_of_uint u)).
Proof. induction u; simpl; by constructor. Qed.

Lemma str_of_nat_digits (i : nat) : all_in digit (str_of_nat i).
Proof. apply str_of_uint_digits. Qed.

Lemma str_of_nat_no_slash (i : nat) : 47%N ∉ str_of_nat i.
Proof.
  intros H. pose proof (str_of_nat_digits i) as Hd. unfold all_in in Hd.
  rewrite Forall_forall in Hd. by apply Hd in H.
Qed.

(** Two texts that end at the first occurrence of a character. *)
Lemma app_until_inj (c : N) (s1 s2 r1 r2 : text) :
  c ∉ s1 -> c ∉ s2 -> s1 ++ c :: r1 = s2 ++ c :: r2 -> s1 = s2.
Proof.
  revert s2. induction s1 as [|x s1 IH]; intros [|y s2] H1 H2 Heq; simpl in Heq.
  - done.
  - injection Heq as -> _. exfalso. apply H2. by left.
  - injection Heq as -> _. exfalso. apply H1. by left.
  - injection Heq as -> Heq. f_equal. apply IH; [| |done].
    + intros H. apply H1. by right.
    + intros H. apply H2. by right.
Qed.

Lemma class_name_inj (i j : nat) : class_name i = class_name j -> i = j.
Proof. unfold class_name. intros H%app_inv_head. by apply str_of_nat_inj. Qed.

Lemma scene_file_inj (i j : nat) : scene_file i = scene_file j -> i = j.
Proof.
  unfold scene_file. intros H%app_inv_head. apply str_of_nat_inj.
  by apply (app_until_inj 47%N _ _ _ _ (str_of_nat_no_slash i) (str_of_nat_no_slash j) H).
Qed.

(** X17: animations and text blocks at different positions of the
    element list never share a scene class, a scene file, a clip or a
    picture: the names are injective in the position. *)
Theorem names_distinct (i j : nat) :
  i <> j ->
  class_name i <> class_name j /\ scene_file i <> scene_file j
  /\ scene_rel i <> scene_rel j /\ latex_rel i <> latex_rel j.
Proof.
  intros Hij. split_and!; intros H; apply Hij.
  - by apply class_name_inj.
  - by apply scene_file_inj.
  - by apply scene_rel_inj.
  - by apply latex_rel_inj.
Qed.

Lemma names_distinct_witness :
  class_name 1 <> class_name 10 /\ scene_file 1 <> scene_file 10
  /\ scene_rel 1 <> scene_rel 10 /\ latex_rel 1 <> latex_rel 10.
Proof. apply (names_distinct 1 10). lia. Defined.

(** ** render_latex_to_svg: the cleaned block *)

(** A scan that finds no match at any position finds nothing. *)
Lemma scan_none (r : regex) (t : text) : forall prev p,
  (forall s1 s2 prev' p', t = s1 ++ s2 -> match_at r prev' p' s2 = None) ->
  scan r t 0 prev p = [].
Proof.
  induction t as [|c t IH]; intros prev p Hnone; cbn [scan].
  - by rewrite (Hnone [] []).
  - rewrite (Hnone [] (c :: t)) by done. apply IH.
    intros s1 s2 prev' p' ->. by apply (Hnone (c :: s1) s2).
Qed.

Lemma clean_re_start (a b : cursor) :
  rm clean_re a b -> exists key s', cleaned_command key /\ c_rest a = key ++ s'.
Proof.
  unfold clean_re, cleaned_command, preamble_command. cbn [rm].
  intros [(m & (Hr & _) & _)|[(m & (Hr & _) & _)|[(Hr & _)|(Hr & _)]]]; eauto 10.
Qed.

Lemma clean_re_bs : starts_bs clean_re.
Proof.
  intros a b (key & s' & Hkey & ->)%clean_re_start.
  destruct Hkey as [[->| ->]|[->| ->]]; simpl; eauto.
Qed.

Lemma re_delete_none (r : regex) (t : text) : re_finditer r t = [] -> re_delete r t = t.
Proof. intros H. unfold re_delete. by rewrite re_sub_none. Qed.

(** X18: a block in which none of the four commands \documentclass,
    \usepackage, \begin{document} and \end{document} occurs is given
    to latex as it is (trimmed, between the two halves of the
    template). *)
Theorem clean_code_identity (tex_code : text) :
  (forall key, cleaned_command key -> ~ occurs key tex_code) ->
  clean_code tex_code = tex_code
  /\ temp_tex tex_code = LATEX_TEMPLATE_head ++ strip tex_code ++ LATEX_TEMPLATE_tail.
Proof.
  intros Hno. assert (H : clean_code tex_code = tex_code).
  { apply re_delete_none, scan_none. intros s1 s2 prev p -> .
    destruct (match_at clean_re prev p s2) as [m|] eqn:Hm; [|done]. exfalso.
    apply match_at_sound in Hm as (b & Hrm & _).
    apply clean_re_start in Hrm as (key & s' & Hkey & Hrest). simpl in Hrest. subst s2.
    apply (Hno key Hkey). by exists s1, s'. }
  split; [done|]. unfold temp_tex. by rewrite H.
Qed.

Lemma clean_code_identity_witness :
  clean_code (py "$x^2$") = py "$x^2$"
  /\ temp_tex (py "$x^2$") = LATEX_TEMPLATE_head ++ strip (py "$x^2$") ++ LATEX_TEMPLATE_tail.
Proof.
  apply (clean_code_identity (py "$x^2$")).
  intros key [[->| ->]|[->| ->]]; apply not_occurs_plain; not_in_text.
Defined.

Lemma preamble_match (key rest tail : text) (prev : option N) (p : nat) :
  preamble_command key -> NL ∉ rest -> run_ends dot tail ->
  match_at clean_re prev p (key ++ rest ++ tail)
  = Some (Mtch p (p + length (key ++ rest)) (key ++ rest) []).
Proof.
  intros Hkey Hrest Htail.
  assert (Hall : all_in dot rest).
  { apply Forall_forall. intros c Hc. unfold dot.
    destruct (N.eqb_spec c NL) as [->|]; [by apply Hrest in Hc|done]. }
  assert (Hstar : forall pos prv,
            star_greedy dot (rest ++ tail) pos prv [] Some
            = Some (Cursor (pos + length rest) (last_or prv rest) tail [])).
  { intros pos prv. apply star_greedy_skip; [done|]. by rewrite star_greedy_end. }
  unfold match_at, clean_re. destruct Hkey as [-> | ->].
  - cbn [exec].
    rewrite (lit_complete (py "\documentclass")
               (Cursor 0 prev (py "\documentclass" ++ rest ++ tail) [])
               (Cursor 14 (Some 115%N) (rest ++ tail) [])) by (by split_and!).
    cbn [c_rest c_pos c_prev c_caps]. rewrite Hstar. cbn [c_pos c_caps].
    replace (14 + length rest) with (length (py "\documentclass" ++ rest))
      by (by rewrite length_app).
    by rewrite app_assoc, take_app_length.
  - cbn [exec].
    destruct (lit (py "\documentclass") (Cursor 0 prev (py "\usepackage" ++ rest ++ tail) []))
      as [b|] eqn:E.
    { apply lit_sound in E as (Hr & _). simpl in Hr. discriminate Hr. }
    rewrite (lit_complete (py "\usepackage")
               (Cursor 0 prev (py "\usepackage" ++ rest ++ tail) [])
               (Cursor 11 (Some 101%N) (rest ++ tail) [])) by (by split_and!).
    cbn [c_rest c_pos c_prev c_caps]. rewrite Hstar. cbn [c_pos c_caps].
    replace (11 + length rest) with (length (py "\usepackage" ++ rest))
      by (by rewrite length_app).
    by rewrite app_assoc, take_app_length.
Qed.

(** X19: \documentclass and \usepackage are deleted together with
    everything that follows them on their line, whatever it is; the
    backslash-free text before the command and from the end of the line
    on is kept. *)
Theorem clean_code_drops_line (a key rest tail : text) :
  92%N ∉ a -> preamble_command key -> NL ∉ rest ->
  92%N ∉ tail -> run_ends dot tail ->
  clean_code (a ++ (key ++ rest) ++ tail) = a ++ tail.
Proof.
  intros Ha Hkey Hrest Htail Hend.
  assert (Hne : key ++ rest <> []) by (by destruct Hkey as [-> | ->]).
  assert (Hfind : re_finditer clean_re (a ++ (key ++ rest) ++ tail)
                  = [Mtch (length a) (length a + length (key ++ rest)) (key ++ rest) []]).
  { unfold re_finditer.
    destruct (scan_plain _ clean_re_bs a ((key ++ rest) ++ tail) None 0 Ha) as [prev ->].
    destruct (scan_hit clean_re (key ++ rest) tail prev (0 + length a)
                (Mtch (0 + length a) (0 + length a + length (key ++ rest)) (key ++ rest) []))
      as [prev' ->]; [|done|done|].
    - rewrite <- app_assoc. by apply preamble_match.
    - by rewrite (scan_plain_end _ clean_re_bs tail). }
  unfold clean_code, re_delete, re_sub. rewrite Hfind.
  cbn [sub_loop m_start m_end fst app]. unfold slice.
  rewrite drop_0, Nat.sub_0_r, take_app_length, app_nil_r. f_equal.
  replace (a ++ (key ++ rest) ++ tail) with ((a ++ key ++ rest) ++ tail)
    by (by rewrite <- !app_assoc).
  by rewrite <- (length_app a (key ++ rest)), drop_app_length.
Qed.

Lemma clean_code_drops_line_witness :
  clean_code (py "Intro " ++ (py "\usepackage" ++ py "{tikz} lost text") ++ [NL] ++ py "kept")
  = py "Intro " ++ [NL] ++ py "kept".
Proof.
  apply (clean_code_drops_line (py "Intro ") (py "\usepackage") (py "{tikz} lost text")
           ([NL] ++ py "kept")).
  - not_in_text.
  - by right.
  - not_in_text.
  - not_in_text.
  - right. by exists NL, (py "kept").
Defined.

(** ** One directive between plain text *)

Lemma lstrip_app_lstrip (a y : text) : lstrip (lstrip a ++ y) = lstrip (a ++ y).
Proof.
  induction a as [|c a IH]; [done|]. simpl.
  destruct (isspace c) eqn:Hc; [done|]. simpl. by rewrite Hc.
Qed.

Lemma rstrip_app_rstrip (x b : text) : rstrip (x ++ rstrip b) = rstrip (x ++ b).
Proof.
  unfold rstrip. rewrite !rev_app_distr, rev_involutive. by rewrite lstrip_app_lstrip.
Qed.

Lemma strip_inner (a b : text) : strip (lstrip a ++ rstrip b) = strip (a ++ b).
Proof.
  rewrite <- strip_lstrip, lstrip_app_lstrip, strip_lstrip.
  by rewrite <- strip_rstrip, rstrip_app_rstrip, strip_rstrip.
Qed.

Lemma text_block_inner (a b : text) : text_block (lstrip a ++ rstrip b) = text_block (a ++ b).
Proof. unfold text_block. by rewrite strip_inner. Qed.

(** A source without an animation region whose trimmed text is not
    empty is expanded as one text block. *)
Lemma parse_single_segment (tex : text) :
  re_finditer block_re tex = [] -> truthy (strip tex) = true ->
  fst (parse_latex tex) = expand_element [] (ELatex (strip tex)).
Proof.
  intros Hnone Ht. unfold parse_latex. cbn [fst].
  rewrite first_pass_none by done. unfold text_block. by rewrite Ht.
Qed.

(** *** Patterns that begin with a literal *)

Lemma seq_lit_no_match (w : text) (r : regex) (prev : option N) (p : nat) (s : text) :
  (forall s', s <> w ++ s') -> match_at (Lit w @@ r) prev p s = None.
Proof.
  intros Hs. destruct (match_at (Lit w @@ r) prev p s) as [m|] eqn:Hm; [|done].
  apply match_at_sound in Hm as (b & (m1 & (Hr & _) & _) & _). simpl in Hr. by apply Hs in Hr.
Qed.

Lemma break_no_match (prev : option N) (p : nat) (s : text) :
  (forall s', s <> py "\newpage" ++ s') -> (forall s', s <> py "\breakpage" ++ s') ->
  match_at break_re prev p s = None.
Proof.
  intros H1 H2. destruct (match_at break_re prev p s) as [m|] eqn:Hm; [|done].
  apply match_at_sound in Hm as (b & (b0 & [(Hr & _)|(Hr & _)] & _) & _); simpl in Hr.
  - by apply H1 in Hr.
  - by apply H2 in Hr.
Qed.

(** The scan passes a backslash at which the pattern does not match. *)
Lemma scan_bs_fail (r : regex) (t1 t2 : text) (prev : option N) (p : nat) :
  starts_bs r -> 92%N ∉ t1 ->
  (forall prev p, match_at r prev p (92%N :: t2) = None) ->
  exists prev' p', scan r (t1 ++ 92%N :: t2) 0 prev p = scan r t2 0 prev' p'.
Proof.
  intros Hr H1 Hnone. destruct (scan_plain r Hr t1 (92%N :: t2) prev p H1) as [prev' ->].
  cbn [scan]. rewrite Hnone. eauto.
Qed.

(** *** The matcher on known input *)

Lemma exec_lit_ok (w s : text) (pos : nat) (prev : option N) (caps : list (nat * text))
    (k : cursor -> option cursor) :
  exec (Lit w) (Cursor pos prev (w ++ s) caps) k
  = k (Cursor (pos + length w) (last_or prev w) s caps).
Proof.
  cbn [exec].
  by rewrite (lit_complete w _ (Cursor (pos + length w) (last_or prev w) s caps)).
Qed.

Lemma exec_lit_fail (w : text) (a : cursor) (k : cursor -> option cursor) :
  (forall s', c_rest a <> w ++ s') -> exec (Lit w) a k = None.
Proof.
  intros Hs. cbn [exec]. destruct (lit w a) as [b|] eqn:E; [|done].
  apply lit_sound in E as (Hr & _). by apply Hs in Hr.
Qed.

Lemma exec_opt_lit_skip (w : text) (a : cursor) (k : cursor -> option cursor) :
  (forall s', c_rest a <> w ++ s') -> exec (Opt (Lit w)) a k = k a.
Proof.
  intros Hs. change (exec (Opt (Lit w)) a k)
    with (match exec (Lit w) a k with Some b => Some b | None => k a end).
  by rewrite exec_lit_fail.
Qed.

Lemma inline_match (code rest : text) (prev : option N) (p : nat) :
  125%N ∉ code ->
  match_at inline_re prev p (py "\manim{" ++ code ++ py "}" ++ rest)
  = Some (Mtch p (p + length (py "\manim{" ++ code ++ py "}"))
               (py "\manim{" ++ code ++ py "}") [(1, code)]).
Proof.
  intros Hcode.
  assert (Hall : all_in not_rbrace code).
  { apply Forall_forall. intros c Hc. unfold not_rbrace.
    destruct (N.eqb_spec c 125) as [->|]; [by apply Hcode in Hc|done]. }
  unfold match_at, inline_re.
  change (exec (?r1 @@ ?r2) ?a ?k) with (exec r1 a (fun b => exec r2 b k)).
  rewrite exec_lit_ok.
  change (exec (Group 1 (Star not_rbrace) @@ ?r2) ?a ?k)
    with (exec (Group 1 (Star not_rbrace)) a (fun b => exec r2 b k)).
  cbn [exec c_rest c_pos c_prev c_caps].
  erewrite star_greedy_skip; [|exact Hall|].
  2:{ rewrite star_greedy_end by (right; by exists 125%N, rest).
      cbn [set_cap c_pos c_rest c_prev c_caps].
      rewrite (lit_complete (py "}") _
                 (Cursor (0 + length (py "\manim{") + length code + 1) (Some 125%N) rest
                    [(1, take (0 + length (py "\manim{") + length code - (0 + length (py "\manim{")))
                               (code ++ py "}" ++ rest))])); [reflexivity|].
      unfold consumes. cbn [c_rest c_pos c_prev c_caps]. split_and!; done. }
  cbn [c_pos c_caps]. f_equal.
  replace (0 + length (py "\manim{") + length code - (0 + length (py "\manim{")))
    with (length code) by lia.
  rewrite take_app_length. f_equal.
  - rewrite !length_app. simpl. lia.
  - replace (0 + length (py "\manim{") + length code + 1)
      with (length (py "\manim{" ++ code ++ py "}")) by (rewrite !length_app; simpl; lia).
    rewrite !app_assoc. rewrite take_app_length. by rewrite <- !app_assoc.
Qed.

(** *** An inline animation *)

Section OneInline.
Variables a code b : text.
Hypothesis a_plain : 92%N ∉ a.
Hypothesis b_plain : 92%N ∉ b.
Hypothesis code_plain : 92%N ∉ code.
Hypothesis code_open : 125%N ∉ code.

Lemma one_inline_tail_plain : 92%N ∉ py "manim{" ++ code ++ py "}" ++ b.
Proof.
  rewrite !elem_of_app. intros [H|[H|[H|H]]]; [|done| |done]; revert H; not_in_text.
Qed.

Lemma one_inline_no_match (r : regex) :
  starts_bs r ->
  (forall prev p s, match_at r prev p (py "\manim{" ++ s) = None) ->
  re_finditer r (a ++ (py "\manim{" ++ code ++ py "}") ++ b) = [].
Proof.
  intros Hbs Hnone. unfold re_finditer. rewrite <- !app_assoc.
  change (py "\manim{" ++ ?s) with (92%N :: py "manim{" ++ s).
  apply scan_one_bs; [done|done|apply one_inline_tail_plain|].
  intros prev p. apply (Hnone prev p (code ++ py "}" ++ b)).
Qed.

Lemma one_inline_finditer :
  re_finditer inline_re (a ++ (py "\manim{" ++ code ++ py "}") ++ b)
  = [Mtch (length a) (length a + length (py "\manim{" ++ code ++ py "}"))
          (py "\manim{" ++ code ++ py "}") [(1, code)]].
Proof.
  unfold re_finditer.
  destruct (scan_plain _ inline_re_bs a ((py "\manim{" ++ code ++ py "}") ++ b) None 0 a_plain)
    as [prev ->].
  destruct (scan_hit inline_re (py "\manim{" ++ code ++ py "}") b prev (0 + length a)
              (Mtch (0 + length a) (0 + length a + length (py "\manim{" ++ code ++ py "}"))
                    (py "\manim{" ++ code ++ py "}") [(1, code)]))
    as [prev' ->]; [|done|done|].
  - rewrite <- !app_assoc. by apply inline_match.
  - by rewrite (scan_plain_end _ inline_re_bs b).
Qed.

Lemma one_inline_expand :
  expand_element [] (ELatex (a ++ (py "\manim{" ++ code ++ py "}") ++ b))
  = EManim code :: text_block (a ++ b).
Proof.
  unfold expand_element, re_sub. rewrite one_inline_finditer.
  cbn [sub_loop repl_inline m_start m_end group m_caps cap_lookup Nat.eqb app].
  unfold slice. rewrite drop_0, Nat.sub_0_r, take_app_length, app_nil_r.
  replace (drop (length a + length (py "\manim{" ++ code ++ py "}"))
             (a ++ (py "\manim{" ++ code ++ py "}") ++ b)) with b.
  2:{ rewrite (app_assoc a). by rewrite <- (length_app a), drop_app_length. }
  assert (Hab : 92%N ∉ a ++ b) by (rewrite elem_of_app; tauto).
  rewrite (re_split_none _ _ (finditer_plain _ (a ++ b) break_re_bs Hab)). cbn [fold_left].
  by rewrite expand_part_plain.
Qed.
End OneInline.

(** X20: a source made of backslash-free text, one inline animation
    \manim{code} whose code holds neither a backslash nor a closing
    brace, and backslash-free text again gives the animation first,
    with the code exactly as written (not trimmed), and then one text
    block that joins the text before and after the directive. *)
Theorem inline_between_text (a code b : text) :
  92%N ∉ a -> 92%N ∉ b -> 92%N ∉ code -> 125%N ∉ code ->
  fst (parse_latex (a ++ (py "\manim{" ++ code ++ py "}") ++ b))
  = EManim code :: text_block (a ++ b).
Proof.
  intros Ha Hb Hc1 Hc2.
  assert (Hstrip : strip (a ++ (py "\manim{" ++ code ++ py "}") ++ b)
                   = lstrip a ++ (py "\manim{" ++ code ++ py "}") ++ rstrip b).
  { replace (a ++ (py "\manim{" ++ code ++ py "}") ++ b)
      with (a ++ 92%N :: (py "manim{" ++ code) ++ 125%N :: b)
      by (simpl; by rewrite <- !app_assoc).
    rewrite (strip_around a (py "manim{" ++ code) b 92%N 125%N eq_refl eq_refl).
    simpl. by rewrite <- !app_assoc. }
  rewrite parse_single_segment.
  - rewrite Hstrip, one_inline_expand.
    + by rewrite text_block_inner.
    + intros H. by apply Ha, elem_of_lstrip.
    + intros H. by apply Hb, elem_of_rstrip.
    + done.
  - apply one_inline_no_match; [done|done|done|apply block_re_bs|].
    intros prev p s. apply seq_lit_no_match. by intros s' [=].
  - rewrite Hstrip. by destruct (lstrip a).
Qed.

Lemma inline_between_text_witness :
  fst (parse_latex (py "Before " ++ (py "\manim{" ++ py " self.wait(1) " ++ py "}") ++ py " after"))
  = EManim (py " self.wait(1) ") :: text_block (py "Before " ++ py " after").
Proof.
  apply (inline_between_text (py "Before ") (py " self.wait(1) ") (py " after")).
  - not_in_text.
  - not_in_text.
  - not_in_text.
  - not_in_text.
Defined.

(** ** A media directive without options *)

Lemma not_in_all_in (x : N) (p : N -> bool) (t : text) :
  (forall c, p c = false -> c = x) -> x ∉ t -> all_in p t.
Proof.
  intros Hp Ht. apply Forall_forall. intros c Hc.
  destruct (p c) eqn:E; [done|]. apply Hp in E. subst c. by apply Ht in Hc.
Qed.

Lemma not_rbrace_false (c : N) : not_rbrace c = false -> c = 125%N.
Proof. unfold not_rbrace. by destruct (N.eqb_spec c 125). Qed.

Lemma not_rbracket_false (c : N) : not_rbracket c = false -> c = 93%N.
Proof. unfold not_rbracket. by destruct (N.eqb_spec c 93). Qed.

(** Without an opening brace ahead the rest of the pattern cannot
    match. *)
Lemma media_tail_fail (a : cursor) (k : cursor -> option cursor) :
  123%N ∉ c_rest a -> exec media_tail a k = None.
Proof.
  intros Hno. destruct (exec media_tail a k) as [res|] eqn:E; [|done]. exfalso.
  apply exec_sound in E as (b & Hrm & _).
  destruct Hrm as (m1 & Hopt & m2 & (Hr2 & _) & _). apply Hno.
  destruct Hopt as [(Hr1 & _)| ->].
  - rewrite Hr1, Hr2. right. by left.
  - rewrite Hr2. by left.
Qed.

Lemma media_tail_ok (f rest : text) (pos : nat) (prev : option N) (caps : list (nat * text)) :
  f <> [] -> 125%N ∉ f ->
  exec media_tail (Cursor pos prev (py "{" ++ f ++ py "}" ++ rest) caps) Some
  = Some (Cursor (pos + 1 + length f + 1) (Some 125%N) rest ((2, f) :: caps)).
Proof.
  intros Hne Hf. unfold media_tail.
  change (exec (?r1 @@ ?r2) ?a ?k) with (exec r1 a (fun b => exec r2 b k)).
  rewrite exec_opt_lit_skip by (by intros s' [=]).
  change (exec (?r1 @@ ?r2) ?a ?k) with (exec r1 a (fun b => exec r2 b k)).
  rewrite exec_lit_ok.
  change (exec (?r1 @@ ?r2) ?a ?k) with (exec r1 a (fun b => exec r2 b k)).
  destruct f as [|c f]; [done|].
  assert (Hc : not_rbrace c = true).
  { destruct (not_rbrace c) eqn:E; [done|]. apply not_rbrace_false in E. subst c.
    exfalso. apply Hf. by left. }
  assert (Hall : all_in not_rbrace f).
  { apply (not_in_all_in 125%N); [apply not_rbrace_false|]. intros H. apply Hf. by right. }
  cbn [exec c_rest c_pos c_prev c_caps app]. rewrite Hc.
  erewrite star_greedy_skip; [reflexivity|exact Hall|].
  rewrite star_greedy_end by (right; by exists 125%N, rest).
  cbn [set_cap c_pos c_rest c_prev c_caps]. cbn [length].
  rewrite (lit_complete (py "}") _
             (Cursor (pos + 1 + S (length f) + 1) (Some 125%N) rest ((2, c :: f) :: caps))).
  - done.
  - unfold consumes. cbn [c_rest c_pos c_prev c_caps]. split_and!; try done.
    + simpl. lia.
    + f_equal. f_equal.
      replace (S (pos + length (py "{")) + length f - (pos + length (py "{")))
        with (length (c :: f)) by (simpl; lia).
      change (c :: f ++ py "}" ++ rest) with ((c :: f) ++ py "}" ++ rest).
      by rewrite take_app_length.
Qed.

(** A text splits into its longest leading run of a class and the
    rest. *)
Lemma run_split (p : N -> bool) (t : text) :
  exists r s, t = r ++ s /\ all_in p r /\ run_ends p s.
Proof.
  induction t as [|c t (r & s & -> & Hr & Hs)].
  - exists [], []. split_and!; [done|constructor|by left].
  - destruct (p c) eqn:Hc.
    + exists (c :: r), s. split_and!; [done|by constructor|done].
    + exists [], (c :: r ++ s). split_and!; [done|constructor|]. right. by exists c, (r ++ s).
Qed.

Lemma media_match (typ : media_kind) (g f rest : text) (prev : option N) (p : nat) :
  93%N ∉ g -> (forall g', g <> 91%N :: g') ->
  f <> [] -> 125%N ∉ f -> 123%N ∉ f -> 123%N ∉ rest ->
  match_at (media_re typ) prev p
    ((py "\" ++ kind_name typ) ++ g ++ py "{" ++ f ++ py "}" ++ rest)
  = Some (media_matched typ p g f).
Proof.
  intros Hg Hg0 Hne Hf125 Hf123 Hrest.
  assert (Hgall : all_in not_rbracket g)
    by (by apply (not_in_all_in 93%N); [apply not_rbracket_false|]).
  destruct (run_split not_rbracket (py "{" ++ f ++ py "}" ++ rest)) as (R & s & HR & HRall & Hs).
  unfold match_at.
  change (media_re typ)
    with (Lit (py "\" ++ kind_name typ) @@ Opt (Lit (py "[")) @@ Group 1 (Star not_rbracket)
            @@ media_tail).
  change (exec (?r1 @@ ?r2) ?a ?k) with (exec r1 a (fun b => exec r2 b k)).
  rewrite exec_lit_ok.
  change (exec (?r1 @@ ?r2) ?a ?k) with (exec r1 a (fun b => exec r2 b k)).
  rewrite exec_opt_lit_skip.
  2:{ cbn [c_rest]. intros s' Heq. destruct g as [|c g]; [by injection Heq|].
      injection Heq as -> _. by apply (Hg0 g). }
  change (exec (?r1 @@ ?r2) ?a ?k) with (exec r1 a (fun b => exec r2 b k)).
  cbn [exec c_rest c_pos c_prev c_caps].
  set (n := 0 + length (py "\" ++ kind_name typ)).
  set (text0 := g ++ py "{" ++ f ++ py "}" ++ rest).
  set (K := fun b : cursor => exec media_tail (set_cap 1 (take (c_pos b - n) text0) b) Some).
  assert (HK : K (Cursor (n + length g) (last_or (last_or prev (py "\" ++ kind_name typ)) g)
                         (py "{" ++ f ++ py "}" ++ rest) [])
               = Some (Cursor (n + length g + 1 + length f + 1) (Some 125%N) rest
                              [(2, f); (1, g)])).
  { unfold K. cbn [set_cap c_pos c_rest c_prev c_caps].
    replace (n + length g - n) with (length g) by lia.
    unfold text0. rewrite take_app_length. by apply media_tail_ok. }
  unfold text0 at 1. rewrite HR.
  erewrite star_greedy_skip; [|exact Hgall|].
  2:{ rewrite star_greedy_back; [rewrite <- HR; exact HK|exact HRall|exact Hs|].
      intros x1 c x2 HRx. unfold K. apply media_tail_fail.
      cbn [set_cap c_rest]. intros Hin.
      assert (Hsuf : 123%N ∈ f ++ py "}" ++ rest).
      { rewrite HRx in HR.
        change (py "{" ++ f ++ py "}" ++ rest) with (123%N :: f ++ py "}" ++ rest) in HR.
        destruct x1 as [|y x1]; cbn [app] in HR; apply (f_equal (drop 1)) in HR;
          cbn [drop] in HR; rewrite !drop_0 in HR; rewrite HR.
        - done.
        - rewrite <- app_assoc. rewrite elem_of_app. right. by right. }
      rewrite !elem_of_app in Hsuf. destruct Hsuf as [H|[H|H]]; [done| |done].
      revert H. not_in_text. }
  cbn [c_pos c_caps]. unfold media_matched. f_equal. f_equal.
  - rewrite !length_app. unfold n. simpl. lia.
  - replace (n + length g + 1 + length f + 1)
      with (length ((py "\" ++ kind_name typ) ++ g ++ py "{" ++ f ++ py "}"))
      by (rewrite !length_app; unfold n; simpl; lia).
    unfold text0.
    replace ((py "\" ++ kind_name typ) ++ g ++ py "{" ++ f ++ py "}" ++ rest)
      with (((py "\" ++ kind_name typ) ++ g ++ py "{" ++ f ++ py "}") ++ rest)
      by (by rewrite <- !app_assoc).
    by rewrite take_app_length.
Qed.

Lemma size_re_needs_eq (key opt : text) :
  61%N ∉ opt -> search_group1 (size_re key) opt = None.
Proof.
  intros Hno. unfold search_group1, re_search.
  destruct (search_from (size_re key) opt None 0) as [m|] eqn:Hs; [|done]. exfalso.
  apply search_from_sound in Hs as (s1 & s2 & -> & Hm).
  apply match_at_sound in Hm as (b & Hrm & _).
  destruct Hrm as (m1 & (H1 & _) & m2 & (ws & _ & (H2 & _)) & m3 & (H3 & _) & _).
  cbn [c_rest] in H1. apply Hno. rewrite H1, H2, H3.
  rewrite !elem_of_app. right. right. right. left. by left.
Qed.

Lemma scale_re_needs_eq (opt : text) : 61%N ∉ opt -> search_group1 scale_re opt = None.
Proof.
  intros Hno. unfold search_group1, re_search.
  destruct (search_from scale_re opt None 0) as [m|] eqn:Hs; [|done]. exfalso.
  apply search_from_sound in Hs as (s1 & s2 & -> & Hm).
  apply match_at_sound in Hm as (b & Hrm & _).
  destruct Hrm as (m1 & (H1 & _) & m2 & (ws & _ & (H2 & _)) & m3 & (H3 & _) & _).
  cbn [c_rest] in H1. apply Hno. rewrite H1, H2, H3.
  rewrite !elem_of_app. right. right. right. left. by left.
Qed.

(** Without an equals sign in the option text no size is recorded. *)
Lemma parse_media_no_sizes (typ : media_kind) (p : nat) (g f : text) :
  61%N ∉ g -> parse_media (media_matched typ p g f) typ = EMedia typ (strip f) None None None.
Proof.
  intros Hg. unfold parse_media, media_matched, group. cbn [m_caps cap_lookup Nat.eqb].
  destruct (truthy g); [|done].
  by rewrite !size_re_needs_eq, scale_re_needs_eq.
Qed.

Section OneImage.
Variables a g f b : text.
Hypothesis a_plain : 92%N ∉ a.
Hypothesis b_plain : 92%N ∉ b.
Hypothesis b_open : 123%N ∉ b.
Hypothesis g_open : 93%N ∉ g.
Hypothesis g_first : forall g', g <> 91%N :: g'.
Hypothesis f_some : f <> [].
Hypothesis f_closed : 125%N ∉ f.
Hypothesis f_open : 123%N ∉ f.

Lemma one_image_finditer :
  re_finditer (media_re Image) (a ++ ((py "\" ++ kind_name Image) ++ g ++ py "{" ++ f ++ py "}") ++ b)
  = [media_matched Image (length a) g f].
Proof.
  unfold re_finditer.
  destruct (scan_plain _ (media_re_bs Image) a
              (((py "\" ++ kind_name Image) ++ g ++ py "{" ++ f ++ py "}") ++ b) None 0 a_plain)
    as [prev ->].
  destruct (scan_hit (media_re Image) ((py "\" ++ kind_name Image) ++ g ++ py "{" ++ f ++ py "}")
              b prev (0 + length a) (media_matched Image (0 + length a) g f))
    as [prev' ->]; [|done|done|].
  - rewrite <- !app_assoc. rewrite (app_assoc (py "\") (kind_name Image)). by apply media_match.
  - by rewrite (scan_plain_end _ (media_re_bs Image) b).
Qed.

Lemma one_image_strip :
  strip (a ++ ((py "\" ++ kind_name Image) ++ g ++ py "{" ++ f ++ py "}") ++ b)
  = lstrip a ++ ((py "\" ++ kind_name Image) ++ g ++ py "{" ++ f ++ py "}") ++ rstrip b.
Proof.
  replace (a ++ ((py "\" ++ kind_name Image) ++ g ++ py "{" ++ f ++ py "}") ++ b)
    with (a ++ 92%N :: (py "image" ++ g ++ py "{" ++ f) ++ 125%N :: b)
    by (rewrite <- !app_assoc; reflexivity).
  rewrite (strip_around a (py "image" ++ g ++ py "{" ++ f) b 92%N 125%N eq_refl eq_refl).
  rewrite <- !app_assoc. reflexivity.
Qed.

Lemma one_image_expand_part :
  expand_part [] (a ++ ((py "\" ++ kind_name Image) ++ g ++ py "{" ++ f ++ py "}") ++ b)
  = parse_media (media_matched Image (length a) g f) Image :: text_block (a ++ b).
Proof.
  unfold expand_part. rewrite one_image_strip.
  assert (Hin : 123%N ∈ lstrip a ++ ((py "\" ++ kind_name Image) ++ g ++ py "{" ++ f ++ py "}")
                        ++ rstrip b).
  { rewrite !elem_of_app. right. left. right. right. left. by left. }
  assert (Htruthy : truthy (lstrip a ++ ((py "\" ++ kind_name Image) ++ g ++ py "{" ++ f ++ py "}")
                            ++ rstrip b) = true).
  { by destruct (lstrip a). }
  rewrite Htruthy. cbn [negb].
  assert (Hbreak : is_break (lstrip a ++ ((py "\" ++ kind_name Image) ++ g ++ py "{" ++ f ++ py "}")
                             ++ rstrip b) = false).
  { unfold is_break. apply orb_false_iff.
    split; (destruct (text_eqb _ _) eqn:E; [|done]); apply text_eqb_eq in E;
      rewrite E in Hin; exfalso; revert Hin; not_in_text. }
  rewrite Hbreak. unfold media_pass at 2. cbn [fst snd].
  rewrite one_image_finditer. cbn [media_loop app].
  change (group (media_matched Image (length a) g f) 0)
    with ((py "\" ++ kind_name Image) ++ g ++ py "{" ++ f ++ py "}").
  change ((py "\" ++ kind_name Image) ++ g ++ py "{" ++ f ++ py "}")
    with (92%N :: py "image" ++ g ++ py "{" ++ f ++ py "}").
  rewrite (replace_empty_once 92%N (py "image" ++ g ++ py "{" ++ f ++ py "}") a b a_plain b_plain).
  assert (Hab : 92%N ∉ a ++ b) by (rewrite elem_of_app; tauto).
  unfold media_pass. cbn [fst snd].
  rewrite (finditer_plain _ (a ++ b) (media_re_bs Video) Hab). cbn [media_loop].
  unfold text_block. by destruct (truthy (strip (a ++ b))).
Qed.

Lemma one_image_expand :
  re_finditer inline_re (a ++ ((py "\" ++ kind_name Image) ++ g ++ py "{" ++ f ++ py "}") ++ b) = [] ->
  re_finditer break_re (a ++ ((py "\" ++ kind_name Image) ++ g ++ py "{" ++ f ++ py "}") ++ b) = [] ->
  expand_element [] (ELatex (a ++ ((py "\" ++ kind_name Image) ++ g ++ py "{" ++ f ++ py "}") ++ b))
  = parse_media (media_matched Image (length a) g f) Image :: text_block (a ++ b).
Proof.
  intros Hinline Hbreak. unfold expand_element.
  rewrite (re_sub_none _ _ _ _ Hinline), (re_split_none _ _ Hbreak). cbn [fold_left].
  apply one_image_expand_part.
Qed.
End OneImage.

(** The other patterns find nothing in text whose only backslashes
    begin image directives. *)
Lemma image_silent_1 (r : regex) (a v : text) (prev0 : option N) (p0 : nat) :
  starts_bs r -> 92%N ∉ a -> 92%N ∉ v ->
  (forall prev p s, match_at r prev p (py "\image" ++ s) = None) ->
  scan r (a ++ py "\image" ++ v) 0 prev0 p0 = [].
Proof.
  intros Hr Ha Hv Hnone.
  change (py "\image" ++ v) with (92%N :: py "image" ++ v).
  apply scan_one_bs; [done|done| |].
  - rewrite elem_of_app. intros [H|H]; [revert H; not_in_text|done].
  - intros prev p. apply (Hnone prev p v).
Qed.

Lemma image_silent_2 (r : regex) (a u v : text) (prev0 : option N) (p0 : nat) :
  starts_bs r -> 92%N ∉ a -> 92%N ∉ u -> 92%N ∉ v ->
  (forall prev p s, match_at r prev p (py "\image" ++ s) = None) ->
  scan r (a ++ py "\image" ++ u ++ py "\image" ++ v) 0 prev0 p0 = [].
Proof.
  intros Hr Ha Hu Hv Hnone.
  change (py "\image" ++ u ++ py "\image" ++ v)
    with (92%N :: (py "image" ++ u) ++ py "\image" ++ v).
  destruct (scan_bs_fail r a ((py "image" ++ u) ++ py "\image" ++ v) prev0 p0 Hr Ha)
    as (prev' & p' & ->).
  { intros prev p. apply (Hnone prev p (u ++ py "\image" ++ v)). }
  apply (image_silent_1 r (py "image" ++ u) v prev' p' Hr); [|done|done].
  rewrite elem_of_app. intros [H|H]; [revert H; not_in_text|done].
Qed.

Lemma image_not_block (prev : option N) (p : nat) (s : text) :
  match_at block_re prev p (py "\image" ++ s) = None.
Proof. apply seq_lit_no_match. by intros s' [=]. Qed.

Lemma image_not_inline (prev : option N) (p : nat) (s : text) :
  match_at inline_re prev p (py "\image" ++ s) = None.
Proof. apply seq_lit_no_match. by intros s' [=]. Qed.

Lemma image_not_break (prev : option N) (p : nat) (s : text) :
  match_at break_re prev p (py "\image" ++ s) = None.
Proof. apply break_no_match; by intros s' [=]. Qed.

(** X21: a source made of backslash-free text, one image directive
    without options, \image{file}, and backslash-free text with no
    opening brace gives the image first, with the file name trimmed
    and no size, and then one text block that joins the text before
    and after the directive. *)
Theorem image_between_text (a f b : text) :
  92%N ∉ a -> 92%N ∉ b -> 123%N ∉ b ->
  f <> [] -> 92%N ∉ f -> 123%N ∉ f -> 125%N ∉ f ->
  fst (parse_latex (a ++ (py "\image{" ++ f ++ py "}") ++ b))
  = EMedia Image (strip f) None None None :: text_block (a ++ b).
Proof.
  intros Ha Hb Hb' Hne Hf Hf' Hf''.
  assert (Hv : forall b0, 92%N ∉ b0 -> 92%N ∉ py "{" ++ f ++ py "}" ++ b0).
  { intros b0 Hb0. rewrite !elem_of_app. intros [H|[H|[H|H]]]; [|done| |done]; revert H; not_in_text. }
  assert (Hsilent : forall r a0 b0, starts_bs r -> 92%N ∉ a0 -> 92%N ∉ b0 ->
            (forall prev p s, match_at r prev p (py "\image" ++ s) = None) ->
            re_finditer r (a0 ++ ((py "\" ++ kind_name Image) ++ [] ++ py "{" ++ f ++ py "}") ++ b0)
            = []).
  { intros r a0 b0 Hr Ha0 Hb0 Hnone. unfold re_finditer.
    replace (a0 ++ ((py "\" ++ kind_name Image) ++ [] ++ py "{" ++ f ++ py "}") ++ b0)
      with (a0 ++ py "\image" ++ py "{" ++ f ++ py "}" ++ b0)
      by (rewrite <- !app_assoc; reflexivity).
    apply image_silent_1; auto. }
  change (py "\image{" ++ f ++ py "}")
    with ((py "\" ++ kind_name Image) ++ [] ++ py "{" ++ f ++ py "}").
  pose proof (one_image_strip a [] f b) as Hstrip.
  assert (Ha' : 92%N ∉ lstrip a) by (intros H; by apply Ha, elem_of_lstrip).
  assert (Hb1 : 92%N ∉ rstrip b) by (intros H; by apply Hb, elem_of_rstrip).
  assert (Hb2 : 123%N ∉ rstrip b) by (intros H; by apply Hb', elem_of_rstrip).
  rewrite parse_single_segment.
  - rewrite Hstrip, one_image_expand; try done.
    + by rewrite text_block_inner.
    + apply not_elem_of_nil.
    + apply Hsilent; [apply inline_re_bs|done|done|apply image_not_inline].
    + apply Hsilent; [apply break_re_bs|done|done|apply image_not_break].
  - apply Hsilent; [apply block_re_bs|done|done|apply image_not_block].
  - rewrite Hstrip. by destruct (lstrip a).
Qed.

Lemma image_between_text_witness :
  fst (parse_latex (py "See " ++ (py "\image{" ++ py " plot.png " ++ py "}") ++ py " above."))
  = EMedia Image (strip (py " plot.png ")) None None None
      :: text_block (py "See " ++ py " above.").
Proof.
  apply (image_between_text (py "See ") (py " plot.png ") (py " above.")).
  - not_in_text.
  - not_in_text.
  - not_in_text.
  - discriminate.
  - not_in_text.
  - not_in_text.
  - not_in_text.
Defined.

(** X22: of two image directives without options in one stretch of
    text only the second is recorded: the option group of the pattern
    runs over the first directive and the text between the two, so the
    source \image{f1} mid \image{f2} (the pieces free of backslashes,
    closing brackets and equals signs) gives one image with the file f2
    and no size, followed by the text around the pair; the first file
    and the text between the directives are in no element. *)
Theorem second_image_swallows_first (a f1 mid f2 b : text) :
  92%N ∉ a -> 92%N ∉ b -> 123%N ∉ b ->
  92%N ∉ f1 -> 93%N ∉ f1 -> 61%N ∉ f1 ->
  92%N ∉ mid -> 93%N ∉ mid -> 61%N ∉ mid ->
  f2 <> [] -> 92%N ∉ f2 -> 123%N ∉ f2 -> 125%N ∉ f2 ->
  fst (parse_latex (a ++ (py "\image{" ++ f1 ++ py "}" ++ mid ++ py "\image{" ++ f2 ++ py "}") ++ b))
  = EMedia Image (strip f2) None None None :: text_block (a ++ b).
Proof.
  intros Ha Hb Hb' H1 H1' H1'' Hm Hm' Hm'' Hne H2 H2' H2''.
  set (g := py "{" ++ f1 ++ py "}" ++ mid ++ py "\image").
  assert (Hg93 : 93%N ∉ g).
  { unfold g. rewrite !elem_of_app.
    intros [H|[H|[H|[H|H]]]]; [|done| |done|]; revert H; not_in_text. }
  assert (Hg61 : 61%N ∉ g).
  { unfold g. rewrite !elem_of_app.
    intros [H|[H|[H|[H|H]]]]; [|done| |done|]; revert H; not_in_text. }
  assert (Hg0 : forall g', g <> 91%N :: g') by (by intros g' [=]).
  assert (Hu : 92%N ∉ py "{" ++ f1 ++ py "}" ++ mid).
  { rewrite !elem_of_app. intros [H|[H|[H|H]]]; [|done| |done]; revert H; not_in_text. }
  assert (Hv : forall b0, 92%N ∉ b0 -> 92%N ∉ py "{" ++ f2 ++ py "}" ++ b0).
  { intros b0 Hb0. rewrite !elem_of_app. intros [H|[H|[H|H]]]; [|done| |done]; revert H; not_in_text. }
  assert (Hsilent : forall r a0 b0, starts_bs r -> 92%N ∉ a0 -> 92%N ∉ b0 ->
            (forall prev p s, match_at r prev p (py "\image" ++ s) = None) ->
            re_finditer r (a0 ++ ((py "\" ++ kind_name Image) ++ g ++ py "{" ++ f2 ++ py "}") ++ b0)
            = []).
  { intros r a0 b0 Hr Ha0 Hb0 Hnone. unfold re_finditer.
    replace (a0 ++ ((py "\" ++ kind_name Image) ++ g ++ py "{" ++ f2 ++ py "}") ++ b0)
      with (a0 ++ py "\image" ++ (py "{" ++ f1 ++ py "}" ++ mid) ++ py "\image"
               ++ py "{" ++ f2 ++ py "}" ++ b0)
      by (unfold g; rewrite <- !app_assoc; reflexivity).
    apply image_silent_2; auto. }
  replace (py "\image{" ++ f1 ++ py "}" ++ mid ++ py "\image{" ++ f2 ++ py "}")
    with ((py "\" ++ kind_name Image) ++ g ++ py "{" ++ f2 ++ py "}")
    by (unfold g; rewrite <- !app_assoc; reflexivity).
  pose proof (one_image_strip a g f2 b) as Hstrip.
  assert (Ha' : 92%N ∉ lstrip a) by (intros H; by apply Ha, elem_of_lstrip).
  assert (Hb1 : 92%N ∉ rstrip b) by (intros H; by apply Hb, elem_of_rstrip).
  assert (Hb2 : 123%N ∉ rstrip b) by (intros H; by apply Hb', elem_of_rstrip).
  rewrite parse_single_segment.
  - rewrite Hstrip, one_image_expand; try done.
    + rewrite text_block_inner. f_equal. by apply parse_media_no_sizes.
    + apply Hsilent; [apply inline_re_bs|done|done|apply image_not_inline].
    + apply Hsilent; [apply break_re_bs|done|done|apply image_not_break].
  - apply Hsilent; [apply block_re_bs|done|done|apply image_not_block].
  - rewrite Hstrip. by destruct (lstrip a).
Qed.

Lemma second_image_swallows_first_witness :
  fst (parse_latex (py "See " ++ (py "\image{" ++ py "a.png" ++ py "}" ++ py " and "
                                    ++ py "\image{" ++ py "b.png" ++ py "}") ++ py " above."))
  = EMedia Image (strip (py "b.png")) None None None :: text_block (py "See " ++ py " above.").
Proof.
  apply (second_image_swallows_first (py "See ") (py "a.png") (py " and ") (py "b.png")
           (py " above.")).
  - not_in_text.
  - not_in_text.
  - not_in_text.
  - not_in_text.
  - not_in_text.
  - not_in_text.
  - not_in_text.
  - not_in_text.
  - not_in_text.
  - discriminate.
  - not_in_text.
  - not_in_text.
  - not_in_text.
Defined.

(** ** From the source text to the manifest *)

Lemma parse_plain (tex : text) :
  92%N ∉ tex -> parse_latex tex = (text_block tex, detect_layout tex).
Proof.
  intros Ht. unfold parse_latex. f_equal.
  rewrite first_pass_none by (by apply finditer_plain; [apply block_re_bs|]).
  by apply expand_text_block_plain.
Qed.

(** X23: a note without any backslash that is not blank, and whose
    two converters exit with status 0, builds to a manifest with the
    detected layout and the single entry latex/block_0.svg; the bundle
    holds at that path what dvisvgm left for the trimmed text. *)
Theorem plain_note_builds (w : World) (tex : text) :
  92%N ∉ tex -> strip tex <> [] ->
  fst (latex_run w (strip tex)) = 0%Z -> fst (dvisvgm_run w (strip tex)) = 0%Z ->
  exists bundle,
    build w tex = Ok (Manifest (detect_layout tex) [SLatex (latex_rel 0)], bundle)
    /\ bundle !! latex_rel 0 = dvisvgm_svg w (strip tex).
Proof.
  intros Ht Hne Hl Hd. unfold build. rewrite (parse_plain tex Ht).
  unfold text_block. destruct (strip tex) as [|c t] eqn:Hs; [done|]. cbn [truthy].
  unfold dispatch. cbn [dispatch_loop dispatch_step].
  unfold render_latex_to_svg, check_run. rewrite Hl, Hd. cbn [Z.eqb bind fst snd].
  eexists. split; [reflexivity|].
  destruct (dvisvgm_svg w (c :: t)) as [svg|].
  - apply lookup_insert_eq.
  - apply lookup_delete_eq.
Qed.

Lemma plain_note_builds_witness :
  exists bundle,
    build two_dirs_world (py " E = mc^2 ")
    = Ok (Manifest (detect_layout (py " E = mc^2 ")) [SLatex (latex_rel 0)], bundle)
    /\ bundle !! latex_rel 0 = dvisvgm_svg two_dirs_world (strip (py " E = mc^2 ")).
Proof.
  apply (plain_note_builds two_dirs_world (py " E = mc^2 ")).
  - not_in_text.
  - vm_compute. discriminate.
  - reflexivity.
  - reflexivity.
Defined.

Lemma marker_not_blank (m : text) : marker m -> exists c, c ∈ m /\ isspace c = false.
Proof.
  intros [[(ws & _ & ->)| ->]|(x & y & _ & _ & ->)].
  - exists 37%N. split; [by left|done].
  - exists 92%N. split; [by left|done].
  - exists 92%N. split; [by left|done].
Qed.

(** X24: a blank source (empty, or whitespace only) still builds: the
    manifest has the single-column layout and an empty sequence, and no
    file is put into the bundle, whatever the converters would do. *)
Theorem blank_source_builds_empty (w : World) (tex : text) :
  all_in isspace tex -> build w tex = Ok (Manifest SingleColumn [], ∅).
Proof.
  intros Hall. assert (Hmem : forall c, c ∈ tex -> isspace c = true).
  { intros c Hc. unfold all_in in Hall. rewrite Forall_forall in Hall. by apply Hall. }
  assert (Ht : 92%N ∉ tex) by (intros H; by apply Hmem in H).
  unfold build. rewrite (parse_plain tex Ht).
  assert (Hs : strip tex = []).
  { unfold strip. by rewrite (lstrip_all_spaces tex Hall). }
  unfold text_block. rewrite Hs. cbn [truthy].
  assert (Hl : detect_layout tex = SingleColumn).
  { destruct (detect_layout tex) eqn:Hd; [done|]. exfalso.
    apply detect_layout_two_column in Hd as (pre & m & post & -> & _ & Hm).
    destruct (marker_not_blank m Hm) as (c & Hc & Hsp).
    rewrite (Hmem c) in Hsp; [done|]. rewrite !elem_of_app. auto. }
  by rewrite Hl.
Qed.

Lemma blank_source_builds_empty_witness :
  build failing_world (py "  ") = Ok (Manifest SingleColumn [], ∅).
Proof. apply (blank_source_builds_empty failing_world (py "  ")). by repeat constructor. Defined.

(** ** Claims about malformed directives *)

Lemma opener_plain_tail (o : text) :
  opener o -> exists x c, o = 92%N :: x ++ [c] /\ isspace c = false /\ 92%N ∉ x ++ [c].
Proof.
  intros [-> | [-> | [-> | [-> | ->]]]].
  - exists (py "manim"), 123%N. split_and!; [done|done|not_in_text].
  - exists (py "image"), 123%N. split_and!; [done|done|not_in_text].
  - exists (py "video"), 123%N. split_and!; [done|done|not_in_text].
  - exists (py "image"), 91%N. split_and!; [done|done|not_in_text].
  - exists (py "video"), 91%N. split_and!; [done|done|not_in_text].
Qed.

Lemma opener_not_break (o s : text) (prev : option N) (p : nat) :
  opener o -> match_at break_re prev p (o ++ s) = None.
Proof.
  intros [-> | [-> | [-> | [-> | ->]]]]; apply break_no_match; by intros s' [=].
Qed.

Section Unterminated.
Variables a o b : text.
Hypothesis a_plain : 92%N ∉ a.
Hypothesis b_plain : 92%N ∉ b.
Hypothesis b_open : 125%N ∉ b.
Hypothesis o_opener : opener o.

(** No pattern that ends in a closing brace matches at the opening. *)
Lemma unterminated_no_match (r : regex) (prev : option N) (p : nat) :
  rm_ends r -> match_at r prev p (o ++ b) = None.
Proof.
  intros Hr. destruct (match_at r prev p (o ++ b)) as [m|] eqn:Hm; [|done]. exfalso.
  destruct (rm_ends_match r prev p _ m Hr Hm) as [w0 Hw].
  destruct (match_at_word _ _ _ _ _ Hm) as (_ & _ & s' & Hs). rewrite Hw in Hs.
  destruct (opener_shape o o_opener) as (x & c & _ & _ & _ & _ & Ho).
  assert (Hin : 125%N ∈ o ++ b).
  { rewrite Hs, !elem_of_app. left. right. by left. }
  rewrite elem_of_app in Hin. tauto.
Qed.

Lemma unterminated_silent (r : regex) :
  starts_bs r ->
  (forall prev p, match_at r prev p (o ++ b) = None) ->
  re_finditer r (a ++ o ++ b) = [].
Proof.
  intros Hbs Hnone. destruct (opener_plain_tail o o_opener) as (x & c & Ho & _ & Hx).
  unfold re_finditer. rewrite Ho. cbn [app].
  apply scan_one_bs; [done|done|rewrite elem_of_app; tauto|].
  intros prev p. specialize (Hnone prev p). by rewrite Ho in Hnone.
Qed.

Lemma unterminated_expand :
  expand_element [] (ELatex (a ++ o ++ b)) = text_block (a ++ o ++ b).
Proof.
  assert (Hk : keeps o (a ++ o ++ b)) by (by exists a, b).
  pose proof (keeps_strip _ _ o_opener Hk) as Hks.
  unfold expand_element.
  rewrite (re_sub_none inline_re repl_inline _ [])
    by (apply unterminated_silent;
        [apply inline_re_bs|intros; apply unterminated_no_match, inline_re_ends]).
  rewrite re_split_none
    by (apply unterminated_silent; [apply break_re_bs|intros; by apply opener_not_break]).
  cbn [fold_left]. unfold expand_part, text_block.
  rewrite (keeps_truthy _ _ o_opener Hks), (keeps_not_break _ _ o_opener Hks). cbn [negb].
  unfold media_pass. cbn [fst snd].
  rewrite (unterminated_silent (media_re Image))
    by (try apply media_re_bs; intros; apply unterminated_no_match, media_re_ends).
  cbn [media_loop fst snd].
  rewrite (unterminated_silent (media_re Video))
    by (try apply media_re_bs; intros; apply unterminated_no_match, media_re_ends).
  cbn [media_loop]. by rewrite (keeps_truthy _ _ o_opener Hks).
Qed.
End Unterminated.

Lemma unterminated_parse (a o b : text) :
  92%N ∉ a -> 92%N ∉ b -> 125%N ∉ b -> opener o ->
  fst (parse_latex (a ++ o ++ b)) = text_block (a ++ o ++ b).
Proof.
  intros Ha Hb Hb' Ho.
  destruct (opener_plain_tail o Ho) as (x & c & Hshape & Hc & Hx).
  assert (Hstrip : strip (a ++ o ++ b) = lstrip a ++ o ++ rstrip b).
  { rewrite Hshape. cbn [app]. rewrite <- app_assoc. cbn [app].
    rewrite (strip_around a x b 92%N c eq_refl Hc). by rewrite <- app_assoc. }
  assert (Htruthy : truthy (strip (a ++ o ++ b)) = true).
  { rewrite Hstrip, Hshape. by destruct (lstrip a). }
  rewrite parse_single_segment.
  - rewrite Hstrip, unterminated_expand.
    + unfold text_block. rewrite <- Hstrip, strip_idem. by rewrite Htruthy.
    + intros H. by apply Ha, elem_of_lstrip.
    + intros H. by apply Hb, elem_of_rstrip.
    + intros H. by apply Hb', elem_of_rstrip.
    + done.
  - apply unterminated_silent; [done|done|done|apply block_re_bs|].
    intros prev p. apply unterminated_no_match; [done|done|apply block_re_ends].
  - done.
Qed.

(** What the code does with unmatched braces: the opening is paired
    with the next closing brace. *)
Lemma unmatched_braces_parse :
  fst (parse_latex (py "\manim{ foo { bar } baz"))
  = [EManim (py " foo { bar "); ELatex (py "baz")].
Proof. vm_compute. reflexivity. Qed.




